(** * FTBot Markov engine: a shallow embedding of [markov_engine.py]

    The Python module is embedded function by function.  Python objects that
    are mutated while shared (the neighbor dictionaries of words, which the
    trainer's row cache and the trie both point to) live in an explicit heap
    and are referred to by location; everything else is a value.

    Missing modules: [ml_config] (the constants [MARKOV_WINDOW_SIZE],
    [MARKOV_GENERATION_WEIGHT_COUNT], [MARKOV_GENERATION_WEIGHT_RATING],
    [MARKOV_GENERATE_SUBJECT_POS_PRIORITY]) and [nlp_common] ([PosEnum],
    [get_pos_from_token], [one_hot]).  The constants and the enumeration are
    parameters of the development; [one_hot] is modelled from the
    specification.  numpy's floating-point numbers and its random sampler
    are parameters too: nothing below depends on how they round or draw.
    numpy's integers are [int64] with their wrap-around, Python's are
    unbounded; the case mapping [str.lower] and the codecs behind the
    snapshot ([json], [utf-8], [zlib]) are parameters as well. *)

From Stdlib Require Import ZArith QArith Lia Ascii String List.
From stdpp Require Import base option list strings.

Local Open Scope Z_scope.
Local Open Scope nat_scope.
Local Set Warnings "-register-all".

(** ** Characters *)

(** Python's [for c in word] *)
Definition chars (word : string) : list ascii := list_ascii_of_string word.

(** Python's [enumerate] *)
Fixpoint enumerate_from {A} (i : nat) (l : list A) : list (nat * A) :=
  match l with
  | [] => []
  | x :: l' => (i, x) :: enumerate_from (S i) l'
  end.

Definition enumerate {A} (l : list A) : list (nat * A) := enumerate_from 0 l.

(** [enumerate(reversed(l))] with the index turned back,
    [word_idx = (len(l) - 1) - word_idx] *)
Definition enumerate_reversed {A} (l : list A) : list (nat * A) :=
  map (λ e, ((length l - 1) - fst e, snd e)) (enumerate (reverse l)).

(** [m[i][j] = v] on a list of lists *)
Definition set2 {A} (i j : nat) (v : A) (m : list (list A)) : list (list A) :=
  match m !! i with
  | Some row => <[i := <[j := v]> row]> m
  | None => m
  end.

(** ** Python dictionaries that keep insertion order

    A [dict] is an association list; [dict_get] is [d[k]] and [k in d],
    [dict_set] is [d[k] = v]: overwrite in place, or append a new key at the
    end. *)
Fixpoint dict_get {Key Val} `{EqDecision Key} (k : Key) (d : list (Key * Val))
  : option Val :=
  match d with
  | [] => None
  | (k', v) :: d' => if decide (k' = k) then Some v else dict_get k d'
  end.

Fixpoint dict_set {Key Val} `{EqDecision Key} (k : Key) (v : Val) (d : list (Key * Val))
  : list (Key * Val) :=
  match d with
  | [] => [(k, v)]
  | (k', v') :: d' =>
      if decide (k' = k) then (k', v) :: d' else (k', v') :: dict_set k v d'
  end.

Definition dict_keys {Key Val} (d : list (Key * Val)) : list Key := map fst d.

(** ** numpy on integer vectors *)

(** numpy gives an array built from a list of Python integers its default
    integer type, [int64]; an addition of such arrays whose result leaves
    the range of [int64] wraps around silently.  (A list that holds an
    integer outside that range makes an array of another type; a histogram
    that [learn] has built holds none.) *)
Definition wrap_int64 (z : Z) : Z :=
  ((z + 9223372036854775808) mod 18446744073709551616 - 9223372036854775808)%Z.

(** [np.array(a) + np.array(b)] on one-dimensional integer arrays, with
    numpy's broadcasting of a length-one operand; [None] is the
    [ValueError] for shapes that do not broadcast.  The result is the list
    that [tolist()] makes of the sum. *)
Definition np_add (a b : list Z) : option (list Z) :=
  if decide (length a = length b) then Some (zip_with (λ x y, wrap_int64 (x + y)) a b)
  else match a, b with
       | [x], _ => Some (map (λ y, wrap_int64 (x + y)) b)
       | _, [y] => Some (map (λ v, wrap_int64 (v + y)) a)
       | _, _ => None
       end.

(** Modelled from the spec: [one_hot(i, n)] of the missing module
    [nlp_common] is "a length-n vector, all zero except index i set to 1;
    fails with OutOfRange when i is not in [0, n)". *)
Definition one_hot (i : Z) (n : nat) : option (list Z) :=
  if decide (0 ≤ i < Z.of_nat n)%Z
  then Some (<[Z.to_nat i := 1%Z]> (replicate n 0%Z))
  else None.

Definition sum_list (l : list Z) : Z := foldr Z.add 0%Z l.

(** ** MarkovFilters

    The filters work on any Python [str]; here a [str] is the list of its
    code points, so that the curly quote of the character class has its
    place. *)

(** the character class of [filter_input]: comma, colon, semicolon,
    apostrophe, backquote, hyphen, underscore, left curly double quote
    (U+201C), caret, double quote, parentheses, braces, slash, backslash and
    asterisk *)
Definition STRIPPED : list N :=
  [44; 58; 59; 39; 96; 45; 95; 8220; 94; 34; 40; 41; 123; 125; 47; 92; 42]%N.

(** the character class of [smooth_output]: [.,?!%] *)
Definition PUNCTUATION : list N := [46; 44; 63; 33; 37]%N.

(** [re.sub] of the pattern [(&amp;)] by the empty string: the matches
    are taken from the left and do not overlap *)
Fixpoint strip_amp (s : list N) : list N :=
  match s with
  | [] => []
  | c :: rest =>
      match s with
      | 38%N :: 97%N :: 109%N :: 112%N :: 59%N :: rest' => strip_amp rest'
      | _ => c :: strip_amp rest
      end
  end.

Definition filter_input (text : option (list N)) : option (list N) :=
  match text with
  | None => None
  | Some filtered =>
      let filtered := strip_amp filtered in
      let filtered := filter (λ c, c ∉ STRIPPED) filtered in
      Some filtered
  end.

(** [re.sub] of a space followed by one of [.,?!%] by that character,
    with fuel for the recursion that steps over two characters at a match;
    the length of [s] is enough *)
Fixpoint smooth (fuel : nat) (s : list N) : list N :=
  match fuel with
  | 0 => s
  | S fuel' =>
      match s with
      | c1 :: c2 :: rest =>
          if decide (c1 = 32%N ∧ c2 ∈ PUNCTUATION)
          then c2 :: smooth fuel' rest
          else c1 :: smooth fuel' (c2 :: rest)
      | _ => s
      end
  end.

Definition smooth_output (text : option (list N)) : option (list N) :=
  match text with
  | None => None
  | Some smoothed => Some (smooth (length smoothed) smoothed)
  end.

(** the code points of a literal *)
Definition codepoints (s : string) : list N := map N_of_ascii (list_ascii_of_string s).

(** the ASCII letters and digits *)
Definition ascii_alnum (c : N) : bool :=
  ((48 <=? c) && (c <=? 57) || (65 <=? c) && (c <=? 90) || (97 <=? c) && (c <=? 122))%N.

(** ** The model of the engine *)
Section MarkovEngine.

(** [c.lower()] for a character [c] of a text: the case mapping of Python's
    [str], taken one character at a time as the trie does.  It is a
    parameter of the development: everything below holds for whatever
    characters the mapping folds.  (Texts are strings of the code points 0
    to 255, on which [c.lower()] is one character again.) *)
Variable lower : ascii → ascii.

(** [nlp_common.PosEnum]: a closed enumeration with the sentinel [EOS]. *)
Context {PosEnum : Type} `{EqDecision PosEnum}.
Variable EOS : PosEnum.

(** [ml_config] *)
Variable MARKOV_WINDOW_SIZE : nat.
Variable MARKOV_GENERATE_SUBJECT_POS_PRIORITY : list PosEnum.

(** numpy's [float64]: the type, [0.0], the conversion of a Python [int],
    the three operations the projection uses and the two weights of
    [ml_config]. *)
Context {Float : Type}.
Variable float_zero : Float.
Variable float_of_int : Z → Float.
Variable float_add float_mul float_div : Float → Float → Float.
Variable MARKOV_GENERATION_WEIGHT_COUNT : Float.
Variable MARKOV_GENERATION_WEIGHT_RATING : Float.

(** [np.random.choice(np.arange(n), p=p)]: it reads and advances the state
    of the generator and returns an index, or raises [ValueError] ([None]),
    as it does when [p] holds a NaN, a negative entry or does not sum to 1. *)
Context {RandomState : Type}.
Variable np_random_choice : RandomState → list Float → option (nat * RandomState).

(** *** Data model *)

(** [neighbor.values], the two-element list [[count, rating]]
    (class [NeighborValueIdx]) *)
Record NeighborValues := { COUNT : Z; RATING : Z }.

(** A row of a word's neighbor dictionary, [[pos, values, dist]]
    (class [NeighborIdx]).  The list [values] is an object of its own that
    the trainer modifies in place.  [from_token] makes a new list for a new
    neighbor, [json.loads] makes a new list for every row it reads, and the
    row that [learn] writes over a row takes the list of that row over: in
    a store built by [learn] and [load] no two rows hold the same list, and
    the list is kept in the row by value.  A client that hands one
    [MarkovNeighbor] to [set_neighbor] of two words makes two rows share
    the list; the statements on [learn] below are about stores without
    such sharing. *)
Record NeighborRow := {
  POS : PosEnum;
  VALUE_MATRIX : NeighborValues;
  DISTANCE_MATRIX : list Z
}.

(** class [MarkovNeighbor] *)
Record MarkovNeighbor := {
  nb_text : string;
  nb_pos : PosEnum;
  nb_values : NeighborValues;
  nb_dist : list Z
}.

(** A neighbor dictionary object and the heap of such objects; a location
    is an index into the heap, allocation appends. *)
Local Abbreviation loc := nat (only parsing).
Local Abbreviation NeighborDict := (list (string * NeighborRow)) (only parsing).
Local Abbreviation Heap := (list (list (string * NeighborRow))) (only parsing).

Definition heap_alloc (d : NeighborDict) (h : Heap) : Heap * loc := (h ++ [d], length h).
Definition heap_get (h : Heap) (l : loc) : NeighborDict := default [] (h !! l).
Definition heap_set (h : Heap) (l : loc) (d : NeighborDict) : Heap := <[l := d]> h.

(** class [MarkovWord]; [neighbors] is a reference to a dictionary object *)
Record MarkovWord := {
  text : string;
  pos : PosEnum;
  neighbors : loc
}.

(** A spaCy token as the engine reads it: [token.text] and
    [get_pos_from_token(token)]. *)
Record Token := { tok_text : string; tok_pos : PosEnum }.

(** One node of [MarkovTrieDb._trie]: the payload keys ['_W'] (text and
    pos) and ['_N'] (the neighbor dictionary), which the code always
    writes together, and the children keyed by lowered character. *)
Inductive TrieNode :=
| Node (payload : option MarkovWord) (children : list (ascii * TrieNode)).

Definition node_payload (n : TrieNode) : option MarkovWord :=
  match n with Node p _ => p end.
Definition node_children (n : TrieNode) : list (ascii * TrieNode) :=
  match n with Node _ ch => ch end.

(** [MarkovTrieDb.__init__] with no path: [self._trie = {}] *)
Definition empty_trie : TrieNode := Node None [].

(** every payload of a trie *)
Fixpoint trie_words (n : TrieNode) : list MarkovWord :=
  match n with
  | Node p ch =>
      option_list p ++ flat_map (λ kv, let '(_, child) := kv in trie_words child) ch
  end.

(** *** MarkovNeighbor *)

Definition MarkovNeighbor_from_token (token : Token) : MarkovNeighbor :=
  {| nb_text := tok_text token;
     nb_pos := tok_pos token;
     nb_values := {| COUNT := 0; RATING := 0 |};
     nb_dist := replicate (MARKOV_WINDOW_SIZE * 2 + 1) 0%Z |}.

Definition to_db_format (n : MarkovNeighbor) : string * NeighborRow :=
  (nb_text n,
   {| POS := nb_pos n; VALUE_MATRIX := nb_values n; DISTANCE_MATRIX := nb_dist n |}).

Definition distance_one_hot (dist : Z) : option (list Z) :=
  one_hot (dist + Z.of_nat MARKOV_WINDOW_SIZE)%Z (MARKOV_WINDOW_SIZE * 2 + 1).

(** *** MarkovWord *)

(** [MarkovWord.from_token]: the fresh [{}] is allocated *)
Definition MarkovWord_from_token (h : Heap) (token : Token) : Heap * MarkovWord :=
  let '(h', l) := heap_alloc [] h in
  (h', {| text := tok_text token; pos := tok_pos token; neighbors := l |}).

Definition get_neighbor (h : Heap) (w : MarkovWord) (word : string) : option MarkovNeighbor :=
  match dict_get word (heap_get h (neighbors w)) with
  | Some n_row =>
      Some {| nb_text := word; nb_pos := POS n_row;
              nb_values := VALUE_MATRIX n_row; nb_dist := DISTANCE_MATRIX n_row |}
  | None => None
  end.

Definition select_neighbors (h : Heap) (w : MarkovWord) (p : PosEnum) : list MarkovNeighbor :=
  omap (λ key,
          match get_neighbor h w key with
          | Some neighbor => if decide (nb_pos neighbor = p) then Some neighbor else None
          | None => None
          end)
       (dict_keys (heap_get h (neighbors w))).

(** class [MarkovWordProjection] *)
Record MarkovWordProjection := {
  magnitudes : list (list Float);
  distances : list (list Float);
  keys : list string;
  proj_pos : list PosEnum
}.

(** the inner loop of [project]: one neighbor's histogram written into its
    row of the matrix *)
Definition project_dist (idx_in_sentence sentence_length neighbor_idx : nat)
    (D : list (list Float)) (e : nat * Z) : list (list Float) :=
  let '(dist_idx, dist_value) := e in
  let dist_space_index :=
    ((Z.of_nat dist_idx - Z.of_nat MARKOV_WINDOW_SIZE) + Z.of_nat idx_in_sentence)%Z in
  if decide (0 ≤ dist_space_index ∧ dist_space_index < Z.of_nat sentence_length)%Z
  then set2 neighbor_idx (Z.to_nat dist_space_index) (float_of_int dist_value) D
  else D.

Definition neighbor_magnitude (neighbor : MarkovNeighbor) : Float :=
  float_add
    (float_mul (float_of_int (COUNT (nb_values neighbor))) MARKOV_GENERATION_WEIGHT_COUNT)
    (float_mul (float_of_int (RATING (nb_values neighbor))) MARKOV_GENERATION_WEIGHT_RATING).

(** the outer loop of [project] *)
Definition project_neighbor (idx_in_sentence sentence_length : nat)
    (acc : MarkovWordProjection) (e : nat * MarkovNeighbor) : MarkovWordProjection :=
  let '(neighbor_idx, neighbor) := e in
  {| keys := keys acc ++ [nb_text neighbor];
     proj_pos := proj_pos acc ++ [nb_pos neighbor];
     distances :=
       foldl (project_dist idx_in_sentence sentence_length neighbor_idx)
             (distances acc) (enumerate (nb_dist neighbor));
     magnitudes := <[neighbor_idx := [neighbor_magnitude neighbor]]> (magnitudes acc) |}.

Definition project (h : Heap) (w : MarkovWord) (idx_in_sentence sentence_length : nat)
    (p : PosEnum) : MarkovWordProjection :=
  let nbrs := select_neighbors h w p in
  foldl (project_neighbor idx_in_sentence sentence_length)
        {| keys := []; proj_pos := [];
           distances := replicate (length nbrs) (replicate sentence_length float_zero);
           magnitudes := replicate (length nbrs) [float_zero] |}
        (enumerate nbrs).

(** *** MarkovWordProjectionCollection *)

(** [_concat_collection]; the empty matrices stand for the initial [None] *)
Definition concat_step (acc : MarkovWordProjection) (e : nat * MarkovWordProjection)
  : MarkovWordProjection :=
  let '(projection_idx, projection) := e in
  {| keys := keys acc ++ keys projection;
     proj_pos := proj_pos acc ++ proj_pos projection;
     magnitudes := if decide (projection_idx = 0) then magnitudes projection
                   else magnitudes acc ++ magnitudes projection;
     distances := if decide (projection_idx = 0) then distances projection
                  else distances acc ++ distances projection |}.

Definition MarkovWordProjectionCollection (projections : list MarkovWordProjection)
  : MarkovWordProjection :=
  foldl concat_step {| keys := []; proj_pos := []; magnitudes := []; distances := [] |}
        (enumerate projections).

(** [probability_matrix]: [distances * magnitudes] broadcasts the column of
    magnitudes over the rows, [np.sum(.., axis=0)] adds the rows up, the
    division broadcasts the sums over the rows. *)
Definition probability_matrix (c : MarkovWordProjection) : list (list Float) :=
  let distance_magnitudes :=
    zip_with (λ drow mrow, map (λ d, float_mul d (hd float_zero mrow)) drow)
             (distances c) (magnitudes c) in
  let sums :=
    match distance_magnitudes with
    | [] => []
    | r :: rs => foldl (zip_with float_add) r rs
    end in
  map (λ row, zip_with float_div row sums) distance_magnitudes.

(** *** MarkovTrieDb *)

(** the walk of [_getnode] below the length test *)
Fixpoint walk (cs : list ascii) (node : TrieNode) : option TrieNode :=
  match cs with
  | [] => Some node
  | c :: cs' =>
      match dict_get (lower c) (node_children node) with
      | Some child => walk cs' child
      | None => None
      end
  end.

Definition _getnode (trie : TrieNode) (word : string) : option TrieNode :=
  if decide (String.length word = 0) then None else walk (chars word) trie.

Definition _select (trie : TrieNode) (word : string) : option TrieNode :=
  match _getnode trie word with
  | None => None
  | Some node =>
      match node_payload node with
      | Some _ => Some node
      | None => None
      end
  end.

(** [MarkovWord.from_db_format] *)
Definition from_db_format (row : TrieNode) : option MarkovWord := node_payload row.

Definition select (trie : TrieNode) (word : string) : option MarkovWord :=
  match _select trie word with
  | Some row => from_db_format row
  | None => None
  end.

(** The node reached by a walk is mutated in place; in the tree this is
    an update along the path.  [with_node cs f node] descends along [cs],
    creating the missing children as [_insert] does, and applies [f] to
    the node at the end. *)
Fixpoint with_node (cs : list ascii) (f : TrieNode → TrieNode) (node : TrieNode)
  : TrieNode :=
  match cs with
  | [] => f node
  | c :: cs' =>
      let child := default empty_trie (dict_get (lower c) (node_children node)) in
      Node (node_payload node)
           (dict_set (lower c) (with_node cs' f child) (node_children node))
  end.

Definition set_payload (w : MarkovWord) (node : TrieNode) : TrieNode :=
  Node (Some w) (node_children node).

(** [_insert]: the updated trie and the row (the node written) *)
Definition _insert (trie : TrieNode) (word : string) (p : PosEnum) (nbrs : loc)
  : TrieNode * option TrieNode :=
  let payload := {| text := word; pos := p; neighbors := nbrs |} in
  let trie' := with_node (chars word) (set_payload payload) trie in
  (trie', walk (chars word) trie').

Definition insert (trie : TrieNode) (word : MarkovWord) : TrieNode * option MarkovWord :=
  let '(trie', row) := _insert trie (text word) (pos word) (neighbors word) in
  (trie', match row with Some r => from_db_format r | None => None end).

Definition _update (trie : TrieNode) (word : string) (p : PosEnum) (nbrs : loc)
  : TrieNode * option TrieNode :=
  match _select trie word with
  | None => (trie, None)
  | Some _ =>
      let payload := {| text := word; pos := p; neighbors := nbrs |} in
      let trie' := with_node (chars word) (set_payload payload) trie in
      (trie', walk (chars word) trie')
  end.

Definition update (trie : TrieNode) (word : MarkovWord) : TrieNode * option MarkovWord :=
  let '(trie', node) := _update trie (text word) (pos word) (neighbors word) in
  (trie', match node with Some r => from_db_format r | None => None end).

(** *** MarkovTrainer *)

(** an n-gram [[a, b, dist]] *)
Definition Ngram : Type := Token * Token * Z.

Definition ngramify (span : list Token) : list Ngram :=
  flat_map (λ ea,
    flat_map (λ eb,
      let dist := (Z.of_nat (fst eb) - Z.of_nat (fst ea))%Z in
      if decide (dist = 0%Z) then []
      else if decide (Z.abs dist ≤ Z.of_nat MARKOV_WINDOW_SIZE)%Z
           then [(snd ea, snd eb, dist)]
           else [])
      (enumerate span))
    (enumerate span).

(** The state that [learn] works on: the heap, the trie of the engine and
    the local [row_cache]. *)
Definition LearnState : Type := Heap * TrieNode * list (string * MarkovWord).

(** The body of the loop over the n-grams; [None] is an exception
    ([one_hot] out of range, or shapes that do not add). *)
Definition learn_ngram (st : LearnState) (ngram : Ngram) : option LearnState :=
  let '(h, trie, row_cache) := st in
  let '(a, b, ngram_dist) := ngram in
  let '(h1, word) :=
    match dict_get (tok_text a) row_cache with
    | Some word => (h, word)
    | None =>
        match select trie (tok_text a) with
        | Some word => (h, word)
        | None => MarkovWord_from_token h a
        end
    end in
  let neighbor :=
    match get_neighbor h1 word (tok_text b) with
    | Some neighbor => neighbor
    | None => MarkovNeighbor_from_token b
    end in
  let values :=
    {| COUNT := (COUNT (nb_values neighbor) + 1)%Z;
       RATING := RATING (nb_values neighbor) |} in
  dist_one_hot_add ← distance_one_hot ngram_dist;
  dist ← np_add (nb_dist neighbor) dist_one_hot_add;
  let '(key, neighbor_db) :=
    to_db_format {| nb_text := nb_text neighbor; nb_pos := nb_pos neighbor;
                    nb_values := values; nb_dist := dist |} in
  let h2 := heap_set h1 (neighbors word)
                     (dict_set key neighbor_db (heap_get h1 (neighbors word))) in
  let trie' :=
    match update trie word with
    | (t, Some _) => t
    | (t, None) => fst (insert t word)
    end in
  Some (h2, trie', dict_set (tok_text a) word row_cache).

(** a fold that stops at the first exception *)
Fixpoint foldM {A B} (f : B → A → option B) (b : B) (l : list A) : option B :=
  match l with
  | [] => Some b
  | x :: l' => match f b x with Some b' => foldM f b' l' | None => None end
  end.

(** [learn(doc)]: a document is the list of its sentences *)
Definition learn (db : Heap * TrieNode) (doc : list (list Token)) : option (Heap * TrieNode) :=
  let ngrams := flat_map ngramify doc in
  match foldM learn_ngram (db.1, db.2, []) ngrams with
  | Some (h, trie, _) => Some (h, trie)
  | None => None
  end.

(** *** MarkovGenerator *)

Local Abbreviation Board := (list (list (option MarkovWord))) (only parsing).

Definition _sort_subjects (subjects : list MarkovWord) : list MarkovWord :=
  flat_map (λ subject_priority, filter (λ subject, pos subject = subject_priority) subjects)
           MARKOV_GENERATE_SUBJECT_POS_PRIORITY.

(** the body of the loop of [_split_sentences]; the state is
    [start_index], [sentence_structures] and [sentence_generations] *)
Definition split_step (structure : list PosEnum)
    (st : nat * list (list PosEnum) * Board) (e : nat * PosEnum)
  : nat * list (list PosEnum) * Board :=
  let '(start_index, sentence_structures, sentence_generations) := st in
  let '(pos_idx, p) := e in
  if decide (p = EOS) then
    let sentence := take (pos_idx - start_index) (drop start_index structure) in
    (pos_idx + 1, sentence_structures ++ [sentence],
     sentence_generations ++ [replicate (length sentence) None])
  else st.

Definition _split_sentences (structure : list PosEnum) : list (list PosEnum) * Board :=
  let '(_, sentence_structures, sentence_generations) :=
    foldl (split_step structure) (0, [], []) (enumerate structure) in
  (sentence_structures, sentence_generations).

(** the loop over the subjects for one slot of [_assign_subjects]; the
    state is [sentence_generations] and [sentences_assigned] *)
Fixpoint assign_slot (subjects : list MarkovWord) (sentence_idx word_idx : nat)
    (p : PosEnum) (st : Board * list (option bool)) : Board * list (option bool) :=
  match subjects with
  | [] => st
  | subject :: rest =>
      if decide (pos subject = p)
      then (set2 sentence_idx word_idx (Some subject) st.1,
            <[sentence_idx := Some true]> st.2)
      else assign_slot rest sentence_idx word_idx p st
  end.

Definition assign_sentence (subjects : list MarkovWord)
    (st : Board * list (option bool)) (e : nat * list PosEnum)
  : Board * list (option bool) :=
  foldl (λ st' e', assign_slot subjects (fst e) (fst e') (snd e') st') st (enumerate (snd e)).

(** [_assign_subjects]: the board and the returned flag.  The flags of
    [sentences_assigned] are [None] or [True]; the final loop looks for
    [False]. *)
Definition _assign_subjects (subjects : list MarkovWord)
    (sentence_structures : list (list PosEnum)) (sentence_generations : Board)
  : Board * bool :=
  let sentences_assigned := replicate (length sentence_structures) (None : option bool) in
  let '(generations, assigned) :=
    foldl (assign_sentence subjects) (sentence_generations, sentences_assigned)
          (enumerate sentence_structures) in
  (generations, forallb (λ sentence, negb (bool_decide (sentence = Some false))) assigned).

Definition _work_remaining (sentence_generations : Board) : nat :=
  foldl (λ work_left sentence,
           foldl (λ work_left' word,
                    match word with None => work_left' + 1 | Some _ => work_left' end)
                 work_left sentence)
        0 sentence_generations.

(** The two scans of a sentence in [_generate_words]: the walk keeps the
    last blank seen and stops at the first filled slot within the window of
    it.  The result is [blank_idx] and [project_idx]. *)
Fixpoint scan (ws : list (nat * option MarkovWord)) (blank_idx : option nat)
  : option nat * list nat :=
  match ws with
  | [] => (blank_idx, [])
  | (word_idx, None) :: ws' => scan ws' (Some word_idx)
  | (word_idx, Some _) :: ws' =>
      match blank_idx with
      | Some b =>
          if decide (Z.abs (Z.of_nat b - Z.of_nat word_idx) ≤ Z.of_nat MARKOV_WINDOW_SIZE)%Z
          then (blank_idx, [word_idx])
          else scan ws' blank_idx
      | None => scan ws' blank_idx
      end
  end.

(** [handle_projections]; the state is the generator of random numbers and
    the board, [None] is an exception. *)
Definition handle_projections (h : Heap) (db : TrieNode)
    (sentence_structures : list (list PosEnum))
    (sentence_idx sentence_length : nat) (blank_idx : option nat) (project_idx : list nat)
    (st : RandomState * Board) : option (RandomState * Board) :=
  match blank_idx, project_idx with
  | Some blank_idx, _ :: _ =>
      blank_pos ← sentence_structures !! sentence_idx ≫= (.!! blank_idx);
      projections ←
        mapM (λ word_idx,
                projecting_word ← mjoin (st.2 !! sentence_idx ≫= (.!! word_idx));
                Some (project h projecting_word word_idx sentence_length blank_pos))
             project_idx;
      let projection_collection := MarkovWordProjectionCollection projections in
      if decide (length (keys projection_collection) = 0) then Some st
      else
        let all_p_values := probability_matrix projection_collection in
        p_values ← mapM (.!! blank_idx) all_p_values;
        '(word_choice_idx, g) ← np_random_choice st.1 p_values;
        select_word ← keys projection_collection !! word_choice_idx;
        let word := select db select_word in
        Some (g, set2 sentence_idx blank_idx word st.2)
  | _, _ => Some st
  end.

(** the body of the loop over the sentences *)
Definition fill_sentence (h : Heap) (db : TrieNode)
    (sentence_structures : list (list PosEnum))
    (st : RandomState * Board) (sentence_idx : nat) : option (RandomState * Board) :=
  sentence ← st.2 !! sentence_idx;
  let sentence_length := length sentence in
  let '(blank_idx, project_idx) := scan (enumerate sentence) None in
  st1 ← handle_projections h db sentence_structures sentence_idx sentence_length
                           blank_idx project_idx st;
  sentence1 ← st1.2 !! sentence_idx;
  let '(blank_idx, project_idx) := scan (enumerate_reversed sentence1) None in
  handle_projections h db sentence_structures sentence_idx sentence_length
                     blank_idx project_idx st1.

(** What a call can end in: a returned value ([None] or the board), an
    exception, or, for the model only, the end of the fuel.  [iterations]
    counts the passes of the [while True] loop. *)
Inductive Outcome :=
| Returned (result : option Board) (iterations : nat)
| Raised
| OutOfFuel.

Fixpoint generate_loop (fuel : nat) (h : Heap) (db : TrieNode)
    (sentence_structures : list (list PosEnum))
    (st : RandomState * Board) (old_work_left iterations : nat) : Outcome :=
  match fuel with
  | 0 => OutOfFuel
  | S fuel' =>
      match foldM (fill_sentence h db sentence_structures) st (seq 0 (length st.2)) with
      | None => Raised
      | Some st' =>
          let new_work_left := _work_remaining st'.2 in
          if decide (old_work_left = new_work_left) then Returned None (S iterations)
          else if decide (new_work_left = 0) then Returned (Some st'.2) (S iterations)
          else generate_loop fuel' h db sentence_structures st' new_work_left (S iterations)
      end
  end.

Definition _generate_words (fuel : nat) (h : Heap) (db : TrieNode)
    (sentence_structures : list (list PosEnum)) (st : RandomState * Board) : Outcome :=
  generate_loop fuel h db sentence_structures st (_work_remaining st.2) 0.

(** [MarkovGenerator(structure, subjects).generate(db)] *)
Definition generate (fuel : nat) (h : Heap) (db : TrieNode) (g : RandomState)
    (structure : list PosEnum) (subjects : list MarkovWord) : Outcome :=
  let '(sentence_structures, sentence_generations) := _split_sentences structure in
  let subjects := _sort_subjects subjects in
  let '(sentence_generations, assigned) :=
    _assign_subjects subjects sentence_structures sentence_generations in
  if negb assigned then Returned None 0
  else _generate_words fuel h db sentence_structures (g, sentence_generations).

(** the number of blank slots when the fill loop starts *)
Definition initial_work (structure : list PosEnum) (subjects : list MarkovWord) : nat :=
  let '(sentence_structures, sentence_generations) := _split_sentences structure in
  _work_remaining
    (_assign_subjects (_sort_subjects subjects) sentence_structures sentence_generations).1.

#[global] Instance MarkovWord_eq_dec : EqDecision MarkovWord.
Proof. solve_decision. Defined.

(** how often a word stands on the board, and in how many sentences *)
Definition placements (w : MarkovWord) (b : Board) : nat :=
  length (filter (λ slot, slot = Some w) (concat b)).

Definition sentences_holding (w : MarkovWord) (b : Board) : nat :=
  length (filter (λ sentence, Some w ∈ sentence) b).

(** the first subject, in the order of the list, with a given pos *)
Definition first_subject (subjects : list MarkovWord) (p : PosEnum) : option MarkovWord :=
  head (filter (λ subject, pos subject = p) subjects).

(** the blank slots of a sentence and of a board *)
Fixpoint blanks_row (sentence : list (option MarkovWord)) : nat :=
  match sentence with
  | [] => 0
  | None :: sentence' => S (blanks_row sentence')
  | Some _ :: sentence' => blanks_row sentence'
  end.

Fixpoint blanks (b : Board) : nat :=
  match b with
  | [] => 0
  | sentence :: b' => blanks_row sentence + blanks b'
  end.

(** A word agrees with the store when each of its neighbor records carries
    the pos of the word that the store returns for the record's key. *)
Definition word_consistentb (h : Heap) (db : TrieNode) (w : MarkovWord) : bool :=
  forallb (λ kv : string * NeighborRow,
             match select db kv.1 with
             | Some w' => bool_decide (pos w' = POS kv.2)
             | None => true
             end)
          (heap_get h (neighbors w)).

(** training on a sequence of documents, one [learn] call each *)
Definition learn_docs (db : Heap * TrieNode) (docs : list (list (list Token)))
  : option (Heap * TrieNode) :=
  foldM learn db docs.

(** the invariants of a neighbor record (data model of the specification) *)
Definition neighbor_ok (row : NeighborRow) : Prop :=
  length (DISTANCE_MATRIX row) = 2 * MARKOV_WINDOW_SIZE + 1 ∧
  DISTANCE_MATRIX row !! MARKOV_WINDOW_SIZE = Some 0%Z ∧
  Forall (λ v, (0 ≤ v)%Z) (DISTANCE_MATRIX row) ∧
  COUNT (VALUE_MATRIX row) = sum_list (DISTANCE_MATRIX row).

Definition heap_ok (h : Heap) : Prop :=
  Forall (Forall (λ kv : string * NeighborRow, neighbor_ok kv.2)) h.

(** what stays true of a record however often a pair is observed: the
    length of the histogram, its middle entry, and a count that is not
    negative (the count is a Python integer, it does not wrap around) *)
Definition neighbor_shape (row : NeighborRow) : Prop :=
  length (DISTANCE_MATRIX row) = 2 * MARKOV_WINDOW_SIZE + 1 ∧
  DISTANCE_MATRIX row !! MARKOV_WINDOW_SIZE = Some 0%Z ∧
  (0 ≤ COUNT (VALUE_MATRIX row))%Z.

(** a record with the invariants that was observed at most [n] times *)
Definition neighbor_counted (n : Z) (row : NeighborRow) : Prop :=
  neighbor_ok row ∧ (COUNT (VALUE_MATRIX row) ≤ n)%Z.

(** the offsets that [ngramify] lets through *)
Definition ngram_in_window (g : Ngram) : Prop :=
  g.2 ≠ 0%Z ∧ (Z.abs g.2 ≤ Z.of_nat MARKOV_WINDOW_SIZE)%Z.

(** ** Properties *)

(** *** Dictionaries and enumeration *)

Lemma dict_get_set_eq {Key Val} `{EqDecision Key} (k : Key) (v : Val) d :
  dict_get k (dict_set k v d) = Some v.
Proof.
  induction d as [|[k' v'] d IH]; simpl.
  - by rewrite decide_True.
  - destruct (decide (k' = k)) as [->|Hne]; simpl.
    + by rewrite decide_True.
    + by rewrite decide_False.
Qed.

Lemma dict_get_set_ne {Key Val} `{EqDecision Key} (k k' : Key) (v : Val) d :
  k ≠ k' → dict_get k' (dict_set k v d) = dict_get k' d.
Proof.
  intros Hne. induction d as [|[k0 v0] d IH]; simpl.
  - by rewrite decide_False.
  - destruct (decide (k0 = k)) as [->|Hne0]; simpl.
    + by rewrite !decide_False.
    + destruct (decide (k0 = k')); [done | apply IH].
Qed.

Lemma dict_get_Some_elem {Key Val} `{EqDecision Key} (k : Key) (v : Val) d :
  dict_get k d = Some v → (k, v) ∈ d.
Proof.
  induction d as [|[k' v'] d IH]; simpl; [done|].
  destruct (decide (k' = k)) as [->|Hne].
  - intros [= ->]. apply list_elem_of_here.
  - intros Hget. apply list_elem_of_further, IH, Hget.
Qed.

(** every entry of an updated dictionary is the new one or an old one *)
Lemma dict_set_elem {Key Val} `{EqDecision Key} (k k' : Key) (v v' : Val) d :
  (k', v') ∈ dict_set k v d → (k' = k ∧ v' = v) ∨ (k', v') ∈ d.
Proof.
  induction d as [|[k0 v0] d IH]; simpl.
  - intros Hin. apply list_elem_of_singleton in Hin. left. by simplify_eq.
  - destruct (decide (k0 = k)) as [->|Hne]; intros Hin;
      apply elem_of_cons in Hin as [Heq|Hin].
    + left. by simplify_eq.
    + right. by apply list_elem_of_further.
    + right. rewrite Heq. apply list_elem_of_here.
    + destruct (IH Hin) as [?|?]; [by left|right].
      by apply list_elem_of_further.
Qed.

Lemma enumerate_from_app {A} (l1 l2 : list A) i :
  enumerate_from i (l1 ++ l2) = enumerate_from i l1 ++ enumerate_from (i + length l1) l2.
Proof.
  revert i. induction l1 as [|x l1 IH]; intros i; simpl.
  - by rewrite Nat.add_0_r.
  - rewrite IH. do 3 f_equal. lia.
Qed.

Lemma enumerate_from_elem {A} (l : list A) i j x :
  (j, x) ∈ enumerate_from i l → i ≤ j < i + length l ∧ l !! (j - i) = Some x.
Proof.
  revert i. induction l as [|y l IH]; intros i; simpl.
  - intros Hin. by apply not_elem_of_nil in Hin.
  - intros Hin. apply elem_of_cons in Hin as [Heq|Hin].
    + simplify_eq. split; [lia|]. by rewrite Nat.sub_diag.
    + apply IH in Hin as [Hr Hl]. split; [lia|].
      replace (j - i) with (S (j - S i)) by lia. done.
Qed.

(** *** The trie on the empty text (claim C7) *)

Lemma select_empty_text (trie : TrieNode) : select trie "" = None.
Proof. reflexivity. Qed.

Lemma update_empty_text (trie : TrieNode) (p : PosEnum) (nbrs : loc) :
  update trie {| text := ""; pos := p; neighbors := nbrs |} = (trie, None).
Proof. reflexivity. Qed.

(** C7 (the code differs): on the empty text [select] and [update] return
    [None] and leave the trie alone, but [insert] has no guard: it writes
    the payload into the root node and returns the word. *)
Theorem insert_empty_text_writes_root (trie : TrieNode) (p : PosEnum) (nbrs : loc) :
  select trie "" = None ∧
  update trie {| text := ""; pos := p; neighbors := nbrs |} = (trie, None) ∧
  insert trie {| text := ""; pos := p; neighbors := nbrs |}
  = (Node (Some {| text := ""; pos := p; neighbors := nbrs |}) (node_children trie),
     Some {| text := ""; pos := p; neighbors := nbrs |}).
Proof. repeat split. Qed.

(** *** Splitting the skeleton *)

Lemma split_no_EOS structure (l : list PosEnum) i st :
  EOS ∉ l → foldl (split_step structure) st (enumerate_from i l) = st.
Proof.
  revert i st. induction l as [|p l IH]; intros i st Hno; simpl; [done|].
  rewrite not_elem_of_cons in Hno. destruct Hno as [Hp Hl].
  destruct st as [[start ss] sg]. simpl.
  rewrite decide_False by congruence. by apply IH.
Qed.

(** the slot arrays made by the split have the shape of the sentences *)
Lemma split_shape_from structure (l : list PosEnum) i start ss sg :
  sg = map (λ sentence : list PosEnum, replicate (length sentence) None) ss →
  let '(_, ss', sg') := foldl (split_step structure) (start, ss, sg) (enumerate_from i l) in
  sg' = map (λ sentence : list PosEnum, replicate (length sentence) None) ss'.
Proof.
  revert i start ss sg. induction l as [|p l IH]; intros i start ss sg Hsg; simpl; [done|].
  destruct (decide (p = EOS)); [|by apply IH].
  apply IH. rewrite map_app. simpl. by rewrite Hsg.
Qed.

Lemma split_shape structure :
  (_split_sentences structure).2
  = map (λ sentence : list PosEnum, replicate (length sentence) None)
        (_split_sentences structure).1.
Proof.
  unfold _split_sentences, enumerate.
  pose proof (split_shape_from structure structure 0 0 [] [] eq_refl) as Hs.
  destruct (foldl _ _ _) as [[? ss] sg]. done.
Qed.

(** *** Assigning the subjects *)

Lemma assign_slot_first subjects s i p (st : Board * list (option bool)) :
  assign_slot subjects s i p st
  = match first_subject subjects p with
    | Some subject => (set2 s i (Some subject) st.1, <[s := Some true]> st.2)
    | None => st
    end.
Proof.
  unfold first_subject. induction subjects as [|w subjects IH]; simpl; [done|].
  rewrite filter_cons. destruct (decide (pos w = p)); simpl; [done|]. apply IH.
Qed.

(** the flags of [sentences_assigned] are never [False] *)
Lemma assign_slot_flags subjects s i p (st : Board * list (option bool)) :
  Forall (λ flag, flag ≠ Some false) st.2 →
  Forall (λ flag, flag ≠ Some false) (assign_slot subjects s i p st).2.
Proof.
  intros Hst. rewrite assign_slot_first. destruct (first_subject subjects p); simpl; [|done].
  apply Forall_insert; done.
Qed.

Lemma assign_sentence_flags subjects (st : Board * list (option bool)) e :
  Forall (λ flag, flag ≠ Some false) st.2 →
  Forall (λ flag, flag ≠ Some false) (assign_sentence subjects st e).2.
Proof.
  unfold assign_sentence. generalize (enumerate e.2). intros l. revert st.
  induction l as [|e' l IH]; intros st Hst; simpl; [done|].
  apply IH. by apply assign_slot_flags.
Qed.

(** [_assign_subjects] returns [True] whatever it is given: the final loop
    looks for [False] among flags that are [None] or [True]. *)
Lemma assign_subjects_returns_true subjects ss sg :
  (_assign_subjects subjects ss sg).2 = true.
Proof.
  unfold _assign_subjects.
  assert (Hgen : ∀ l (st : Board * list (option bool)),
             Forall (λ flag, flag ≠ Some false) st.2 →
             Forall (λ flag, flag ≠ Some false)
                    (foldl (assign_sentence subjects) st l).2).
  { induction l as [|e l IH]; intros st Hst; simpl; [done|].
    apply IH. by apply assign_sentence_flags. }
  specialize (Hgen (enumerate ss)
                   (sg, replicate (length ss) (None : option bool))).
  destruct (foldl _ _ _) as [generations assigned]. simpl in *.
  apply forallb_forall. intros flag Hin.
  assert (Hflags : Forall (λ flag, flag ≠ Some false) assigned).
  { apply Hgen. apply Forall_replicate. done. }
  rewrite Forall_forall in Hflags. apply list_elem_of_In in Hin.
  specialize (Hflags flag Hin). by rewrite bool_decide_eq_false_2.
Qed.

Lemma set2_lookup {A} (m : list (list A)) s i v row :
  m !! s = Some row → set2 s i v m = <[s := <[i := v]> row]> m.
Proof. intros Hm. unfold set2. by rewrite Hm. Qed.

(** one sentence: the slots from [i] on, all blank, receive the first
    matching subject *)
Lemma assign_sentence_from subjects s (sentence : list PosEnum) :
  ∀ i filled (st : Board * list (option bool)),
    length filled = i →
    st.1 !! s = Some (filled ++ replicate (length sentence) None) →
    (foldl (λ st' e', assign_slot subjects s (fst e') (snd e') st') st
           (enumerate_from i sentence)).1
    = <[s := filled ++ map (first_subject subjects) sentence]> st.1.
Proof.
  induction sentence as [|p sentence IH]; intros i filled st Hlen Hrow; simpl.
  - simpl in Hrow. symmetry. by apply list_insert_id.
  - rewrite assign_slot_first.
    assert (Hcons : ∀ x : option MarkovWord,
               filled ++ x :: map (first_subject subjects) sentence
               = (filled ++ [x]) ++ map (first_subject subjects) sentence).
    { intros x. by rewrite <- app_assoc. }
    destruct (first_subject subjects p) as [subject|] eqn:Hfirst.
    + rewrite (IH (S i) (filled ++ [Some subject])); simpl.
      * rewrite (set2_lookup _ _ _ _ _ Hrow), list_insert_insert_eq.
        by rewrite Hcons.
      * rewrite length_app. simpl. lia.
      * rewrite (set2_lookup _ _ _ _ _ Hrow).
        rewrite list_lookup_insert_eq by (by eapply lookup_lt_Some).
        f_equal. simpl. rewrite <- Hlen.
        rewrite insert_app_r_alt by lia. rewrite Nat.sub_diag. simpl.
        by rewrite <- app_assoc.
    + rewrite (IH (S i) (filled ++ [None])); simpl.
      * by rewrite Hcons.
      * rewrite length_app. simpl. lia.
      * rewrite Hrow. f_equal. by rewrite <- app_assoc.
Qed.

Lemma assign_sentences_from subjects (ss : list (list PosEnum)) :
  ∀ k done (st : Board * list (option bool)),
    length done = k →
    st.1 = done ++ map (λ sentence : list PosEnum, replicate (length sentence) None) ss →
    (foldl (assign_sentence subjects) st (enumerate_from k ss)).1
    = done ++ map (map (first_subject subjects)) ss.
Proof.
  induction ss as [|sentence ss IH]; intros k done st Hlen Hst; simpl.
  - simpl in Hst. done.
  - assert (Hrow : st.1 !! k = Some ([] ++ replicate (length sentence) None)).
    { rewrite Hst. rewrite lookup_app_r by lia.
      replace (k - length done) with 0 by lia. done. }
    pose proof (assign_sentence_from subjects k sentence 0 [] st eq_refl Hrow) as Hone.
    rewrite (IH (S k) (done ++ [map (first_subject subjects) sentence])).
    + by rewrite <- app_assoc.
    + rewrite length_app. simpl. lia.
    + unfold assign_sentence. simpl. unfold enumerate. rewrite Hone. simpl.
      rewrite Hst. rewrite <- Hlen.
      rewrite insert_app_r_alt by lia. rewrite Nat.sub_diag. simpl.
      by rewrite <- app_assoc.
Qed.

(** the board after the assignment, sentence by sentence *)
Lemma assign_subjects_board structure subjects :
  (_assign_subjects (_sort_subjects subjects)
                    (_split_sentences structure).1 (_split_sentences structure).2).1
  = map (map (first_subject (_sort_subjects subjects))) (_split_sentences structure).1.
Proof.
  rewrite split_shape. unfold _assign_subjects.
  pose proof (assign_sentences_from (_sort_subjects subjects) (_split_sentences structure).1
                0 []
                (map (λ sentence : list PosEnum, replicate (length sentence) None)
                     (_split_sentences structure).1,
                 replicate (length (_split_sentences structure).1) None)
                eq_refl eq_refl) as Hall.
  unfold enumerate. destruct (foldl _ _ _) as [generations assigned]. done.
Qed.

(** *** The projection (claim C2) *)

(** [project_dist] only touches row [neighbor_idx], where it does this: *)
Definition row_step (idx_in_sentence sentence_length : nat) (row : list Float)
    (e : nat * Z) : list Float :=
  let dist_space_index :=
    ((Z.of_nat e.1 - Z.of_nat MARKOV_WINDOW_SIZE) + Z.of_nat idx_in_sentence)%Z in
  if decide (0 ≤ dist_space_index ∧ dist_space_index < Z.of_nat sentence_length)%Z
  then <[Z.to_nat dist_space_index := float_of_int e.2]> row
  else row.

Lemma row_step_length i L row e : length (row_step i L row e) = length row.
Proof. unfold row_step. case_decide; [apply length_insert | done]. Qed.

Lemma foldl_row_step_length i L l row :
  length (foldl (row_step i L) row l) = length row.
Proof.
  revert row. induction l as [|e l IH]; intros row; simpl; [done|].
  by rewrite IH, row_step_length.
Qed.

Lemma project_dist_row i L k (l : list (nat * Z)) :
  ∀ (D : list (list Float)) row,
    D !! k = Some row →
    foldl (project_dist i L k) D l = <[k := foldl (row_step i L) row l]> D.
Proof.
  induction l as [|[j v] l IH]; intros D row HD; cbn [foldl].
  - symmetry. by apply list_insert_id.
  - assert (Hstep : project_dist i L k D (j, v) = <[k := row_step i L row (j, v)]> D).
    { unfold project_dist, row_step. simpl. case_decide.
      - by apply set2_lookup.
      - symmetry. by apply list_insert_id. }
    rewrite Hstep. erewrite IH; [by rewrite list_insert_insert_eq|].
    apply list_lookup_insert_eq. by eapply lookup_lt_Some.
Qed.


(** the loop over the neighbors, started after [k] of them *)
Lemma project_neighbors_from i L (nbrs : list MarkovNeighbor) :
  ∀ k acc Ddone Mdone,
    length Ddone = k → length Mdone = k →
    distances acc = Ddone ++ replicate (length nbrs) (replicate L float_zero) →
    magnitudes acc = Mdone ++ replicate (length nbrs) [float_zero] →
    let P := foldl (project_neighbor i L) acc (enumerate_from k nbrs) in
    distances P
    = Ddone ++ map (λ n, foldl (row_step i L) (replicate L float_zero)
                               (enumerate (nb_dist n))) nbrs ∧
    magnitudes P = Mdone ++ map (λ n, [neighbor_magnitude n]) nbrs ∧
    keys P = keys acc ++ map nb_text nbrs ∧
    proj_pos P = proj_pos acc ++ map nb_pos nbrs.
Proof.
  induction nbrs as [|n nbrs IH]; intros k acc Ddone Mdone HD HM HaccD HaccM; simpl.
  - simpl in *. by rewrite !app_nil_r in *.
  - simpl in HaccD, HaccM.
    assert (HrowD : distances acc !! k = Some (replicate L float_zero)).
    { rewrite HaccD, lookup_app_r by lia. by replace (k - length Ddone) with 0 by lia. }
    edestruct (IH (S k) (project_neighbor i L acc (k, n))
                 (Ddone ++ [foldl (row_step i L) (replicate L float_zero)
                                  (enumerate (nb_dist n))])
                 (Mdone ++ [[neighbor_magnitude n]])) as (HD' & HM' & Hk' & Hp').
    + rewrite length_app. simpl. lia.
    + rewrite length_app. simpl. lia.
    + simpl. rewrite (project_dist_row _ _ _ _ _ _ HrowD), HaccD, <- HD.
      rewrite insert_app_r_alt by lia. rewrite Nat.sub_diag. simpl.
      by rewrite <- app_assoc.
    + simpl. rewrite HaccM, <- HM.
      rewrite insert_app_r_alt by lia. rewrite Nat.sub_diag. simpl.
      by rewrite <- app_assoc.
    + simpl in *. rewrite HD', HM', Hk', Hp'. by rewrite <- !app_assoc.
Qed.

Lemma project_rows h w i L p :
  let N := select_neighbors h w p in
  let P := project h w i L p in
  distances P
  = map (λ n, foldl (row_step i L) (replicate L float_zero) (enumerate (nb_dist n))) N ∧
  magnitudes P = map (λ n, [neighbor_magnitude n]) N ∧
  keys P = map nb_text N ∧
  proj_pos P = map nb_pos N.
Proof.
  intros N P. subst P. unfold project, enumerate. fold N.
  pose proof (project_neighbors_from i L N 0
                {| keys := []; proj_pos := [];
                   distances := replicate (length N) (replicate L float_zero);
                   magnitudes := replicate (length N) [float_zero] |}
                [] [] eq_refl eq_refl eq_refl eq_refl) as Hrows.
  simpl in Hrows. exact Hrows.
Qed.

(** the neighbors that [select_neighbors] returns have the pos asked for *)
Lemma select_neighbors_pos h w p :
  Forall (λ n, nb_pos n = p) (select_neighbors h w p).
Proof.
  unfold select_neighbors. generalize (dict_keys (heap_get h (neighbors w))). intros l.
  induction l as [|key l IH]; simpl; [constructor|].
  destruct (get_neighbor h w key) as [n|]; simpl; [|done].
  case_decide; simpl; [by constructor | done].
Qed.

Lemma dict_get_keys {Key Val} `{EqDecision Key} (k : Key) (v : Val) d :
  dict_get k d = Some v → k ∈ dict_keys d.
Proof.
  intros Hget. apply dict_get_Some_elem in Hget.
  unfold dict_keys. change (map ?f ?l) with (f <$> l).
  apply list_elem_of_fmap. by exists (k, v).
Qed.

(** the neighbors that [select_neighbors] returns are exactly those that
    [get_neighbor] finds under their own text and that have the pos *)
Lemma select_neighbors_iff h (w : MarkovWord) (p : PosEnum) (n : MarkovNeighbor) :
  n ∈ select_neighbors h w p ↔
  get_neighbor h w (nb_text n) = Some n ∧ nb_pos n = p.
Proof.
  unfold select_neighbors. rewrite list_elem_of_omap. split.
  - intros (key & _ & Hget).
    destruct (get_neighbor h w key) as [n'|] eqn:Hn; [|done].
    case_decide as Hp; [|done]. simplify_eq.
    assert (Hkey : nb_text n = key).
    { unfold get_neighbor in Hn. destruct (dict_get key _); by simplify_eq. }
    by rewrite Hkey.
  - intros [Hget Hp]. exists (nb_text n). split.
    + unfold get_neighbor in Hget.
      destruct (dict_get (nb_text n) (heap_get h (neighbors w))) as [row|] eqn:Hrow;
        [|done].
      by eapply dict_get_keys.
    + rewrite Hget. by rewrite decide_True.
Qed.


(** *** The fill loop *)

Lemma work_remaining_row (sentence : list (option MarkovWord)) a :
  foldl (λ work_left' word,
           match word with None => work_left' + 1 | Some _ => work_left' end) a sentence
  = a + blanks_row sentence.
Proof.
  revert a. induction sentence as [|[w|] sentence IH]; intros a; simpl.
  - lia.
  - apply IH.
  - rewrite IH. lia.
Qed.

Lemma work_remaining_blanks (b : Board) : _work_remaining b = blanks b.
Proof.
  unfold _work_remaining.
  enough (Hgen : ∀ a, foldl (λ work_left sentence,
             foldl (λ work_left' (word : option MarkovWord),
                      match word with None => work_left' + 1 | Some _ => work_left' end)
                   work_left sentence) a b = a + blanks b) by apply Hgen.
  induction b as [|sentence b IH]; intros a; simpl; [lia|].
  rewrite IH, work_remaining_row. lia.
Qed.

Lemma blanks_row_insert (sentence : list (option MarkovWord)) i word :
  sentence !! i = Some None →
  blanks_row (<[i := word]> sentence) ≤ blanks_row sentence.
Proof.
  revert i. induction sentence as [|[w|] sentence IH]; intros [|i] Hi; simpl in *;
    try done.
  - by apply IH.
  - destruct word; simpl; lia.
  - apply le_n_S. by apply IH.
Qed.

Lemma blanks_insert (b : Board) s sentence sentence' :
  b !! s = Some sentence → blanks_row sentence' ≤ blanks_row sentence →
  blanks (<[s := sentence']> b) ≤ blanks b.
Proof.
  revert s. induction b as [|r b IH]; intros [|s] Hs Hle; simpl in *; try done.
  - simplify_eq. lia.
  - specialize (IH s Hs Hle). lia.
Qed.

(** filling a blank slot never adds a blank *)
Lemma blanks_set2 (b : Board) s i sentence word :
  b !! s = Some sentence → sentence !! i = Some None →
  blanks (set2 s i word b) ≤ blanks b.
Proof.
  intros Hs Hi. rewrite (set2_lookup _ _ _ _ _ Hs).
  eapply blanks_insert; [done|]. by apply blanks_row_insert.
Qed.

Lemma blanks_row_zero (sentence : list (option MarkovWord)) :
  blanks_row sentence = 0 → Forall (λ slot, is_Some slot) sentence.
Proof.
  induction sentence as [|[w|] sentence IH]; simpl; intros Hz.
  - constructor.
  - constructor; [by eexists | by apply IH].
  - lia.
Qed.

Lemma blanks_zero (b : Board) :
  blanks b = 0 → Forall (Forall (λ slot, is_Some slot)) b.
Proof.
  induction b as [|sentence b IH]; simpl; intros Hz; constructor.
  - apply blanks_row_zero. lia.
  - apply IH. lia.
Qed.

(** the blank that a scan reports is a blank slot that it walked over *)
Lemma scan_blank (ws : list (nat * option MarkovWord)) :
  ∀ b0 b pj, scan ws b0 = (Some b, pj) → b0 = Some b ∨ (b, None) ∈ ws.
Proof.
  induction ws as [|[i [w|]] ws IH]; intros b0 b pj Hscan; simpl in Hscan.
  - left. congruence.
  - destruct b0 as [b0|].
    + case_decide.
      * left. congruence.
      * destruct (IH _ _ _ Hscan) as [?|?]; [by left|right].
        by apply list_elem_of_further.
    + destruct (IH _ _ _ Hscan) as [?|?]; [by left|right].
      by apply list_elem_of_further.
  - destruct (IH _ _ _ Hscan) as [Heq|Hin]; right.
    + simplify_eq. apply list_elem_of_here.
    + by apply list_elem_of_further.
Qed.

Lemma enumerate_elem {A} (l : list A) j x : (j, x) ∈ enumerate l → l !! j = Some x.
Proof.
  intros Hin. apply enumerate_from_elem in Hin as [_ Hl].
  by rewrite Nat.sub_0_r in Hl.
Qed.

Lemma enumerate_reversed_elem {A} (l : list A) j x :
  (j, x) ∈ enumerate_reversed l → l !! j = Some x.
Proof.
  unfold enumerate_reversed. intros Hin.
  change (map ?f ?k) with (f <$> k) in Hin.
  apply list_elem_of_fmap in Hin as ([i y] & Heq & Hin). simpl in Heq. simplify_eq.
  apply enumerate_elem in Hin. apply reverse_lookup_Some in Hin as [Hl Hi].
  by replace (length l - 1 - i) with (length l - S i) by lia.
Qed.

(** the keys of a collection are keys of its projections *)
Lemma collection_keys_from (ps : list MarkovWordProjection) :
  ∀ i acc, keys (foldl concat_step acc (enumerate_from i ps))
           = keys acc ++ concat (map keys ps).
Proof.
  induction ps as [|p ps IH]; intros i acc; simpl.
  - by rewrite app_nil_r.
  - rewrite IH. simpl. by rewrite <- app_assoc.
Qed.

Lemma collection_keys (ps : list MarkovWordProjection) :
  keys (MarkovWordProjectionCollection ps) = concat (map keys ps).
Proof. unfold MarkovWordProjectionCollection, enumerate. by rewrite collection_keys_from. Qed.

(** a key of a projection is the key of a record of the projecting word
    that has the pos asked for *)
Lemma project_key h w i L p key :
  key ∈ keys (project h w i L p) →
  ∃ row, (key, row) ∈ heap_get h (neighbors w) ∧ POS row = p.
Proof.
  destruct (project_rows h w i L p) as (_ & _ & Hkeys & _). rewrite Hkeys.
  change (map ?f ?k) with (f <$> k).
  intros Hin. apply list_elem_of_fmap in Hin as (n & -> & Hn).
  unfold select_neighbors in Hn.
  apply list_elem_of_omap in Hn as (key & _ & Hget).
  unfold get_neighbor in Hget.
  destruct (dict_get key (heap_get h (neighbors w))) as [row|] eqn:Hrow; [|done].
  case_decide as Hpos; [|done]. simplify_eq. simpl in *.
  exists row. split; [by apply dict_get_Some_elem | done].
Qed.

(** What [handle_projections] does to the board: nothing, or it writes into
    the blank slot the word that the store returns for the key of a record,
    with the pos of the slot, of a word that stands in the sentence. *)
Lemma handle_projections_spec h db ss s L blank pj st st' :
  handle_projections h db ss s L blank pj st = Some st' →
  st'.2 = st.2 ∨
  ∃ b blank_pos j w key row,
    blank = Some b ∧
    ss !! s ≫= (.!! b) = Some blank_pos ∧
    st.2 !! s ≫= (.!! j) = Some (Some w) ∧
    (key, row) ∈ heap_get h (neighbors w) ∧ POS row = blank_pos ∧
    st'.2 = set2 s b (select db key) st.2.
Proof.
  unfold handle_projections. intros Hh.
  destruct blank as [b|]; [|left; congruence].
  destruct pj as [|j0 pj]; [left; congruence|].
  apply bind_Some in Hh as (blank_pos & Hpos & Hh).
  apply bind_Some in Hh as (projections & Hproj & Hh).
  case_decide as Hempty; [left; congruence|].
  apply bind_Some in Hh as (p_values & _ & Hh).
  apply bind_Some in Hh as ([word_choice_idx g] & _ & Hh).
  apply bind_Some in Hh as (key & Hkey & Hh).
  simplify_eq. right.
  apply list_elem_of_lookup_2 in Hkey. rewrite collection_keys in Hkey.
  apply list_elem_of_In, in_concat in Hkey as (ks & Hks & Hkey).
  apply in_map_iff in Hks as (projection & <- & Hin).
  apply list_elem_of_In in Hin. apply list_elem_of_In in Hkey.
  apply mapM_Some_1 in Hproj.
  apply list_elem_of_lookup_1 in Hin as [k Hk].
  destruct (Forall2_lookup_r _ _ _ _ _ Hproj Hk) as (j & _ & Hj).
  destruct (mjoin (st.2 !! s ≫= (.!! j))) as [w|] eqn:Hw; simpl in Hj; [|done].
  simplify_eq.
  destruct (project_key _ _ _ _ _ _ Hkey) as (row & Hrow & Hrpos).
  exists b, (POS row), j, w, key, row. repeat split; try done.
  - by rewrite Hrpos.
  - destruct (st.2 !! s ≫= (.!! j)) as [[w'|]|]; simpl in Hw; by simplify_eq.
Qed.

Lemma lookup2_Some {A} (m : list (list A)) s i x :
  m !! s ≫= (.!! i) = Some x ↔ ∃ row, m !! s = Some row ∧ row !! i = Some x.
Proof.
  destruct (m !! s) as [row|]; simpl.
  - split; [by exists row | by intros (? & [= <-] & ?)].
  - split; [done | by intros (? & ? & ?)].
Qed.

(** A property of boards that holds whenever a blank slot of the board is
    given a word that [handle_projections] can give it, holds after one
    pass over a sentence, one pass over the board, and at the end of the
    loop. *)
Section FillInvariant.

Variables (h : list (list (string * NeighborRow))) (db : TrieNode).
Variable ss : list (list PosEnum).
Variable Inv : list (list (option MarkovWord)) → Prop.

Hypothesis Inv_fill : ∀ (b : list (list (option MarkovWord)))
    s sentence i blank_pos j w key row,
  Inv b →
  b !! s = Some sentence → sentence !! i = Some None →
  ss !! s ≫= (.!! i) = Some blank_pos →
  b !! s ≫= (.!! j) = Some (Some w) →
  (key, row) ∈ heap_get h (neighbors w) → POS row = blank_pos →
  Inv (set2 s i (select db key) b).

Lemma handle_projections_inv s L sentence blank pj st st' :
  Inv st.2 →
  st.2 !! s = Some sentence →
  (∀ b, blank = Some b → sentence !! b = Some None) →
  handle_projections h db ss s L blank pj st = Some st' →
  Inv st'.2.
Proof.
  intros HI Hs Hblank Hh.
  apply handle_projections_spec in Hh
    as [->|(b & blank_pos & j & w & key & row & -> & Hpos & Hw & Hrow & Hrpos & ->)];
    [done|].
  eapply Inv_fill; eauto.
Qed.

Lemma fill_sentence_inv st s st' :
  Inv st.2 → fill_sentence h db ss st s = Some st' → Inv st'.2.
Proof.
  unfold fill_sentence. intros HI Hf.
  apply bind_Some in Hf as (sentence & Hs & Hf).
  destruct (scan (enumerate sentence) None) as [blank pj] eqn:Hscan.
  apply bind_Some in Hf as (st1 & H1 & Hf).
  assert (HI1 : Inv st1.2).
  { eapply handle_projections_inv; [done..| |done].
    intros b ->. apply scan_blank in Hscan as [?|Hin]; [done|].
    by apply enumerate_elem. }
  apply bind_Some in Hf as (sentence1 & Hs1 & Hf).
  destruct (scan (enumerate_reversed sentence1) None) as [blank' pj'] eqn:Hscan'.
  eapply handle_projections_inv; [done..| |done].
  intros b ->. apply scan_blank in Hscan' as [?|Hin]; [done|].
  by apply enumerate_reversed_elem.
Qed.

Lemma fill_pass_inv (l : list nat) st st' :
  Inv st.2 → foldM (fill_sentence h db ss) st l = Some st' → Inv st'.2.
Proof.
  revert st. induction l as [|s l IH]; intros st HI Hf; simpl in Hf.
  - by simplify_eq.
  - destruct (fill_sentence h db ss st s) as [st1|] eqn:H1; [|done].
    eapply IH; [|done]. by eapply fill_sentence_inv.
Qed.

Lemma generate_loop_inv fuel st old iters board n :
  Inv st.2 →
  generate_loop fuel h db ss st old iters = Returned (Some board) n →
  Inv board.
Proof.
  revert st old iters. induction fuel as [|fuel IH]; intros st old iters HI Hg;
    simpl in Hg; [done|].
  destruct (foldM _ st _) as [st'|] eqn:Hpass; [|done].
  apply fill_pass_inv in Hpass; [|done].
  case_decide; [done|]. case_decide; [by simplify_eq|].
  by eapply IH.
Qed.

End FillInvariant.

(** one pass over the board never adds a blank *)
Lemma fill_pass_blanks h db ss (l : list nat) st st' :
  foldM (fill_sentence h db ss) st l = Some st' → blanks st'.2 ≤ blanks st.2.
Proof.
  intros Hpass.
  apply (fill_pass_inv h db ss (λ b, blanks b ≤ blanks st.2)) in Hpass; [done| |done].
  intros b s sentence i blank_pos j w key row Hb Hs Hi _ _ _ _.
  etrans; [|exact Hb]. by eapply blanks_set2.
Qed.

(** The loop with enough fuel: it ends, after at most as many passes as
    there were blanks (one pass when there was none), with the board full
    when it returns it. *)
Lemma generate_loop_bounded fuel h db ss :
  ∀ st iters,
    max 1 (blanks st.2) ≤ fuel →
    match generate_loop fuel h db ss st (blanks st.2) iters with
    | Returned (Some board) n => iters < n ≤ iters + blanks st.2 ∧ blanks board = 0
    | Returned None n => iters < n ≤ iters + max 1 (blanks st.2)
    | Raised => True
    | OutOfFuel => False
    end.
Proof.
  induction fuel as [|fuel IH]; intros st iters Hfuel; [lia|]. simpl.
  destruct (foldM _ st _) as [st'|] eqn:Hpass; [|done].
  pose proof (fill_pass_blanks _ _ _ _ _ _ Hpass) as Hle.
  rewrite work_remaining_blanks.
  case_decide as Hsame; [lia|]. case_decide as Hzero; [split; lia|].
  specialize (IH st' (S iters)).
  destruct (generate_loop fuel h db ss st' (blanks st'.2) (S iters)) as [[board|] n| |];
    lia.
Qed.


Lemma generate_loop_full fuel h db ss :
  ∀ st old iters board n,
    generate_loop fuel h db ss st old iters = Returned (Some board) n →
    blanks board = 0.
Proof.
  induction fuel as [|fuel IH]; intros st old iters board n Hg; simpl in Hg; [done|].
  destruct (foldM _ st _) as [st'|]; [|done].
  case_decide; [done|]. case_decide as Hz; [|by eapply IH].
  simplify_eq. by rewrite <- work_remaining_blanks.
Qed.

(** [generate] always reaches the fill loop: the check of
    [_assign_subjects] cannot fail *)
Lemma generate_unfold fuel h db g structure subjects :
  generate fuel h db g structure subjects
  = _generate_words fuel h db (_split_sentences structure).1
      (g, (_assign_subjects (_sort_subjects subjects) (_split_sentences structure).1
                            (_split_sentences structure).2).1).
Proof.
  unfold generate. destruct (_split_sentences structure) as [ss sg]. simpl.
  pose proof (assign_subjects_returns_true (_sort_subjects subjects) ss sg) as Htrue.
  destruct (_assign_subjects (_sort_subjects subjects) ss sg) as [sg' assigned].
  simpl in *. by rewrite Htrue.
Qed.

Lemma initial_work_blanks structure subjects :
  initial_work structure subjects
  = blanks (_assign_subjects (_sort_subjects subjects) (_split_sentences structure).1
                             (_split_sentences structure).2).1.
Proof.
  unfold initial_work. destruct (_split_sentences structure) as [ss sg]. simpl.
  apply work_remaining_blanks.
Qed.


(** *** The pos of the words on the board (claim C5) *)

Lemma Forall2_Forall_r {A B} (P Q : A → B → Prop) (R : B → Prop) l k :
  Forall2 P l k → Forall R k → (∀ x y, P x y → R y → Q x y) → Forall2 Q l k.
Proof.
  intros HP. induction HP as [|x y l k Hxy HP IH]; intros HR HQ; [constructor|].
  inversion HR; subst. constructor; auto.
Qed.

(** what [select] returns is a payload of the trie *)
Lemma walk_trie_words (cs : list ascii) :
  ∀ (node node' : TrieNode) w,
    walk cs node = Some node' → node_payload node' = Some w → w ∈ trie_words node.
Proof.
  induction cs as [|c cs IH]; intros node node' w Hwalk Hw; simpl in Hwalk.
  - simplify_eq. destruct node' as [p ch]. simpl in *. subst p.
    simpl. apply list_elem_of_here.
  - destruct (dict_get (lower c) (node_children node)) as [child|] eqn:Hc; [|done].
    specialize (IH _ _ _ Hwalk Hw). apply dict_get_Some_elem in Hc.
    destruct node as [p ch]. simpl in *.
    apply elem_of_app. right.
    apply list_elem_of_In, in_flat_map. exists (lower c, child).
    split; by apply list_elem_of_In.
Qed.

Lemma select_trie_words (db : TrieNode) key w :
  select db key = Some w → w ∈ trie_words db.
Proof.
  unfold select, _select, _getnode, from_db_format.
  case_decide; [done|].
  destruct (walk (chars key) db) as [node|] eqn:Hwalk; [|done].
  destruct (node_payload node) as [w'|] eqn:Hw; [|done].
  intros Heq. rewrite Hw in Heq. simplify_eq. by eapply walk_trie_words.
Qed.

Lemma sort_subjects_elem subjects w : w ∈ _sort_subjects subjects → w ∈ subjects.
Proof.
  unfold _sort_subjects. intros Hin.
  apply list_elem_of_In, in_flat_map in Hin as (p & _ & Hin).
  apply list_elem_of_In in Hin. apply list_elem_of_filter in Hin. tauto.
Qed.

Lemma first_subject_Some subjects p w :
  first_subject subjects p = Some w → pos w = p ∧ w ∈ subjects.
Proof.
  unfold first_subject. intros Hhead.
  apply head_Some_elem_of in Hhead. apply list_elem_of_filter in Hhead. tauto.
Qed.

(** C6 (amended): the assignment phase gives every slot of every sentence
    the first subject, in priority order, whose pos is the slot's tag, and
    leaves the slot blank when there is none.  Subjects are not used up: one
    subject fills every slot of its pos, in every sentence. *)
Theorem assign_subjects_first_match structure subjects :
  (_assign_subjects (_sort_subjects subjects)
                    (_split_sentences structure).1 (_split_sentences structure).2).1
  = map (map (first_subject (_sort_subjects subjects))) (_split_sentences structure).1 ∧
  ∀ s i p,
    (_split_sentences structure).1 !! s ≫= (.!! i) = Some p →
    (_assign_subjects (_sort_subjects subjects)
                      (_split_sentences structure).1 (_split_sentences structure).2).1
      !! s ≫= (.!! i)
    = Some (first_subject (_sort_subjects subjects) p) ∧
    ∀ subject, first_subject (_sort_subjects subjects) p = Some subject →
               pos subject = p ∧ subject ∈ subjects.
Proof.
  split; [apply assign_subjects_board|].
  intros s i p Hp. rewrite assign_subjects_board.
  apply lookup2_Some in Hp as (tags & Hs & Hi). split.
  - apply lookup2_Some. exists (map (first_subject (_sort_subjects subjects)) tags).
    split.
    + change (map ?f ?l) with (f <$> l). by rewrite list_lookup_fmap, Hs.
    + change (map ?f ?l) with (f <$> l). by rewrite list_lookup_fmap, Hi.
  - intros subject Hfirst. apply first_subject_Some in Hfirst as [Hpos Hin].
    split; [done|]. by apply sort_subjects_elem.
Qed.

(** C5 (amended): in a store where every neighbor record of every stored
    word and of every subject carries the pos of the word stored under the
    record's key, a board that [generate] returns has a word in every slot
    and the pos of each word is the tag of its slot in the skeleton. *)
Theorem generate_pos_of_slots fuel h db g structure subjects board n :
  forallb (word_consistentb h db) (trie_words db ++ subjects) = true →
  generate fuel h db g structure subjects = Returned (Some board) n →
  Forall2 (Forall2 (λ p slot, ∃ w, slot = Some w ∧ pos w = p))
          (_split_sentences structure).1 board.
Proof.
  intros Hstore Hgen.
  assert (Hgood : ∀ w, w ∈ trie_words db ++ subjects → word_consistentb h db w = true).
  { intros w Hin. rewrite forallb_forall in Hstore. by apply Hstore, list_elem_of_In. }
  set (slot_ok := λ (p : PosEnum) (slot : option MarkovWord),
         ∀ w, slot = Some w → pos w = p ∧ word_consistentb h db w = true).
  rewrite generate_unfold in Hgen. unfold _generate_words in Hgen.
  rewrite assign_subjects_board in Hgen. simpl in Hgen.
  set (ss := (_split_sentences structure).1) in *.
  assert (Hinv : Forall2 (Forall2 slot_ok) ss board).
  { eapply (generate_loop_inv h db ss (Forall2 (Forall2 slot_ok) ss)); [| |exact Hgen].
    - intros b s sentence i blank_pos j w key row Hb Hs Hi Hpos Hw Hrow Hrpos.
      apply lookup2_Some in Hpos as (tags & Htags & Htag).
      rewrite (set2_lookup _ _ _ _ _ Hs).
      rewrite <- (list_insert_id ss s tags Htags).
      apply Forall2_insert; [done|].
      rewrite <- (list_insert_id tags i blank_pos Htag).
      apply Forall2_insert.
      { by eapply Forall2_lookup_lr. }
      intros w' Hsel. split.
      + apply lookup2_Some in Hw as (sentence' & Hs' & Hw). simplify_eq.
        destruct (Forall2_lookup_r _ _ _ _ _ Hb Hs) as (tags' & Htags' & Hrow').
        destruct (Forall2_lookup_r _ _ _ _ _ Hrow' Hw) as (p & _ & Hok).
        destruct (Hok w eq_refl) as [_ Hcons].
        unfold word_consistentb in Hcons. rewrite forallb_forall in Hcons.
        specialize (Hcons (key, row)). simpl in Hcons. rewrite Hsel in Hcons.
        assert (Hin : In (key, row) (heap_get h (neighbors w))) by by apply list_elem_of_In.
        specialize (Hcons Hin). apply bool_decide_eq_true in Hcons. congruence.
      + apply Hgood, elem_of_app. left. by eapply select_trie_words.
    - simpl. apply Forall2_fmap_r, Forall_Forall2_diag, Forall_forall.
      intros tags _. apply Forall2_fmap_r, Forall_Forall2_diag, Forall_forall.
      intros p _ w Hfirst. apply first_subject_Some in Hfirst as [Hp Hin].
      split; [done|]. apply Hgood, elem_of_app. right. by apply sort_subjects_elem. }
  apply generate_loop_full, blanks_zero in Hgen.
  eapply Forall2_Forall_r; [exact Hinv | exact Hgen |].
  intros tags sentence Hrow Hfull. simpl in *.
  eapply Forall2_Forall_r; [exact Hrow | exact Hfull |].
  intros p slot Hok [w ->]. exists w. split; [done|]. by apply (Hok w).
Qed.

(** *** The trainer (claim C3) *)

Lemma sum_list_zip_add (a : list Z) :
  ∀ b, length a = length b →
       sum_list (zip_with Z.add a b) = (sum_list a + sum_list b)%Z.
Proof.
  induction a as [|x a IH]; intros [|y b] Hlen; simpl in *; try done.
  rewrite IH by lia. lia.
Qed.

Lemma sum_list_replicate_zero n : sum_list (replicate n 0%Z) = 0%Z.
Proof. induction n as [|n IH]; simpl; [done|]. by rewrite IH. Qed.

Lemma sum_list_one_hot n :
  ∀ i, i < n → sum_list (<[i := 1%Z]> (replicate n 0%Z)) = 1%Z.
Proof.
  induction n as [|n IH]; intros [|i] Hi; simpl; try lia.
  - by rewrite sum_list_replicate_zero.
  - rewrite IH by lia. done.
Qed.

Lemma Forall_zip_add_nonneg (a : list Z) :
  ∀ b, Forall (λ v, (0 ≤ v)%Z) a → Forall (λ v, (0 ≤ v)%Z) b →
       Forall (λ v, (0 ≤ v)%Z) (zip_with Z.add a b).
Proof.
  induction a as [|x a IH]; intros [|y b] Ha Hb; simpl; try constructor.
  - inversion Ha; inversion Hb; subst. lia.
  - inversion Ha; inversion Hb; subst. by apply IH.
Qed.

Lemma one_hot_in_window (d : Z) :
  d ≠ 0%Z → (Z.abs d ≤ Z.of_nat MARKOV_WINDOW_SIZE)%Z →
  distance_one_hot d
  = Some (<[Z.to_nat (d + Z.of_nat MARKOV_WINDOW_SIZE) := 1%Z]>
            (replicate (MARKOV_WINDOW_SIZE * 2 + 1) 0%Z)).
Proof.
  intros Hd Hw. unfold distance_one_hot, one_hot.
  rewrite decide_True by lia. done.
Qed.

Lemma wrap_int64_small (z : Z) :
  (-9223372036854775808 ≤ z < 9223372036854775808)%Z → wrap_int64 z = z.
Proof. intros Hz. unfold wrap_int64. rewrite Z.mod_small by lia. lia. Qed.

Lemma wrap_int64_succ (z : Z) : wrap_int64 (wrap_int64 z + 1) = wrap_int64 (z + 1).
Proof.
  unfold wrap_int64. f_equal.
  replace ((z + 9223372036854775808) mod 18446744073709551616 - 9223372036854775808 + 1
           + 9223372036854775808)%Z
    with ((z + 9223372036854775808) mod 18446744073709551616 + 1)%Z by lia.
  rewrite Zplus_mod_idemp_l. f_equal. lia.
Qed.

Lemma sum_list_nonneg (a : list Z) : Forall (λ v, (0 ≤ v)%Z) a → (0 ≤ sum_list a)%Z.
Proof. induction 1 as [|x a Hx Ha IH]; simpl; lia. Qed.

Lemma elem_le_sum_list (l : list Z) :
  ∀ i v, Forall (λ v, (0 ≤ v)%Z) l → l !! i = Some v → (v ≤ sum_list l)%Z.
Proof.
  induction l as [|x l IH]; intros [|i] v Hl Hv; simpl in *; try done;
    inversion Hl as [|? ? Hx Hl']; subst.
  - simplify_eq. pose proof (sum_list_nonneg l Hl'). lia.
  - specialize (IH i v Hl' Hv). lia.
Qed.

(** an addition of vectors of one length that stays in the range *)
Lemma np_add_in_range (a b : list Z) :
  Forall2 (λ x y, (-9223372036854775808 ≤ x + y < 9223372036854775808)%Z) a b →
  np_add a b = Some (zip_with Z.add a b).
Proof.
  intros Hab. unfold np_add. rewrite decide_True by by eapply Forall2_length.
  f_equal. induction Hab as [|x y a b Hxy Hab IH]; simpl; [done|].
  by rewrite IH, wrap_int64_small.
Qed.

(** the vector that [distance_one_hot] returns for an offset of the window *)
Lemma one_hot_entries (d : Z) :
  d ≠ 0%Z → (Z.abs d ≤ Z.of_nat MARKOV_WINDOW_SIZE)%Z →
  ∃ hot, distance_one_hot d = Some hot ∧
         length hot = 2 * MARKOV_WINDOW_SIZE + 1 ∧
         hot !! MARKOV_WINDOW_SIZE = Some 0%Z ∧
         Forall (λ v, (0 ≤ v ≤ 1)%Z) hot ∧ sum_list hot = 1%Z.
Proof.
  intros Hd Hw. eexists. split; [by apply one_hot_in_window|]. split_and!.
  - rewrite length_insert, length_replicate. lia.
  - rewrite list_lookup_insert_ne by lia. apply lookup_replicate_2. lia.
  - apply Forall_insert; [|lia]. apply Forall_replicate. lia.
  - apply sum_list_one_hot. lia.
Qed.

(** one more observation keeps the invariants of a record, as long as
    the count stays below the largest [int64] *)
Lemma neighbor_ok_observe (p : PosEnum) (values : NeighborValues) (dist : list Z) (d : Z) :
  neighbor_ok {| POS := p; VALUE_MATRIX := values; DISTANCE_MATRIX := dist |} →
  (COUNT values < 9223372036854775807)%Z →
  d ≠ 0%Z → (Z.abs d ≤ Z.of_nat MARKOV_WINDOW_SIZE)%Z →
  ∃ hot dist',
    distance_one_hot d = Some hot ∧ np_add dist hot = Some dist' ∧
    neighbor_ok {| POS := p;
                   VALUE_MATRIX := {| COUNT := (COUNT values + 1)%Z;
                                      RATING := RATING values |};
                   DISTANCE_MATRIX := dist' |}.
Proof.
  intros (Hlen & Hmid & Hpos & Hcount) Hmax Hd Hw. simpl in *.
  destruct (one_hot_entries d Hd Hw) as (hot & Hhot & Hhlen & Hhmid & Hbits & Hsum).
  exists hot, (zip_with Z.add dist hot). split; [done|]. split.
  { apply np_add_in_range. apply Forall2_same_length_lookup. split; [lia|].
    intros k x y Hx Hy.
    pose proof (elem_le_sum_list dist k x Hpos Hx) as Hle.
    rewrite Forall_forall in Hpos, Hbits.
    pose proof (Hpos x (list_elem_of_lookup_2 _ _ _ Hx)).
    pose proof (Hbits y (list_elem_of_lookup_2 _ _ _ Hy)). lia. }
  repeat split; simpl.
  - rewrite length_zip_with. lia.
  - by rewrite lookup_zip_with, Hmid, Hhmid.
  - apply Forall_zip_add_nonneg; [done|].
    eapply Forall_impl; [exact Hbits|]. intros v Hv. simpl in Hv. lia.
  - rewrite sum_list_zip_add by lia. lia.
Qed.

(** one more observation keeps the shape of a record, wrap-around or not *)
Lemma neighbor_shape_observe (p : PosEnum) (values : NeighborValues) (dist : list Z) (d : Z) :
  neighbor_shape {| POS := p; VALUE_MATRIX := values; DISTANCE_MATRIX := dist |} →
  d ≠ 0%Z → (Z.abs d ≤ Z.of_nat MARKOV_WINDOW_SIZE)%Z →
  ∃ hot dist',
    distance_one_hot d = Some hot ∧ np_add dist hot = Some dist' ∧
    neighbor_shape {| POS := p;
                      VALUE_MATRIX := {| COUNT := (COUNT values + 1)%Z;
                                         RATING := RATING values |};
                      DISTANCE_MATRIX := dist' |}.
Proof.
  intros (Hlen & Hmid & Hcount) Hd Hw. simpl in *.
  destruct (one_hot_entries d Hd Hw) as (hot & Hhot & Hhlen & Hhmid & _ & _).
  exists hot, (zip_with (λ x y, wrap_int64 (x + y)) dist hot). split; [done|]. split.
  { unfold np_add. by rewrite decide_True by lia. }
  repeat split; simpl.
  - rewrite length_zip_with. lia.
  - by rewrite lookup_zip_with, Hmid, Hhmid.
  - lia.
Qed.

Lemma neighbor_ok_fresh (token : Token) :
  neighbor_ok (to_db_format (MarkovNeighbor_from_token token)).2.
Proof.
  repeat split; simpl.
  - rewrite length_replicate. lia.
  - apply lookup_replicate_2. lia.
  - apply Forall_replicate. lia.
  - by rewrite sum_list_replicate_zero.
Qed.

Lemma neighbor_ok_shape (row : NeighborRow) : neighbor_ok row → neighbor_shape row.
Proof.
  intros (Hlen & Hmid & Hpos & Hcount). repeat split; [done..|].
  rewrite Hcount. by apply sum_list_nonneg.
Qed.

Lemma heap_ok_get h l :
  heap_ok h → Forall (λ kv : string * NeighborRow, neighbor_ok kv.2) (heap_get h l).
Proof.
  intros Hh. unfold heap_get. destruct (h !! l) as [d|] eqn:Hl; simpl; [|constructor].
  unfold heap_ok in Hh. rewrite Forall_forall in Hh.
  apply Hh. by eapply list_elem_of_lookup_2.
Qed.

Lemma heap_all_get (P : NeighborRow → Prop) (h : list (list (string * NeighborRow))) l :
  Forall (Forall (λ kv : string * NeighborRow, P kv.2)) h →
  Forall (λ kv : string * NeighborRow, P kv.2) (heap_get h l).
Proof.
  intros Hh. unfold heap_get. destruct (h !! l) as [d|] eqn:Hl; simpl; [|constructor].
  rewrite Forall_forall in Hh. apply Hh. by eapply list_elem_of_lookup_2.
Qed.

Lemma dict_set_all (P : NeighborRow → Prop) key row (d : list (string * NeighborRow)) :
  Forall (λ kv : string * NeighborRow, P kv.2) d → P row →
  Forall (λ kv : string * NeighborRow, P kv.2) (dict_set key row d).
Proof.
  intros Hd Hrow. apply Forall_forall. intros [k v] Hin.
  apply dict_set_elem in Hin as [[-> ->]|Hin]; [done|].
  rewrite Forall_forall in Hd. by apply (Hd (k, v)).
Qed.

(** the payloads of a trie after a payload was written *)
Lemma with_node_words (cs : list ascii) (w : MarkovWord) :
  ∀ (node : TrieNode) w',
    w' ∈ trie_words (with_node cs (set_payload w) node) →
    w' = w ∨ w' ∈ trie_words node.
Proof.
  induction cs as [|c cs IH]; intros [p ch] w' Hin; simpl in Hin.
  - apply elem_of_cons in Hin as [->|Hin]; [by left|right].
    simpl. apply elem_of_app. by right.
  - apply elem_of_app in Hin as [Hin|Hin].
    { right. simpl. apply elem_of_app. by left. }
    apply list_elem_of_In, in_flat_map in Hin as ([k child] & Hkv & Hin).
    apply list_elem_of_In in Hin. apply list_elem_of_In in Hkv.
    apply dict_set_elem in Hkv as [[-> ->]|Hkv].
    + apply IH in Hin as [->|Hin]; [by left|right].
      destruct (dict_get (lower c) ch) as [child|] eqn:Hc; simpl in Hin.
      * apply dict_get_Some_elem in Hc. simpl. apply elem_of_app. right.
        apply list_elem_of_In, in_flat_map. exists (lower c, child).
        split; by apply list_elem_of_In.
      * by apply not_elem_of_nil in Hin.
    + right. simpl. apply elem_of_app. right.
      apply list_elem_of_In, in_flat_map. exists (k, child).
      split; by apply list_elem_of_In.
Qed.

(** [update], and [insert] when it misses, write the same payload *)
Lemma update_or_insert_words (trie : TrieNode) (word : MarkovWord) w' :
  w' ∈ trie_words (match update trie word with
                   | (t, Some _) => t
                   | (t, None) => (insert t word).1
                   end) →
  w' = word ∨ w' ∈ trie_words trie.
Proof.
  unfold update, insert, _update, _insert. destruct word as [t p l]. simpl.
  destruct (_select trie t) as [row|]; simpl.
  - destruct (match walk _ _ with Some r => from_db_format r | None => None end);
      simpl; intros Hin.
    + by apply with_node_words in Hin.
    + apply with_node_words in Hin as [->|Hin]; [by left|].
      by apply with_node_words in Hin.
  - intros Hin. by apply with_node_words in Hin.
Qed.

(** the invariant of the trainer, for a property [P] of the records: the
    records have it, and the trie and the row cache point into the heap *)
Definition learn_inv (P : NeighborRow → Prop) (st : LearnState) : Prop :=
  Forall (Forall (λ kv : string * NeighborRow, P kv.2)) st.1.1 ∧
  (∀ w, w ∈ trie_words st.1.2 → neighbors w < length st.1.1) ∧
  (∀ k w, (k, w) ∈ st.2 → neighbors w < length st.1.1).

(** One n-gram.  The records go from [P] to [Q] when a record that is
    left alone does, a new record has [P], and the observation takes a
    record from [P] to [Q] (and with it the two numpy calls return). *)
Lemma learn_ngram_inv (P Q : NeighborRow → Prop) (st : LearnState) (g : Ngram) :
  (∀ row, P row → Q row) →
  (∀ token, P (to_db_format (MarkovNeighbor_from_token token)).2) →
  (∀ p values dist,
     P {| POS := p; VALUE_MATRIX := values; DISTANCE_MATRIX := dist |} →
     ∃ hot dist',
       distance_one_hot g.2 = Some hot ∧ np_add dist hot = Some dist' ∧
       Q {| POS := p;
            VALUE_MATRIX := {| COUNT := (COUNT values + 1)%Z; RATING := RATING values |};
            DISTANCE_MATRIX := dist' |}) →
  learn_inv P st →
  ∃ st', learn_ngram st g = Some st' ∧ learn_inv Q st'.
Proof.
  destruct st as [[h trie] row_cache]. destruct g as [[a b] d].
  intros Hmono Hfresh Hobserve (Hheap & Htrie & Hcache). simpl in *. unfold learn_ngram.
  set (found := match dict_get (tok_text a) row_cache with
                | Some word => (h, word)
                | None => match select trie (tok_text a) with
                          | Some word => (h, word)
                          | None => MarkovWord_from_token h a
                          end
                end).
  assert (Hfound : Forall (Forall (λ kv : string * NeighborRow, P kv.2)) found.1 ∧
                   neighbors found.2 < length found.1 ∧
                   length h ≤ length found.1).
  { unfold found. destruct (dict_get (tok_text a) row_cache) as [word|] eqn:Hc; simpl.
    - repeat split; [done| |done]. apply dict_get_Some_elem in Hc. by eapply Hcache.
    - destruct (select trie (tok_text a)) as [word|] eqn:Hsel; simpl.
      + repeat split; [done| |done]. by apply Htrie, (select_trie_words _ (tok_text a)).
      + repeat split.
        * apply Forall_app. split; [done|]. repeat constructor.
        * rewrite length_app. simpl. lia.
        * rewrite length_app. lia. }
  destruct found as [h1 word]. simpl in Hfound. destruct Hfound as (Hh1 & Hloc & Hgrow).
  set (neighbor := match get_neighbor h1 word (tok_text b) with
                   | Some neighbor => neighbor
                   | None => MarkovNeighbor_from_token b
                   end).
  assert (Hn : P (to_db_format neighbor).2).
  { unfold neighbor, get_neighbor.
    destruct (dict_get (tok_text b) (heap_get h1 (neighbors word))) as [row|] eqn:Hrow.
    - apply dict_get_Some_elem in Hrow.
      pose proof (heap_all_get P h1 (neighbors word) Hh1) as Hdict.
      rewrite Forall_forall in Hdict. specialize (Hdict _ Hrow). by destruct row.
    - apply Hfresh. }
  destruct (Hobserve _ _ _ Hn) as (hot & dist' & Hhot & Hadd & Hok).
  simpl in Hhot, Hadd, Hok. rewrite Hhot. simpl. rewrite Hadd. simpl.
  eexists. split; [done|]. repeat split; simpl.
  - unfold heap_set. apply Forall_insert.
    + eapply Forall_impl; [exact Hh1|]. intros dict Hdict.
      eapply Forall_impl; [exact Hdict|]. intros kv. apply Hmono.
    + apply dict_set_all; [|done].
      eapply Forall_impl; [by apply heap_all_get|]. intros kv. apply Hmono.
  - intros w' Hin. unfold heap_set. rewrite length_insert.
    apply update_or_insert_words in Hin as [->|Hin]; [done|].
    specialize (Htrie _ Hin). lia.
  - intros k w' Hin. unfold heap_set. rewrite length_insert.
    apply dict_set_elem in Hin as [[-> ->]|Hin]; [done|].
    specialize (Hcache _ _ Hin). lia.
Qed.

Lemma neighbor_shape_fresh (token : Token) :
  neighbor_shape (to_db_format (MarkovNeighbor_from_token token)).2.
Proof. apply neighbor_ok_shape, neighbor_ok_fresh. Qed.

(** whatever the counts are, the loop body returns and keeps the shape *)
Lemma learn_ngram_shape (st : LearnState) (g : Ngram) :
  learn_inv neighbor_shape st → ngram_in_window g →
  ∃ st', learn_ngram st g = Some st' ∧ learn_inv neighbor_shape st'.
Proof.
  intros Hst [Hd Hw]. apply (learn_ngram_inv neighbor_shape neighbor_shape); try done.
  - apply neighbor_shape_fresh.
  - intros p values dist Hrow. by apply neighbor_shape_observe.
Qed.

(** below the largest [int64] the loop body keeps the invariants *)
Lemma learn_ngram_counted (n : Z) (st : LearnState) (g : Ngram) :
  (0 ≤ n < 9223372036854775807)%Z →
  learn_inv (neighbor_counted n) st → ngram_in_window g →
  ∃ st', learn_ngram st g = Some st' ∧ learn_inv (neighbor_counted (n + 1)) st'.
Proof.
  intros Hn Hst [Hd Hw].
  apply (learn_ngram_inv (neighbor_counted n) (neighbor_counted (n + 1))); try done.
  - intros row [Hok Hc]. split; [done|lia].
  - intros token. split; [apply neighbor_ok_fresh | simpl; lia].
  - intros p values dist [Hok Hc]. simpl in Hc.
    destruct (neighbor_ok_observe p values dist g.2 Hok) as (hot & dist' & ? & ? & ?);
      [lia|done|done|].
    exists hot, dist'. split_and!; [done..|]. split; [done|simpl; lia].
Qed.

Lemma ngramify_in_window (span : list Token) : Forall ngram_in_window (ngramify span).
Proof.
  unfold ngramify. apply Forall_forall. intros g Hin.
  apply list_elem_of_In, in_flat_map in Hin as (ea & _ & Hin).
  apply in_flat_map in Hin as (eb & _ & Hin).
  case_decide; [done|]. case_decide; [|done].
  destruct Hin as [<-|[]]. by split.
Qed.

Lemma doc_in_window (doc : list (list Token)) :
  Forall ngram_in_window (flat_map ngramify doc).
Proof.
  apply Forall_forall. intros g Hin.
  apply list_elem_of_In, in_flat_map in Hin as (span & _ & Hin).
  pose proof (ngramify_in_window span) as Hspan. rewrite Forall_forall in Hspan.
  by apply Hspan, list_elem_of_In.
Qed.

Lemma learn_ngrams_shape (gs : list Ngram) :
  ∀ st, learn_inv neighbor_shape st → Forall ngram_in_window gs →
        ∃ st', foldM learn_ngram st gs = Some st' ∧ learn_inv neighbor_shape st'.
Proof.
  induction gs as [|g gs IH]; intros st Hst Hgs; simpl.
  - by exists st.
  - inversion Hgs; subst.
    destruct (learn_ngram_shape st g) as (st1 & -> & Hst1); [done..|].
    by apply IH.
Qed.

Lemma learn_ngrams_counted (gs : list Ngram) :
  ∀ n st,
    (0 ≤ n)%Z → (n + Z.of_nat (length gs) < 9223372036854775808)%Z →
    learn_inv (neighbor_counted n) st → Forall ngram_in_window gs →
    ∃ st', foldM learn_ngram st gs = Some st' ∧
           learn_inv (neighbor_counted (n + Z.of_nat (length gs))) st'.
Proof.
  induction gs as [|g gs IH]; intros n st Hn Hmax Hst Hgs; simpl.
  - exists st. split; [done|]. by rewrite Z.add_0_r.
  - inversion Hgs; subst. simpl length in Hmax.
    destruct (learn_ngram_counted n st g) as (st1 & -> & Hst1); [lia|done..|].
    destruct (IH (n + 1)%Z st1) as (st' & Hl & Hst'); [lia|lia|done..|].
    exists st'. split; [done|].
    by replace (n + Z.of_nat (S (length gs)))%Z with (n + 1 + Z.of_nat (length gs))%Z by lia.
Qed.

(** the cache of a [learn] call is local to it *)
Lemma learn_inv_nil (P : NeighborRow → Prop) h trie cache :
  learn_inv P (h, trie, cache) → learn_inv P (h, trie, []).
Proof.
  intros (Hh & Ht & _). repeat split; [done..|].
  intros k w Hin. by apply not_elem_of_nil in Hin.
Qed.

Lemma learn_shape_doc (db : list (list (string * NeighborRow)) * TrieNode)
    (doc : list (list Token)) :
  learn_inv neighbor_shape (db, []) →
  ∃ db', learn db doc = Some db' ∧ learn_inv neighbor_shape (db', []).
Proof.
  intros Hdb. unfold learn.
  destruct (learn_ngrams_shape (flat_map ngramify doc) (db.1, db.2, [])) as (st' & -> & Hst').
  - by destruct db.
  - apply doc_in_window.
  - destruct st' as [[h trie] cache]. eexists. split; [done|]. by eapply learn_inv_nil.
Qed.

Lemma learn_counted_doc (n : Z) (db : list (list (string * NeighborRow)) * TrieNode)
    (doc : list (list Token)) :
  (0 ≤ n)%Z → (n + Z.of_nat (length (flat_map ngramify doc)) < 9223372036854775808)%Z →
  learn_inv (neighbor_counted n) (db, []) →
  ∃ db', learn db doc = Some db' ∧
         learn_inv (neighbor_counted (n + Z.of_nat (length (flat_map ngramify doc))))
                   (db', []).
Proof.
  intros Hn Hmax Hdb. unfold learn.
  destruct (learn_ngrams_counted (flat_map ngramify doc) n (db.1, db.2, []))
    as (st' & -> & Hst'); [done|done| |apply doc_in_window|].
  - by destruct db.
  - destruct st' as [[h trie] cache]. eexists. split; [done|]. by eapply learn_inv_nil.
Qed.

Lemma learn_docs_shape (docs : list (list (list Token))) :
  ∀ db, learn_inv neighbor_shape (db, []) →
        ∃ db', learn_docs db docs = Some db' ∧ learn_inv neighbor_shape (db', []).
Proof.
  unfold learn_docs. induction docs as [|doc docs IH]; intros db Hdb; simpl.
  - by exists db.
  - destruct (learn_shape_doc db doc Hdb) as (db1 & -> & Hdb1). by apply IH.
Qed.

Lemma learn_docs_counted (docs : list (list (list Token))) :
  ∀ n db,
    (0 ≤ n)%Z →
    (n + Z.of_nat (length (flat_map (flat_map ngramify) docs)) < 9223372036854775808)%Z →
    learn_inv (neighbor_counted n) (db, []) →
    ∃ db', learn_docs db docs = Some db' ∧
           learn_inv (neighbor_counted
                        (n + Z.of_nat (length (flat_map (flat_map ngramify) docs))))
                     (db', []).
Proof.
  unfold learn_docs. induction docs as [|doc docs IH]; intros n db Hn Hmax Hdb.
  - exists db. split; [done|]. simpl. by rewrite Z.add_0_r.
  - cbn [flat_map] in Hmax |- *. rewrite length_app, Nat2Z.inj_add in Hmax |- *.
    destruct (learn_counted_doc n db doc) as (db1 & Hl & Hdb1); [lia|lia|done|].
    cbn [foldM]. rewrite Hl.
    destruct (IH (n + Z.of_nat (length (flat_map ngramify doc)))%Z db1)
      as (db' & Hl' & Hdb'); [lia|lia|done|].
    exists db'. split; [done|]. by rewrite Z.add_assoc.
Qed.

Lemma learn_inv_empty (P : NeighborRow → Prop) :
  learn_inv P (([], empty_trie), []).
Proof.
  repeat split; simpl.
  - constructor.
  - intros w Hin. by apply not_elem_of_nil in Hin.
  - intros k w Hin. by apply not_elem_of_nil in Hin.
Qed.

(** C3 (amended): training from the empty store never raises.  As long as
    the documents hold fewer than 2^63 n-grams in all, after any sequence
    of [learn] calls every neighbor record of every word of the trie lives
    in the heap, has a histogram of [2K+1] non-negative entries with a zero
    in the middle, and a count equal to the sum of the histogram.  (From
    2^63 observations on, an entry of a histogram can wrap around in
    numpy's [int64], while the count, a Python integer, goes on growing.) *)
Theorem learn_keeps_neighbor_invariants (docs : list (list (list Token))) :
  ∃ h trie,
    learn_docs ([], empty_trie) docs = Some (h, trie) ∧
    ((Z.of_nat (length (flat_map (flat_map ngramify) docs)) < 9223372036854775808)%Z →
     ∀ w, w ∈ trie_words trie →
       neighbors w < length h ∧
       ∀ key row, (key, row) ∈ heap_get h (neighbors w) →
         length (DISTANCE_MATRIX row) = 2 * MARKOV_WINDOW_SIZE + 1 ∧
         DISTANCE_MATRIX row !! MARKOV_WINDOW_SIZE = Some 0%Z ∧
         Forall (λ v, (0 ≤ v)%Z) (DISTANCE_MATRIX row) ∧
         COUNT (VALUE_MATRIX row) = sum_list (DISTANCE_MATRIX row)).
Proof.
  destruct (learn_docs_shape docs ([], empty_trie) (learn_inv_empty _))
    as ([h trie] & Hlearn & _).
  exists h, trie. split; [done|]. intros Hmax.
  destruct (learn_docs_counted docs 0 ([], empty_trie)) as (db' & Hlearn' & Hh & Ht & _);
    [lia|lia|apply learn_inv_empty|].
  rewrite Hlearn in Hlearn'. injection Hlearn' as <-. simpl in *.
  intros w Hw. split; [by apply Ht|]. intros key row Hrow.
  pose proof (heap_all_get _ h (neighbors w) Hh) as Hd.
  rewrite Forall_forall in Hd. by destruct (Hd _ Hrow) as [Hok _].
Qed.

(** *** Skeletons without EOS (claim C10) *)

(** C10: a skeleton that holds no EOS is split into zero sentences, and
    [generate] returns [None] from the first pass of the fill loop, whatever
    the store, the subjects and the state of the sampler. *)
Theorem generate_without_EOS fuel h db g structure subjects :
  EOS ∉ structure →
  _split_sentences structure = ([], []) ∧
  generate (S fuel) h db g structure subjects = Returned None 1.
Proof.
  intros Hno.
  assert (Hsplit : _split_sentences structure = ([], [])).
  { unfold _split_sentences, enumerate. by rewrite split_no_EOS. }
  split; [done|]. unfold generate. rewrite Hsplit. reflexivity.
Qed.

(** *** Snapshots (claim C8) *)

(** What [json.dumps] reads from [self._trie]: the nested dictionaries
    with the neighbor dictionaries by value.  It is also what
    [trie(y) == trie(x)] compares. *)
Inductive TrieValue :=
| ValueNode (payload : option (string * PosEnum * list (string * NeighborRow)))
            (children : list (ascii * TrieValue)).

Definition word_value (h : Heap) (w : MarkovWord)
  : string * PosEnum * list (string * NeighborRow) :=
  (text w, pos w, heap_get h (neighbors w)).

Fixpoint trie_value (h : Heap) (node : TrieNode) : TrieValue :=
  match node with
  | Node p ch =>
      ValueNode (option_map (word_value h) p)
                (map (λ kv, let '(c, child) := kv in (c, trie_value h child)) ch)
  end.

(** The objects that [json.loads] builds for a value: every neighbor
    dictionary is a new object of the heap. *)
Fixpoint allocate_children (allocate : TrieValue → Heap → Heap * TrieNode)
    (l : list (ascii * TrieValue)) (h : Heap) : Heap * list (ascii * TrieNode) :=
  match l with
  | [] => (h, [])
  | (c, child) :: l' =>
      let '(h', node) := allocate child h in
      let '(h'', l'') := allocate_children allocate l' h' in
      (h'', (c, node) :: l'')
  end.

Fixpoint allocate (v : TrieValue) (h : Heap) : Heap * TrieNode :=
  match v with
  | ValueNode p ch =>
      let '(h1, p') :=
        match p with
        | Some (t, ps, d) => (h ++ [d], Some {| text := t; pos := ps; neighbors := length h |})
        | None => (h, None)
        end in
      let '(h2, ch') := allocate_children allocate ch h1 in
      (h2, Node p' ch')
  end.


(** The libraries behind [save] and [load]: [json.dumps] with compact
    separators and [json.loads], [str.encode] and [bytes.decode],
    [zlib.compress] and [zlib.decompress]; the files are a dictionary from
    paths to contents.  [json.dumps] recurses on the nesting of its argument
    and raises RecursionError on a value nested deeper than the interpreter
    allows: it is partial, [None] being the exception.  What it returns,
    [json.loads] reads back; the other two pairs round-trip on every
    input. *)
Section Snapshot.

Context {Str Bytes : Type}.
Variable json_dumps : TrieValue → option Str.
Variable json_loads : Str → option TrieValue.
Variable str_encode : Str → Bytes.
Variable bytes_decode : Bytes → option Str.
Variable zlib_compress : Bytes → Bytes.
Variable zlib_decompress : Bytes → option Bytes.

Hypothesis json_round_trip : ∀ v data, json_dumps v = Some data → json_loads data = Some v.
Hypothesis utf8_round_trip : ∀ data, bytes_decode (str_encode data) = Some data.
Hypothesis zlib_round_trip : ∀ data, zlib_decompress (zlib_compress data) = Some data.

(** [MarkovTrieDb.save]: the files after the write; [None] is the exception
    of [json.dumps], raised before the file is opened *)
Definition save (h : Heap) (trie : TrieNode) (path : string)
    (files : list (string * Bytes)) : option (list (string * Bytes)) :=
  dumped ← json_dumps (trie_value h trie);
  let data := zlib_compress (str_encode dumped) in
  Some (dict_set path data files).









(** [save] raises exactly when [json.dumps] does, and then writes nothing *)
Lemma save_raises h trie path files :
  save h trie path files = None ↔ json_dumps (trie_value h trie) = None.
Proof.
  unfold save. destruct (json_dumps (trie_value h trie)); simpl; split; done.
Qed.


End Snapshot.

(** ** Further properties of the engine *)

(** *** The trie: lookup after a write *)

Lemma string_length_chars (s : string) : String.length s = length (chars s).
Proof. induction s as [|c s IH]; simpl; [done | by rewrite IH]. Qed.

(** a walk only sees the lowered characters *)
Lemma walk_lowered (cs : list ascii) :
  ∀ cs' (node : TrieNode), map lower cs = map lower cs' → walk cs node = walk cs' node.
Proof.
  induction cs as [|c cs IH]; intros [|c' cs'] node Heq; simpl in *; try done.
  injection Heq as Hc Hcs. rewrite Hc.
  destruct (dict_get (lower c') (node_children node)); [by apply IH | done].
Qed.

Lemma with_node_lowered (cs : list ascii) (f : TrieNode → TrieNode) :
  ∀ cs' (node : TrieNode),
    map lower cs = map lower cs' → with_node cs f node = with_node cs' f node.
Proof.
  induction cs as [|c cs IH]; intros [|c' cs'] node Heq; simpl in *; try done.
  injection Heq as Hc Hcs. rewrite Hc. by rewrite (IH cs').
Qed.

(** the node written is found again, with the payload *)
Lemma walk_with_node (cs : list ascii) (w : MarkovWord) :
  ∀ node : TrieNode,
    ∃ node', walk cs (with_node cs (set_payload w) node) = Some node' ∧
             node_payload node' = Some w.
Proof.
  induction cs as [|c cs IH]; intros node; simpl.
  - by eexists.
  - rewrite dict_get_set_eq. apply IH.
Qed.

Lemma walk_empty_trie (cs : list ascii) : walk cs empty_trie ≫= node_payload = None.
Proof. by destruct cs. Qed.

(** a write at one path leaves the payloads of all other paths alone *)
Lemma walk_with_node_other (cs : list ascii) (w : MarkovWord) :
  ∀ cs' (node : TrieNode),
    map lower cs ≠ map lower cs' →
    walk cs' (with_node cs (set_payload w) node) ≫= node_payload
    = walk cs' node ≫= node_payload.
Proof.
  induction cs as [|c cs IH]; intros [|c' cs'] node Hne; simpl in *; try done.
  destruct (decide (lower c = lower c')) as [Hc|Hc].
  - rewrite <- Hc, dict_get_set_eq.
    rewrite IH by congruence.
    destruct (dict_get (lower c) (node_children node)); simpl; [done|].
    apply walk_empty_trie.
  - by rewrite dict_get_set_ne.
Qed.

(** [select] read off the walk *)
Lemma select_walk (trie : TrieNode) (word : string) :
  select trie word
  = if decide (String.length word = 0) then None
    else walk (chars word) trie ≫= node_payload.
Proof.
  unfold select, _select, _getnode, from_db_format. case_decide; [done|].
  destruct (walk (chars word) trie) as [node|]; simpl; [|done].
  destruct (node_payload node) eqn:Hp; simpl; by rewrite ?Hp.
Qed.

Lemma word_eta (w : MarkovWord) :
  {| text := text w; pos := pos w; neighbors := neighbors w |} = w.
Proof. by destruct w. Qed.

(** X1: [insert] returns the word, and [select] of its text (when it is
    not empty) finds it again. *)
Theorem select_after_insert (trie : TrieNode) (w : MarkovWord) :
  text w ≠ "" →
  (insert trie w).2 = Some w ∧ select (insert trie w).1 (text w) = Some w.
Proof.
  intros Hne. unfold insert, _insert. simpl. rewrite word_eta.
  destruct (walk_with_node (chars (text w)) w trie) as (node & Hwalk & Hw).
  split.
  - rewrite Hwalk. exact Hw.
  - rewrite select_walk, Hwalk. simpl. rewrite Hw.
    case_decide as Hlen; [|done]. by destruct (text w).
Qed.

Lemma select_lowered (trie : TrieNode) (a b : string) :
  map lower (chars a) = map lower (chars b) → select trie a = select trie b.
Proof.
  intros Heq. rewrite !select_walk, !string_length_chars.
  assert (Hlen : length (chars a) = length (chars b)).
  { by rewrite <- (length_map lower (chars a)), Heq, length_map. }
  rewrite Hlen, (walk_lowered _ _ _ Heq). done.
Qed.

(** X2: the trie folds case: two texts with the same lowered characters
    select the same word. *)
Theorem select_folds_case (trie : TrieNode) (a b : string) :
  map lower (chars a) = map lower (chars b) → select trie a = select trie b.
Proof. apply select_lowered. Qed.

(** X3: a write by [insert] or [update] changes the answer of [select] for
    no text of another lowered spelling. *)
Theorem select_other_text (trie : TrieNode) (w : MarkovWord) (word : string) :
  map lower (chars (text w)) ≠ map lower (chars word) →
  select (insert trie w).1 word = select trie word ∧
  select (update trie w).1 word = select trie word.
Proof.
  intros Hne. split.
  - unfold insert, _insert. simpl. rewrite !select_walk.
    case_decide; [done|]. by apply walk_with_node_other.
  - unfold update, _update. destruct (_select trie (text w)); simpl; [|done].
    rewrite !select_walk. case_decide; [done|]. by apply walk_with_node_other.
Qed.

(** X4: [update] writes exactly when [select] finds a word under the text:
    then it returns the new word and [select] finds it; otherwise it returns
    [None] and leaves the trie as it was. *)
Theorem update_hits_selected (trie : TrieNode) (w : MarkovWord) :
  match select trie (text w) with
  | Some _ => (update trie w).2 = Some w ∧ select (update trie w).1 (text w) = Some w
  | None => update trie w = (trie, None)
  end.
Proof.
  unfold update, _update.
  destruct (select trie (text w)) as [w0|] eqn:Hsel.
  - assert (Hlen : String.length (text w) ≠ 0).
    { rewrite select_walk in Hsel. by case_decide. }
    unfold select in Hsel.
    destruct (_select trie (text w)) as [row|]; [|done]. simpl.
    rewrite word_eta.
    destruct (walk_with_node (chars (text w)) w trie) as (node & Hwalk & Hw).
    rewrite Hwalk. split; [exact Hw|].
    rewrite select_walk, Hwalk. simpl. by rewrite decide_False.
  - unfold select in Hsel.
    destruct (_select trie (text w)) as [row|] eqn:Hrow; [|done].
    unfold _select in Hrow.
    destruct (_getnode trie (text w)) as [node|]; [|done].
    unfold from_db_format in Hsel.
    destruct (node_payload node) eqn:Hp; [|done]. by simplify_eq.
Qed.

(** *** MarkovWord: the neighbor dictionary *)

(** [MarkovWord.set_neighbor]: the row is written into the dictionary that
    the word points to *)
Definition set_neighbor (h : Heap) (w : MarkovWord) (neighbor : MarkovNeighbor) : Heap :=
  let n_row := {| POS := nb_pos neighbor;
                  VALUE_MATRIX := nb_values neighbor;
                  DISTANCE_MATRIX := nb_dist neighbor |} in
  heap_set h (neighbors w) (dict_set (nb_text neighbor) n_row (heap_get h (neighbors w))).

Lemma heap_get_set (h : list (list (string * NeighborRow))) l l' d :
  heap_get (heap_set h l d) l'
  = if decide (l = l' ∧ l < length h) then d else heap_get h l'.
Proof.
  unfold heap_get, heap_set. case_decide as Hl.
  - destruct Hl as [<- Hlt]. by rewrite list_lookup_insert_eq.
  - destruct (decide (l = l')) as [<-|Hne].
    + rewrite list_insert_ge by lia. done.
    + by rewrite list_lookup_insert_ne.
Qed.

(** X5: after [set_neighbor] the neighbor is read back by [get_neighbor],
    through the word and through every word that shares its dictionary;
    every other key, and every other dictionary, reads as before. *)
Theorem get_after_set_neighbor h (w : MarkovWord) (n : MarkovNeighbor) :
  neighbors w < length h →
  (∀ w', neighbors w' = neighbors w →
         get_neighbor (set_neighbor h w n) w' (nb_text n) = Some n) ∧
  (∀ w' key, neighbors w' ≠ neighbors w ∨ key ≠ nb_text n →
             get_neighbor (set_neighbor h w n) w' key = get_neighbor h w' key).
Proof.
  intros Hloc. unfold get_neighbor, set_neighbor. split.
  - intros w' ->. rewrite heap_get_set, decide_True by done.
    rewrite dict_get_set_eq. by destruct n.
  - intros w' key Hother. rewrite heap_get_set. case_decide as Hsame; [|done].
    destruct Hsame as [Heq _]. destruct Hother as [Hne|Hne]; [congruence|].
    rewrite <- Heq. by rewrite dict_get_set_ne.
Qed.

(** X6: [select_neighbors(pos)] returns exactly the neighbors that
    [get_neighbor] finds under their own text and that have the pos. *)
Theorem select_neighbors_spec h (w : MarkovWord) (p : PosEnum) (n : MarkovNeighbor) :
  n ∈ select_neighbors h w p ↔
  get_neighbor h w (nb_text n) = Some n ∧ nb_pos n = p.
Proof. apply select_neighbors_iff. Qed.

(** *** Projections and their collection *)

(** X7: the keys and the pos of a projection are those of the selected
    neighbors, in their order: row [k] of both matrices belongs to
    [keys[k]], every pos is the one asked for, and every key is the key of a
    record of the word with that pos. *)
Theorem project_rows_aligned h (w : MarkovWord) (i L : nat) (p : PosEnum) :
  keys (project h w i L p) = map nb_text (select_neighbors h w p) ∧
  proj_pos (project h w i L p) = replicate (length (keys (project h w i L p))) p ∧
  length (distances (project h w i L p)) = length (keys (project h w i L p)) ∧
  length (magnitudes (project h w i L p)) = length (keys (project h w i L p)) ∧
  ∀ key, key ∈ keys (project h w i L p) →
         ∃ row, dict_get key (heap_get h (neighbors w)) = Some row ∧ POS row = p.
Proof.
  destruct (project_rows h w i L p) as (HD & HM & Hk & Hp).
  rewrite HD, HM, Hk, Hp, !length_map. repeat split.
  - pose proof (select_neighbors_pos h w p) as Hpos. clear HD HM Hk Hp.
    induction Hpos as [|n l Hn Hl IH]; simpl; [done|]. by rewrite Hn, IH.
  - intros key Hin. change (map ?f ?l) with (f <$> l) in Hin.
    apply list_elem_of_fmap in Hin as (n & -> & Hn).
    unfold select_neighbors in Hn. apply list_elem_of_omap in Hn as (key & _ & Hget).
    unfold get_neighbor in Hget.
    destruct (dict_get key (heap_get h (neighbors w))) as [row|] eqn:Hrow; [|done].
    case_decide as Hpos; [|done]. simplify_eq. simpl in *. by exists row.
Qed.

Lemma collection_fields_later (ps : list MarkovWordProjection) :
  ∀ i acc,
    let c := foldl concat_step acc (enumerate_from (S i) ps) in
    keys c = keys acc ++ concat (map keys ps) ∧
    proj_pos c = proj_pos acc ++ concat (map proj_pos ps) ∧
    magnitudes c = magnitudes acc ++ concat (map magnitudes ps) ∧
    distances c = distances acc ++ concat (map distances ps).
Proof.
  induction ps as [|p ps IH]; intros i acc.
  - simpl. by rewrite !app_nil_r.
  - destruct (IH (S i) (concat_step acc (S i, p))) as (Hk & Hp & Hm & Hd).
    cbn [enumerate_from foldl]. cbv zeta. rewrite Hk, Hp, Hm, Hd.
    simpl. by rewrite <- !app_assoc.
Qed.

Lemma collection_fields (ps : list MarkovWordProjection) :
  keys (MarkovWordProjectionCollection ps) = concat (map keys ps) ∧
  proj_pos (MarkovWordProjectionCollection ps) = concat (map proj_pos ps) ∧
  magnitudes (MarkovWordProjectionCollection ps) = concat (map magnitudes ps) ∧
  distances (MarkovWordProjectionCollection ps) = concat (map distances ps).
Proof.
  unfold MarkovWordProjectionCollection, enumerate.
  destruct ps as [|p ps]; [done|].
  destruct (collection_fields_later ps 0
              (concat_step {| keys := []; proj_pos := []; magnitudes := [];
                              distances := [] |} (0, p))) as (Hk & Hp & Hm & Hd).
  cbn [enumerate_from foldl]. rewrite Hk, Hp, Hm, Hd. done.
Qed.

(** X8: a collection stacks its projections: keys, pos, magnitudes and
    distances are the concatenations, in order, of those of the projections,
    so rows stay aligned with keys. *)
Theorem collection_stacks (ps : list MarkovWordProjection) :
  keys (MarkovWordProjectionCollection ps) = concat (map keys ps) ∧
  proj_pos (MarkovWordProjectionCollection ps) = concat (map proj_pos ps) ∧
  magnitudes (MarkovWordProjectionCollection ps) = concat (map magnitudes ps) ∧
  distances (MarkovWordProjectionCollection ps) = concat (map distances ps).
Proof. apply collection_fields. Qed.


(** *** The n-grams of a sentence *)

Lemma enumerate_from_lookup {A} (l : list A) i j x :
  l !! j = Some x → (i + j, x) ∈ enumerate_from i l.
Proof.
  revert i j. induction l as [|y l IH]; intros i j Hj; [done|].
  destruct j as [|j]; simpl in *.
  - simplify_eq. rewrite Nat.add_0_r. apply list_elem_of_here.
  - apply list_elem_of_further. replace (i + S j) with (S i + j) by lia. by apply IH.
Qed.

Lemma enumerate_lookup {A} (l : list A) j x : (j, x) ∈ enumerate l ↔ l !! j = Some x.
Proof.
  split; [apply enumerate_elem|]. intros Hj.
  by apply (enumerate_from_lookup l 0 j x).
Qed.

(** X9: [ngramify] returns exactly the ordered pairs of tokens of the
    sentence at two different places at most [MARKOV_WINDOW_SIZE] apart,
    each with the signed offset from the first to the second. *)
Theorem ngramify_spec (span : list Token) (a b : Token) (d : Z) :
  (a, b, d) ∈ ngramify span ↔
  ∃ i j, span !! i = Some a ∧ span !! j = Some b ∧
         d = (Z.of_nat j - Z.of_nat i)%Z ∧ i ≠ j ∧
         (Z.abs d ≤ Z.of_nat MARKOV_WINDOW_SIZE)%Z.
Proof.
  unfold ngramify. rewrite list_elem_of_In, in_flat_map. split.
  - intros ([i a'] & Ha & Hin). apply in_flat_map in Hin as ([j b'] & Hb & Hin).
    simpl in Hin. case_decide as Hz; [done|]. case_decide as Hw; [|done].
    destruct Hin as [Heq|[]]. simplify_eq.
    apply list_elem_of_In, enumerate_lookup in Ha.
    apply list_elem_of_In, enumerate_lookup in Hb.
    exists i, j. repeat split; [done..| |done]. lia.
  - intros (i & j & Ha & Hb & -> & Hne & Hw). exists (i, a). split.
    { by apply list_elem_of_In, enumerate_lookup. }
    apply in_flat_map. exists (j, b). split.
    { by apply list_elem_of_In, enumerate_lookup. }
    simpl. rewrite decide_False by lia. rewrite decide_True by done. by left.
Qed.

(** *** The sentences of a skeleton *)

Lemma split_join_from structure (l : list PosEnum) :
  ∀ pre start ss sg,
    structure = pre ++ l → start ≤ length pre →
    take start structure = concat (map (λ s, s ++ [EOS]) ss) →
    EOS ∉ drop start pre → Forall (λ s, EOS ∉ s) ss →
    let '(start', ss', _) :=
      foldl (split_step structure) (start, ss, sg) (enumerate_from (length pre) l) in
    take start' structure = concat (map (λ s, s ++ [EOS]) ss') ∧
    (EOS ∉ drop start' structure) ∧ Forall (λ s, EOS ∉ s) ss'.
Proof.
  induction l as [|p l IH]; intros pre start ss sg Hst Hle Htake Hno Hss.
  - simpl. rewrite app_nil_r in Hst. by subst.
  - cbn [enumerate_from foldl]. unfold split_step at 2.
    assert (Hst' : structure = (pre ++ [p]) ++ l) by by rewrite <- app_assoc.
    assert (Hlen : S (length pre) = length (pre ++ [p])).
    { rewrite length_app. simpl. lia. }
    rewrite Hlen. destruct (decide (p = EOS)) as [->|Hp].
    + assert (Hsentence : take (length pre - start) (drop start structure) = drop start pre).
      { rewrite Hst at 1. rewrite drop_app_le by done.
        rewrite take_app_length'; [done|]. by rewrite length_drop. }
      rewrite Hsentence.
      replace (length pre + 1) with (length (pre ++ [EOS])) by (rewrite <- Hlen; lia).
      apply IH; [done|done| | |].
      * rewrite map_app, concat_app. simpl. rewrite app_nil_r, <- Htake.
        rewrite Hst' at 1. rewrite take_app_length.
        rewrite Hst at 1. rewrite take_app_le by done.
        by rewrite app_assoc, take_drop.
      * rewrite drop_all. apply not_elem_of_nil.
      * apply Forall_app. split; [done|]. by repeat constructor.
    + apply IH; [done| rewrite <- Hlen; lia |done| |done].
      rewrite drop_app_le by done. rewrite elem_of_app.
      intros [?|Hin]; [done|]. apply list_elem_of_singleton in Hin. congruence.
Qed.

Lemma split_join (structure : list PosEnum) :
  ∃ tail,
    structure = concat (map (λ s, s ++ [EOS]) (_split_sentences structure).1) ++ tail ∧
    (EOS ∉ tail) ∧
    Forall (λ s, EOS ∉ s) (_split_sentences structure).1.
Proof.
  pose proof (split_join_from structure structure [] 0 [] [] eq_refl) as Hjoin.
  unfold _split_sentences, enumerate in *. simpl in Hjoin.
  destruct (foldl _ _ _) as [[start ss] sg]. simpl in *.
  destruct Hjoin as (Htake & Hno & Hss);
    [lia | by rewrite take_0 | apply not_elem_of_nil | constructor |].
  exists (drop start structure). rewrite <- Htake, take_drop. done.
Qed.

(** X10: the sentences are the stretches of the skeleton between the EOS
    tags.  The skeleton is its sentences, each followed by EOS, and then a
    rest without EOS that belongs to no sentence; no sentence holds an EOS,
    and the result arrays are all blank with the shape of the sentences. *)
Theorem split_sentences_join (structure : list PosEnum) :
  ∃ tail,
    structure = concat (map (λ s, s ++ [EOS]) (_split_sentences structure).1) ++ tail ∧
    (EOS ∉ tail) ∧
    Forall (λ s, EOS ∉ s) (_split_sentences structure).1 ∧
    (_split_sentences structure).2
    = map (λ s : list PosEnum, replicate (length s) None) (_split_sentences structure).1.
Proof.
  destruct (split_join structure) as (tail & Heq & Hno & Hss).
  exists tail. repeat split; [done..|]. apply split_shape.
Qed.

(** *** The order of the subjects *)

Lemma filter_pos_filter_pos (subjects : list MarkovWord) (p q : PosEnum) :
  filter (λ subject, pos subject = p) (filter (λ subject, pos subject = q) subjects)
  = if decide (q = p) then filter (λ subject, pos subject = p) subjects else [].
Proof.
  induction subjects as [|w ws IHw]; [by case_decide|].
  rewrite (filter_cons _ w ws). destruct (decide (pos w = q)) as [Hw|Hw].
  - rewrite filter_cons, IHw. destruct (decide (q = p)) as [->|Hq].
    + by rewrite decide_True, filter_cons, decide_True by done.
    + by rewrite decide_False by congruence.
  - rewrite IHw. destruct (decide (q = p)) as [->|Hq]; [|done].
    by rewrite filter_cons, decide_False by done.
Qed.

Lemma filter_pos_flat_map (subjects : list MarkovWord) (p : PosEnum) (qs : list PosEnum) :
  filter (λ subject, pos subject = p)
         (flat_map (λ q, filter (λ subject, pos subject = q) subjects) qs)
  = flat_map (λ q, if decide (q = p) then filter (λ subject, pos subject = p) subjects
                   else []) qs.
Proof.
  induction qs as [|q qs IH]; simpl; [done|].
  by rewrite filter_app, IH, filter_pos_filter_pos.
Qed.

(** X11: [_sort_subjects] keeps exactly the subjects whose pos is in the
    priority list (the others are dropped), and among the subjects of one
    pos the first of the given list stays the first. *)
Theorem sort_subjects_spec (subjects : list MarkovWord) :
  (∀ w, w ∈ _sort_subjects subjects ↔
        w ∈ subjects ∧ pos w ∈ MARKOV_GENERATE_SUBJECT_POS_PRIORITY) ∧
  (∀ p, first_subject (_sort_subjects subjects) p
        = if decide (p ∈ MARKOV_GENERATE_SUBJECT_POS_PRIORITY)
          then first_subject subjects p else None).
Proof.
  split.
  - intros w. unfold _sort_subjects. rewrite list_elem_of_In, in_flat_map. split.
    + intros (q & Hq & Hin). apply list_elem_of_In, list_elem_of_filter in Hin as [Hp Hin].
      split; [done|]. rewrite Hp. by apply list_elem_of_In.
    + intros [Hin Hp]. exists (pos w). split; [by apply list_elem_of_In|].
      apply list_elem_of_In, list_elem_of_filter. done.
  - intros p. unfold first_subject, _sort_subjects. rewrite filter_pos_flat_map.
    induction MARKOV_GENERATE_SUBJECT_POS_PRIORITY as [|q qs IH]; simpl.
    + done.
    + destruct (decide (q = p)) as [->|Hq].
      * rewrite decide_True by apply list_elem_of_here.
        destruct (filter (λ subject, pos subject = p) subjects) as [|w ws] eqn:Hf.
        -- simpl. rewrite IH. by case_decide.
        -- done.
      * simpl. rewrite IH. destruct (decide (p ∈ qs)) as [Hin|Hin].
        -- rewrite decide_True; [done|]. by apply list_elem_of_further.
        -- rewrite decide_False; [done|]. rewrite elem_of_cons. intros [?|?]; congruence.
Qed.

(** *** What the generator returns *)

Lemma sort_subjects_pos subjects w :
  w ∈ _sort_subjects subjects → pos w ∈ MARKOV_GENERATE_SUBJECT_POS_PRIORITY.
Proof.
  unfold _sort_subjects. intros Hin.
  apply list_elem_of_In, in_flat_map in Hin as (q & Hq & Hin).
  apply list_elem_of_In, list_elem_of_filter in Hin as [-> _]. by apply list_elem_of_In.
Qed.

(** X12: in a board that [generate] returns, a slot whose tag is the pos of
    a subject (with a pos of the priority list) holds the first such
    subject: the fill loop never replaces the words placed by the
    assignment; every other slot holds a word stored in the trie. *)
Theorem generate_result_words fuel h db g structure subjects board n :
  generate fuel h db g structure subjects = Returned (Some board) n →
  Forall2 (Forall2 (λ p slot,
             match first_subject (_sort_subjects subjects) p with
             | Some subject => slot = Some subject
             | None => ∃ w, slot = Some w ∧ w ∈ trie_words db
             end))
          (_split_sentences structure).1 board.
Proof.
  intros Hgen.
  set (slot_ok := λ (p : PosEnum) (slot : option MarkovWord),
         match first_subject (_sort_subjects subjects) p with
         | Some subject => slot = Some subject
         | None => ∀ w, slot = Some w → w ∈ trie_words db
         end).
  rewrite generate_unfold in Hgen. unfold _generate_words in Hgen.
  rewrite assign_subjects_board in Hgen. simpl in Hgen.
  set (ss := (_split_sentences structure).1) in *.
  assert (Hinv : Forall2 (Forall2 slot_ok) ss board).
  { eapply (generate_loop_inv h db ss (Forall2 (Forall2 slot_ok) ss)); [| |exact Hgen].
    - intros b s sentence i blank_pos j w key row Hb Hs Hi Hpos _ _ _.
      apply lookup2_Some in Hpos as (tags & Htags & Htag).
      rewrite (set2_lookup _ _ _ _ _ Hs).
      rewrite <- (list_insert_id ss s tags Htags).
      apply Forall2_insert; [done|].
      rewrite <- (list_insert_id tags i blank_pos Htag).
      apply Forall2_insert.
      { by eapply Forall2_lookup_lr. }
      assert (Hold : slot_ok blank_pos None).
      { pose proof (Forall2_lookup_lr _ _ _ _ _ _ Hb Htags Hs) as Hrow.
        exact (Forall2_lookup_lr _ _ _ _ _ _ Hrow Htag Hi). }
      unfold slot_ok in *.
      destruct (first_subject (_sort_subjects subjects) blank_pos); [done|].
      intros w' Hsel. by eapply select_trie_words.
    - cbn [snd]. apply Forall2_fmap_r, Forall_Forall2_diag, Forall_forall.
      intros tags _. apply Forall2_fmap_r, Forall_Forall2_diag, Forall_forall.
      intros p _. unfold slot_ok, compose.
      by destruct (first_subject (_sort_subjects subjects) p). }
  apply generate_loop_full, blanks_zero in Hgen.
  eapply Forall2_Forall_r; [exact Hinv | exact Hgen |].
  intros tags sentence Hrow Hfull. simpl in *.
  eapply Forall2_Forall_r; [exact Hrow | exact Hfull |].
  intros p slot Hok [w ->]. unfold slot_ok in Hok.
  destruct (first_subject (_sort_subjects subjects) p); [done|].
  exists w. split; [done|]. by apply Hok.
Qed.

(** a scan of a sentence without a word finds nothing to project from *)
Lemma scan_all_blank (ws : list (nat * option MarkovWord)) :
  ∀ b0, Forall (λ e, e.2 = None) ws → (scan ws b0).2 = [].
Proof.
  induction ws as [|[i [w|]] ws IH]; intros b0 Hws; simpl; [done| |].
  - by inversion Hws.
  - apply IH. by inversion Hws.
Qed.

Lemma handle_projections_nothing h db ss s L blank st :
  handle_projections h db ss s L blank [] st = Some st.
Proof. unfold handle_projections. by destruct blank. Qed.

Lemma fill_sentence_all_blank h db ss st s sentence :
  st.2 !! s = Some sentence → Forall (λ slot, slot = None) sentence →
  fill_sentence h db ss st s = Some st.
Proof.
  intros Hs Hblank. unfold fill_sentence. rewrite Hs. simpl.
  assert (Hscan : ∀ ws : list (nat * option MarkovWord),
            (∀ j x, (j, x) ∈ ws → sentence !! j = Some x) → (scan ws None).2 = []).
  { intros ws Hws. apply scan_all_blank, Forall_forall. intros [j x] Hin. simpl.
    rewrite Forall_forall in Hblank. apply Hblank.
    eapply list_elem_of_lookup_2. by apply Hws. }
  pose proof (Hscan (enumerate sentence) (enumerate_elem sentence)) as H1.
  destruct (scan (enumerate sentence) None) as [blank pj]. simpl in H1. subst pj.
  rewrite handle_projections_nothing. simpl. rewrite Hs. simpl.
  pose proof (Hscan (enumerate_reversed sentence) (enumerate_reversed_elem sentence)) as H2.
  destruct (scan (enumerate_reversed sentence) None) as [blank' pj']. simpl in H2. subst pj'.
  apply handle_projections_nothing.
Qed.

Lemma fill_pass_all_blank h db ss st (l : list nat) :
  Forall (Forall (λ slot, slot = None)) st.2 → Forall (λ s, s < length st.2) l →
  foldM (fill_sentence h db ss) st l = Some st.
Proof.
  intros Hblank. induction l as [|s l IH]; intros Hl; simpl; [done|].
  inversion Hl as [|? ? Hs Hl']; subst.
  apply lookup_lt_is_Some_2 in Hs as [sentence Hs].
  rewrite (fill_sentence_all_blank h db ss st s sentence Hs).
  - by apply IH.
  - rewrite Forall_forall in Hblank. by eapply Hblank, list_elem_of_lookup_2.
Qed.

Lemma split_tags_elem (structure s : list PosEnum) (p : PosEnum) :
  s ∈ (_split_sentences structure).1 → p ∈ s → p ∈ structure.
Proof.
  intros Hs Hp. destruct (split_join structure) as (tail & Heq & _).
  rewrite Heq. apply elem_of_app. left.
  apply list_elem_of_In, in_concat. exists (s ++ [EOS]). split.
  - apply in_map_iff. exists s. split; [done|]. by apply list_elem_of_In.
  - apply list_elem_of_In, elem_of_app. by left.
Qed.

(** X13: when no tag of the skeleton is the pos of a subject that has a pos
    of the priority list, nothing is placed by the assignment, the first
    pass of the fill loop finds no word to project from, and [generate]
    returns [None] after that one pass. *)
Theorem generate_without_match fuel h db g structure subjects :
  (∀ w, w ∈ subjects → pos w ∈ MARKOV_GENERATE_SUBJECT_POS_PRIORITY →
        pos w ∉ structure) →
  generate (S fuel) h db g structure subjects = Returned None 1.
Proof.
  intros Hno. rewrite generate_unfold. unfold _generate_words.
  rewrite assign_subjects_board.
  set (board := map (map (first_subject (_sort_subjects subjects)))
                    (_split_sentences structure).1).
  assert (Hblank : Forall (Forall (λ slot : option MarkovWord, slot = None)) board).
  { unfold board. apply Forall_forall. intros row Hrow.
    change (map ?f ?l) with (f <$> l) in Hrow.
    apply list_elem_of_fmap in Hrow as (tags & -> & Htags).
    apply Forall_forall. intros slot Hslot.
    change (map ?f ?l) with (f <$> l) in Hslot.
    apply list_elem_of_fmap in Hslot as (p & -> & Hp).
    destruct (first_subject (_sort_subjects subjects) p) as [w|] eqn:Hfirst; [|done].
    apply first_subject_Some in Hfirst as [Hpos Hin].
    exfalso. apply (Hno w).
    - by apply sort_subjects_elem.
    - by apply (sort_subjects_pos subjects).
    - rewrite Hpos. by eapply split_tags_elem. }
  simpl. rewrite (fill_pass_all_blank h db _ (g, board)); [|done|].
  - simpl. by rewrite decide_True.
  - simpl. apply Forall_forall. intros s Hs. apply elem_of_seq in Hs. lia.
Qed.

(** *** The exceptions of the generator *)

(** a sampler that always returns the index of one of the probabilities *)
Definition sampler_in_range : Prop :=
  ∀ g (p : list Float), p ≠ [] →
    ∃ i g', np_random_choice g p = Some (i, g') ∧ i < length p.

(** the board has the shape of the sentences *)
Definition board_shape (ss : list (list PosEnum)) (b : Board) : Prop :=
  Forall2 (λ (tags : list PosEnum) (row : list (option MarkovWord)),
             length tags = length row) ss b.

(** the rows of a projection: one per key, each of the length of the sentence *)
Definition aligned (L : nat) (P : MarkovWordProjection) : Prop :=
  length (distances P) = length (keys P) ∧
  length (magnitudes P) = length (keys P) ∧
  Forall (λ row, length row = L) (distances P).

Lemma project_aligned h w i L p : aligned L (project h w i L p).
Proof.
  destruct (project_rows h w i L p) as (HD & HM & Hk & _). unfold aligned.
  rewrite HD, HM, Hk, !length_map. repeat split.
  apply Forall_forall. intros row Hrow. change (map ?f ?l) with (f <$> l) in Hrow.
  apply list_elem_of_fmap in Hrow as (n & -> & _).
  by rewrite foldl_row_step_length, length_replicate.
Qed.

Lemma length_concat_map {A B C} (f : A → list B) (g : A → list C) (l : list A) :
  Forall (λ x, length (f x) = length (g x)) l →
  length (concat (map f l)) = length (concat (map g l)).
Proof.
  induction 1 as [|x l Hx Hl IH]; simpl; [done|]. rewrite !length_app. congruence.
Qed.

Lemma collection_aligned L (ps : list MarkovWordProjection) :
  Forall (aligned L) ps → aligned L (MarkovWordProjectionCollection ps).
Proof.
  intros Hps. destruct (collection_fields ps) as (Hk & _ & Hm & Hd).
  unfold aligned. rewrite Hk, Hm, Hd. repeat split.
  - apply length_concat_map. eapply Forall_impl; [exact Hps|]. by intros P (? & ? & ?).
  - apply length_concat_map. eapply Forall_impl; [exact Hps|]. by intros P (? & ? & ?).
  - apply Forall_forall. intros row Hrow.
    apply list_elem_of_In, in_concat in Hrow as (rows & Hrows & Hrow).
    apply in_map_iff in Hrows as (P & <- & HP).
    rewrite Forall_forall in Hps. apply list_elem_of_In in HP.
    destruct (Hps P HP) as (_ & _ & Hlen). rewrite Forall_forall in Hlen.
    by apply Hlen, list_elem_of_In.
Qed.

Lemma foldl_zip_add_length L (rs : list (list Float)) :
  ∀ r, length r = L → Forall (λ row, length row = L) rs →
       length (foldl (zip_with float_add) r rs) = L.
Proof.
  induction rs as [|r' rs IH]; intros r Hr Hrs; simpl; [done|].
  inversion Hrs; subst. apply IH; [|done]. rewrite length_zip_with. lia.
Qed.

(** the matrix of probabilities has a row for each key of an aligned
    collection, of the length of the sentence *)
Lemma probability_matrix_shape L (c : MarkovWordProjection) :
  aligned L c →
  length (probability_matrix c) = length (keys c) ∧
  Forall (λ row, length row = L) (probability_matrix c).
Proof.
  intros (Hd & Hm & Hrows). unfold probability_matrix.
  set (dm := zip_with _ (distances c) (magnitudes c)).
  assert (Hdm : Forall (λ row, length row = L) dm).
  { apply Forall_forall. intros row Hrow. unfold dm in Hrow.
    apply elem_of_lookup_zip_with in Hrow as (k & drow & mrow & -> & Hdrow & _).
    rewrite length_map. rewrite Forall_forall in Hrows.
    by eapply Hrows, list_elem_of_lookup_2. }
  split.
  - rewrite length_map. unfold dm. rewrite length_zip_with. lia.
  - apply Forall_forall. intros row Hrow. change (map ?f ?l) with (f <$> l) in Hrow.
    apply list_elem_of_fmap in Hrow as (row' & -> & Hrow').
    rewrite length_zip_with.
    assert (Hrow'' : length row' = L).
    { rewrite Forall_forall in Hdm. by apply Hdm. }
    destruct dm as [|r rs]; [by apply not_elem_of_nil in Hrow'|].
    inversion Hdm as [|? ? Hr Hrs]; subst.
    rewrite (foldl_zip_add_length (length row')); [lia|done|done].
Qed.

(** the slots that a scan projects from hold a word *)
Lemma scan_project (ws : list (nat * option MarkovWord)) :
  ∀ b0 blank pj, scan ws b0 = (blank, pj) → ∀ j, j ∈ pj → ∃ w, (j, Some w) ∈ ws.
Proof.
  induction ws as [|[i [w|]] ws IH]; intros b0 blank pj Hscan j Hj; simpl in Hscan.
  - simplify_eq. by apply not_elem_of_nil in Hj.
  - destruct b0 as [b0|].
    + case_decide.
      * simplify_eq. apply list_elem_of_singleton in Hj as ->.
        exists w. apply list_elem_of_here.
      * destruct (IH _ _ _ Hscan j Hj) as [w' Hin]. exists w'.
        by apply list_elem_of_further.
    + destruct (IH _ _ _ Hscan j Hj) as [w' Hin]. exists w'.
      by apply list_elem_of_further.
  - destruct (IH _ _ _ Hscan j Hj) as [w' Hin]. exists w'.
    by apply list_elem_of_further.
Qed.

Lemma board_shape_set2 ss (b : Board) s i word :
  board_shape ss b → board_shape ss (set2 s i word b).
Proof.
  intros Hb. unfold set2. destruct (b !! s) as [row|] eqn:Hrow; [|done].
  destruct (Forall2_lookup_r _ _ _ _ _ Hb Hrow) as (tags & Htags & Hlen).
  unfold board_shape. rewrite <- (list_insert_id ss s tags Htags).
  apply Forall2_insert; [done|]. by rewrite length_insert.
Qed.

Lemma bind_Some_l {A B} (x : A) (f : A → option B) : Some x ≫= f = f x.
Proof. reflexivity. Qed.

(** with such a sampler [handle_projections] raises nothing *)
Lemma handle_projections_safe h db ss s tags blank pj st :
  sampler_in_range →
  board_shape ss st.2 → ss !! s = Some tags →
  (∀ b, blank = Some b → b < length tags) →
  (∀ j, j ∈ pj → ∃ w, st.2 !! s ≫= (.!! j) = Some (Some w)) →
  ∃ st', handle_projections h db ss s (length tags) blank pj st = Some st' ∧
         board_shape ss st'.2.
Proof.
  intros Hsampler Hshape Htags Hblank Hpj. unfold handle_projections.
  destruct blank as [b|]; [|by exists st].
  destruct pj as [|j0 pj]; [by exists st|].
  specialize (Hblank b eq_refl).
  destruct (lookup_lt_is_Some_2 tags b Hblank) as [blank_pos Hpos].
  assert (Hpos' : ss !! s ≫= (.!! b) = Some blank_pos) by by rewrite Htags.
  rewrite Hpos', bind_Some_l.
  set (f := λ word_idx : nat,
         mjoin (st.2 !! s ≫= (.!! word_idx)) ≫= λ projecting_word,
         Some (project h projecting_word word_idx (length tags) blank_pos)).
  assert (Hsome : is_Some (mapM f (j0 :: pj))).
  { apply mapM_is_Some, Forall_forall. intros j Hj.
    destruct (Hpj j Hj) as [w Hw]. unfold compose, f. rewrite Hw. simpl. by eexists. }
  destruct Hsome as [projections Hproj].
  change (mapM _ (j0 :: pj)) with (mapM f (j0 :: pj)). rewrite Hproj, bind_Some_l.
  assert (Hal : aligned (length tags) (MarkovWordProjectionCollection projections)).
  { apply collection_aligned. apply mapM_Some_1 in Hproj.
    apply Forall_forall. intros P HP.
    apply list_elem_of_lookup in HP as [k HP].
    destruct (Forall2_lookup_r _ _ _ _ _ Hproj HP) as (j & _ & Hf).
    unfold f in Hf. apply bind_Some in Hf as (w & _ & Hf). simplify_eq.
    apply project_aligned. }
  case_decide as Hempty; [by exists st|].
  destruct (probability_matrix_shape _ _ Hal) as [Hrows Hcols].
  assert (Hsome : is_Some (mapM (.!! b) (probability_matrix
                             (MarkovWordProjectionCollection projections)))).
  { apply mapM_is_Some. eapply Forall_impl; [exact Hcols|].
    intros row Hrow. unfold compose. simpl in Hrow. apply lookup_lt_is_Some_2. lia. }
  destruct Hsome as [p_values Hp]. rewrite Hp, bind_Some_l.
  apply length_mapM in Hp.
  destruct (Hsampler st.1 p_values) as (i & g' & Hchoice & Hi).
  { intros ->. simpl in Hp. lia. }
  rewrite Hchoice, bind_Some_l.
  destruct (lookup_lt_is_Some_2 (keys (MarkovWordProjectionCollection projections)) i)
    as [key Hkey]; [lia|].
  rewrite Hkey, bind_Some_l. eexists. split; [done|]. simpl. by apply board_shape_set2.
Qed.

Lemma fill_sentence_safe h db ss st s :
  sampler_in_range → board_shape ss st.2 → s < length st.2 →
  ∃ st', fill_sentence h db ss st s = Some st' ∧ board_shape ss st'.2.
Proof.
  intros Hsampler Hshape Hs. unfold fill_sentence.
  destruct (lookup_lt_is_Some_2 _ _ Hs) as [sentence Hsentence].
  rewrite Hsentence. simpl.
  destruct (Forall2_lookup_r _ _ _ _ _ Hshape Hsentence) as (tags & Htags & Hlen).
  rewrite <- Hlen.
  destruct (scan (enumerate sentence) None) as [blank pj] eqn:Hscan.
  destruct (handle_projections_safe h db ss s tags blank pj st) as (st1 & H1 & Hshape1);
    [done..| | |].
  { intros b ->. apply scan_blank in Hscan as [?|Hin]; [done|].
    apply enumerate_elem, lookup_lt_Some in Hin. lia. }
  { intros j Hj. destruct (scan_project _ _ _ _ Hscan j Hj) as [w Hin].
    exists w. apply enumerate_elem in Hin. by rewrite Hsentence. }
  rewrite H1. simpl.
  destruct (Forall2_lookup_l _ _ _ _ _ Hshape1 Htags) as (sentence1 & Hsentence1 & Hlen1).
  rewrite Hsentence1. simpl.
  destruct (scan (enumerate_reversed sentence1) None) as [blank' pj'] eqn:Hscan'.
  apply handle_projections_safe; [done..| |].
  { intros b ->. apply scan_blank in Hscan' as [?|Hin]; [done|].
    apply enumerate_reversed_elem, lookup_lt_Some in Hin. lia. }
  { intros j Hj. destruct (scan_project _ _ _ _ Hscan' j Hj) as [w Hin].
    exists w. apply enumerate_reversed_elem in Hin. by rewrite Hsentence1. }
Qed.

Lemma fill_pass_safe h db ss (l : list nat) :
  sampler_in_range → Forall (λ s, s < length ss) l →
  ∀ st, board_shape ss st.2 →
        ∃ st', foldM (fill_sentence h db ss) st l = Some st' ∧ board_shape ss st'.2.
Proof.
  intros Hsampler. induction 1 as [|s l Hs Hl IH]; intros st Hshape; simpl.
  - by exists st.
  - destruct (fill_sentence_safe h db ss st s) as (st1 & -> & Hshape1); [done..| |].
    + by rewrite <- (Forall2_length _ _ _ Hshape).
    + by apply IH.
Qed.

Lemma generate_loop_safe h db ss fuel :
  sampler_in_range →
  ∀ st old iters, board_shape ss st.2 → generate_loop fuel h db ss st old iters ≠ Raised.
Proof.
  intros Hsampler. induction fuel as [|fuel IH]; intros st old iters Hshape; [done|].
  simpl. destruct (fill_pass_safe h db ss (seq 0 (length st.2)) Hsampler) with (st := st)
    as (st' & -> & Hshape'); [|done|].
  { apply Forall_forall. intros s Hs. apply elem_of_seq in Hs.
    rewrite (Forall2_length _ _ _ Hshape). lia. }
  case_decide; [done|]. case_decide; [done|]. by apply IH.
Qed.

(** X14: with a sampler that always returns the index of one of the
    probabilities it is given, [generate] raises no exception: no index
    is out of range and no blank slot is projected from.  With fuel for
    the passes of the loop it returns a board or [None]. *)
Theorem generate_returns fuel h db g structure subjects :
  sampler_in_range →
  max 1 (initial_work structure subjects) ≤ fuel →
  ∃ result n, generate fuel h db g structure subjects = Returned result n.
Proof.
  intros Hsampler Hfuel. rewrite initial_work_blanks in Hfuel.
  rewrite generate_unfold. unfold _generate_words.
  set (ss := (_split_sentences structure).1) in *.
  set (st := (g, (_assign_subjects (_sort_subjects subjects) ss
                                   (_split_sentences structure).2).1)) in *.
  assert (Hshape : board_shape ss st.2).
  { unfold st, ss. cbn [snd]. rewrite assign_subjects_board.
    apply Forall2_fmap_r, Forall_Forall2_diag, Forall_forall.
    intros tags _. unfold compose. by rewrite length_map. }
  pose proof (generate_loop_safe h db ss fuel Hsampler st (_work_remaining st.2) 0 Hshape)
    as Hsafe.
  pose proof (generate_loop_bounded fuel h db ss st 0 Hfuel) as Hbound.
  rewrite work_remaining_blanks in *.
  destruct (generate_loop fuel h db ss st (blanks st.2) 0) as [result n| |];
    [by exists result, n | done | done].
Qed.

(** *** What training adds *)

(** the write at the end of the loop body of [learn]: [update], and
    [insert] when [update] returned [None] *)
Definition write_word (trie : TrieNode) (word : MarkovWord) : TrieNode :=
  match update trie word with
  | (t, Some _) => t
  | (t, None) => (insert t word).1
  end.

(** every word of the trie is found under its own text *)
Definition keyed (trie : TrieNode) : Prop :=
  ∀ key w, select trie key = Some w → select trie (text w) = Some w.

(** a store as training leaves it: good records, words that point into the
    heap and stand under their own text *)
Definition store_ok (db : Heap * TrieNode) : Prop :=
  heap_ok db.1 ∧ (∀ w, w ∈ trie_words db.2 → neighbors w < length db.1) ∧ keyed db.2.

(** the words of the row cache are those of the trie *)
Definition cache_ok (trie : TrieNode) (cache : list (string * MarkovWord)) : Prop :=
  ∀ k w, (k, w) ∈ cache → select trie k = Some w ∨ (k = "" ∧ text w = "").

(** the sum of the counts of all records *)
Definition dict_count (d : NeighborDict) : Z :=
  sum_list (map (λ kv : string * NeighborRow, COUNT (VALUE_MATRIX kv.2)) d).

(** the same over every dictionary of the heap, also one that no word
    refers to any more: a quantity of the proofs, see [store_count] *)
Definition total_count (h : Heap) : Z := sum_list (map dict_count h).

(** every record of [h] is in [h'], with its pos and rating and a count
    that is not smaller *)
Definition heap_grows (h h' : Heap) : Prop :=
  length h ≤ length h' ∧
  ∀ l key row, dict_get key (heap_get h l) = Some row →
    ∃ row', dict_get key (heap_get h' l) = Some row' ∧ POS row' = POS row ∧
            (COUNT (VALUE_MATRIX row) ≤ COUNT (VALUE_MATRIX row'))%Z ∧
            RATING (VALUE_MATRIX row') = RATING (VALUE_MATRIX row).

Definition trie_grows (trie trie' : TrieNode) : Prop :=
  ∀ key w, select trie key = Some w → select trie' key = Some w.

(** the pair of texts was observed: the word is found and has a record of
    the neighbor with a positive count *)
Definition recorded (h : Heap) (trie : TrieNode) (a b : string) : Prop :=
  ∃ w row, select trie a = Some w ∧
           dict_get b (heap_get h (neighbors w)) = Some row ∧
           (1 ≤ COUNT (VALUE_MATRIX row))%Z.

Lemma write_word_with_node trie word :
  write_word trie word = with_node (chars (text word)) (set_payload word) trie.
Proof.
  unfold write_word, update, insert, _update, _insert.
  destruct (_select trie (text word)); simpl; rewrite word_eta; [|done].
  destruct (walk_with_node (chars (text word)) word trie) as (node & -> & Hw).
  unfold from_db_format. by rewrite Hw.
Qed.

Lemma select_write_word trie word key :
  select (write_word trie word) key
  = if decide (String.length key = 0) then None
    else if decide (map lower (chars key) = map lower (chars (text word)))
         then Some word else select trie key.
Proof.
  rewrite write_word_with_node, !select_walk. case_decide; [done|].
  case_decide as Heq.
  - rewrite (walk_lowered _ _ _ Heq).
    destruct (walk_with_node (chars (text word)) word trie) as (node & -> & Hw).
    exact Hw.
  - apply walk_with_node_other. congruence.
Qed.

Lemma select_nonempty trie key w : select trie key = Some w → String.length key ≠ 0.
Proof. rewrite select_walk. by case_decide. Qed.

Lemma write_word_grows trie word :
  select trie (text word) = Some word ∨ select trie (text word) = None →
  trie_grows trie (write_word trie word).
Proof.
  intros Hfound key w Hsel. rewrite select_write_word.
  rewrite decide_False by by eapply select_nonempty.
  case_decide as Heq; [|done].
  rewrite (select_lowered _ _ _ Heq) in Hsel. destruct Hfound; congruence.
Qed.

Lemma write_word_keyed trie word :
  select trie (text word) = Some word ∨ select trie (text word) = None →
  keyed trie → keyed (write_word trie word).
Proof.
  intros Hfound Hk key w Hsel. pose proof (select_nonempty _ _ _ Hsel) as Hlen.
  rewrite select_write_word in Hsel. rewrite decide_False in Hsel by done.
  case_decide as Heq.
  - simplify_eq. rewrite select_write_word.
    assert (Hlen' : String.length (text w) ≠ 0).
    { rewrite string_length_chars in *.
      by rewrite <- (length_map lower), <- Heq, length_map. }
    by rewrite decide_False, decide_True by done.
  - apply write_word_grows; [done|]. by apply (Hk key).
Qed.

Lemma heap_grows_refl h : heap_grows h h.
Proof. split; [done|]. intros l key row Hrow. exists row. repeat split; [done|lia]. Qed.

Lemma heap_grows_trans h1 h2 h3 : heap_grows h1 h2 → heap_grows h2 h3 → heap_grows h1 h3.
Proof.
  intros [Hl12 H12] [Hl23 H23]. split; [lia|]. intros l key row Hrow.
  destruct (H12 _ _ _ Hrow) as (row2 & Hrow2 & Hp2 & Hc2 & Hr2).
  destruct (H23 _ _ _ Hrow2) as (row3 & Hrow3 & Hp3 & Hc3 & Hr3).
  exists row3. repeat split; [done|congruence|lia|congruence].
Qed.

Lemma recorded_grows h trie h' trie' a b :
  recorded h trie a b → heap_grows h h' → trie_grows trie trie' → recorded h' trie' a b.
Proof.
  intros (w & row & Hw & Hrow & Hc) [_ Hh] Ht.
  destruct (Hh _ _ _ Hrow) as (row' & Hrow' & _ & Hc' & _).
  exists w, row'. repeat split; [by apply Ht | done | lia].
Qed.

Lemma sum_list_app (a b : list Z) : sum_list (a ++ b) = (sum_list a + sum_list b)%Z.
Proof. induction a as [|x a IH]; simpl; [done|]. rewrite IH. lia. Qed.

Lemma dict_count_set key row (d : list (string * NeighborRow)) :
  dict_count (dict_set key row d)
  = (dict_count d + COUNT (VALUE_MATRIX row)
     - match dict_get key d with Some r => COUNT (VALUE_MATRIX r) | None => 0 end)%Z.
Proof.
  unfold dict_count. induction d as [|[k v] d IH]; simpl; [lia|].
  destruct (decide (k = key)); simpl; [lia|]. rewrite IH. lia.
Qed.

Lemma total_count_insert (h : list (list (string * NeighborRow))) :
  ∀ l d, l < length h →
         total_count (<[l := d]> h)
         = (total_count h - dict_count (heap_get h l) + dict_count d)%Z.
Proof.
  unfold total_count, heap_get.
  induction h as [|d0 h IH]; intros [|l] d Hl; simpl in *; try lia.
  rewrite IH by lia. lia.
Qed.

(** the loop body of [learn], read off its result *)
Lemma learn_ngram_Some h trie cache a b d st' :
  learn_ngram (h, trie, cache) (a, b, d) = Some st' →
  ∃ h1 word row',
    ((h1 = h ∧ (dict_get (tok_text a) cache = Some word ∨
                select trie (tok_text a) = Some word)) ∨
     (select trie (tok_text a) = None ∧ h1 = h ++ [[]] ∧
      word = {| text := tok_text a; pos := tok_pos a; neighbors := length h |})) ∧
    match dict_get (tok_text b) (heap_get h1 (neighbors word)) with
    | Some row =>
        POS row' = POS row ∧
        COUNT (VALUE_MATRIX row') = (COUNT (VALUE_MATRIX row) + 1)%Z ∧
        RATING (VALUE_MATRIX row') = RATING (VALUE_MATRIX row)
    | None =>
        POS row' = tok_pos b ∧ COUNT (VALUE_MATRIX row') = 1%Z ∧
        RATING (VALUE_MATRIX row') = 0%Z
    end ∧
    st' = (heap_set h1 (neighbors word)
                    (dict_set (tok_text b) row' (heap_get h1 (neighbors word))),
           write_word trie word, dict_set (tok_text a) word cache).
Proof.
  unfold learn_ngram.
  set (found := match dict_get (tok_text a) cache with
                | Some word => (h, word)
                | None => match select trie (tok_text a) with
                          | Some word => (h, word)
                          | None => MarkovWord_from_token h a
                          end
                end).
  assert (Hfound :
    (found.1 = h ∧ (dict_get (tok_text a) cache = Some found.2 ∨
                    select trie (tok_text a) = Some found.2)) ∨
    (select trie (tok_text a) = None ∧ found.1 = h ++ [[]] ∧
     found.2 = {| text := tok_text a; pos := tok_pos a; neighbors := length h |})).
  { unfold found. destruct (dict_get (tok_text a) cache) as [word|]; simpl.
    - left. split; [done|]. by left.
    - destruct (select trie (tok_text a)) as [word|]; simpl.
      + left. split; [done|]. by right.
      + by right. }
  destruct found as [h1 word]. simpl in Hfound. intros Hl.
  apply bind_Some in Hl as (hot & _ & Hl).
  apply bind_Some in Hl as (dist & _ & Hl).
  unfold to_db_format in Hl. cbn [nb_text nb_pos nb_values nb_dist] in Hl.
  injection Hl as <-.
  unfold get_neighbor.
  destruct (dict_get (tok_text b) (heap_get h1 (neighbors word))) as [row|] eqn:Hrow.
  - eexists h1, word, _. split; [exact Hfound|]. rewrite Hrow. split; [|reflexivity].
    done.
  - eexists h1, word, _. split; [exact Hfound|]. rewrite Hrow. split; [|reflexivity].
    done.
Qed.

(** a store on which [learn] can work: records with a histogram of the
    right length and a count that is not negative, words that point into
    the heap and stand under their own text *)
Definition store_shape (db : Heap * TrieNode) : Prop :=
  Forall (Forall (λ kv : string * NeighborRow, neighbor_shape kv.2)) db.1 ∧
  (∀ w, w ∈ trie_words db.2 → neighbors w < length db.1) ∧ keyed db.2.

(** the sum of the counts of the records of the words of the trie *)
Definition store_count (h : Heap) (trie : TrieNode) : Z :=
  sum_list (map (λ w, dict_count (heap_get h (neighbors w))) (trie_words trie)).

(** every dictionary of the heap belongs to exactly one word of the trie *)
Definition one_word_each (h : Heap) (trie : TrieNode) : Prop :=
  map neighbors (trie_words trie) ≡ₚ seq 0 (length h).

Lemma dict_set_id {Key Val} `{EqDecision Key} (k : Key) (v : Val) d :
  dict_get k d = Some v → dict_set k v d = d.
Proof.
  induction d as [|[k' v'] d IH]; simpl; [done|].
  destruct (decide (k' = k)) as [->|Hne].
  - by intros [= ->].
  - intros Hget. by rewrite IH.
Qed.

(** a payload written over itself leaves the trie as it is *)
Lemma with_node_same (cs : list ascii) (w : MarkovWord) :
  ∀ node n : TrieNode,
    walk cs node = Some n → node_payload n = Some w →
    with_node cs (set_payload w) node = node.
Proof.
  induction cs as [|c cs IH]; intros [p ch] n Hwalk Hw; simpl in *.
  - simplify_eq. simpl in Hw. by subst.
  - destruct (dict_get (lower c) ch) as [child|] eqn:Hc; [|done]. simpl.
    rewrite (IH child n Hwalk Hw). by rewrite dict_set_id.
Qed.

Lemma flat_map_words_dict_set (k : ascii) (child' : TrieNode) (w : MarkovWord)
    (ch : list (ascii * TrieNode)) :
  trie_words child' ≡ₚ w :: trie_words (default empty_trie (dict_get k ch)) →
  flat_map (λ kv : ascii * TrieNode, let '(_, child) := kv in trie_words child)
           (dict_set k child' ch)
  ≡ₚ w :: flat_map (λ kv : ascii * TrieNode, let '(_, child) := kv in trie_words child) ch.
Proof.
  induction ch as [|[k' v'] ch IH]; simpl; intros Hchild.
  - by rewrite app_nil_r.
  - destruct (decide (k' = k)) as [->|Hne]; simpl.
    + by rewrite Hchild.
    + rewrite (IH Hchild). symmetry. apply Permutation_middle.
Qed.

(** a payload written where there was none is one more word *)
Lemma with_node_new (cs : list ascii) (w : MarkovWord) :
  ∀ node : TrieNode,
    walk cs node ≫= node_payload = None →
    trie_words (with_node cs (set_payload w) node) ≡ₚ w :: trie_words node.
Proof.
  induction cs as [|c cs IH]; intros [p ch] Hnone; simpl in *.
  - by subst.
  - rewrite flat_map_words_dict_set; [symmetry; apply Permutation_middle|].
    apply IH. destruct (dict_get (lower c) ch) as [child|]; [done|].
    apply walk_empty_trie.
Qed.

Lemma write_word_same trie word :
  select trie (text word) = Some word → write_word trie word = trie.
Proof.
  intros Hsel. rewrite write_word_with_node.
  rewrite select_walk in Hsel. case_decide; [done|].
  destruct (walk (chars (text word)) trie) as [n|] eqn:Hwalk; [|done].
  by eapply with_node_same.
Qed.

Lemma write_word_new trie word :
  select trie (text word) = None → text word ≠ "" →
  trie_words (write_word trie word) ≡ₚ word :: trie_words trie.
Proof.
  intros Hsel Hne. rewrite write_word_with_node. apply with_node_new.
  rewrite select_walk in Hsel. case_decide as Hlen; [|done].
  by destruct (text word).
Qed.

Lemma sum_list_Permutation (a b : list Z) : a ≡ₚ b → sum_list a = sum_list b.
Proof. induction 1; simpl; lia. Qed.

Lemma store_count_total h trie :
  one_word_each h trie → store_count h trie = total_count h.
Proof.
  intros Hperm. unfold store_count, total_count.
  assert (map (λ w, dict_count (heap_get h (neighbors w))) (trie_words trie)
          = map (λ l, dict_count (heap_get h l)) (map neighbors (trie_words trie))) as ->
    by by rewrite map_map.
  rewrite (sum_list_Permutation _ _ (Permutation_map _ Hperm)). f_equal.
  clear Hperm. unfold heap_get. induction h as [|d h IH] using rev_ind; [done|].
  rewrite length_app, Nat.add_1_r, seq_S, !map_app. simpl.
  rewrite lookup_app_r, Nat.sub_diag by done. simpl. f_equal.
  rewrite <- IH. apply map_ext_in. intros l Hl. apply in_seq in Hl.
  by rewrite lookup_app_l by lia.
Qed.

(** one n-gram: the store keeps its shape, nothing is lost, the counts
    grow by one in all, and the pair is recorded *)
Lemma learn_ngram_grows h trie cache a b d :
  learn_inv neighbor_shape (h, trie, cache) → keyed trie → cache_ok trie cache →
  ngram_in_window (a, b, d) →
  ∃ h' trie' cache',
    learn_ngram (h, trie, cache) (a, b, d) = Some (h', trie', cache') ∧
    learn_inv neighbor_shape (h', trie', cache') ∧ keyed trie' ∧ cache_ok trie' cache' ∧
    heap_grows h h' ∧ trie_grows trie trie' ∧
    total_count h' = (total_count h + 1)%Z ∧
    (tok_text a ≠ "" → recorded h' trie' (tok_text a) (tok_text b)) ∧
    (tok_text a ≠ "" → one_word_each h trie → one_word_each h' trie').
Proof.
  intros Hinv Hkeyed Hcache Hwin.
  destruct (learn_ngram_shape _ _ Hinv Hwin) as ([[h' trie'] cache'] & Hl & Hinv').
  exists h', trie', cache'. split; [done|]. split; [done|].
  apply learn_ngram_Some in Hl as (h1 & word & row' & Hfound & Hrow' & Hst).
  injection Hst as -> -> ->.
  destruct Hinv as (Hheap & Htrie & Hcachein). simpl in Hheap, Htrie, Hcachein.
  (* the word that is written *)
  assert (Hword : select trie (text word) = Some word ∨ select trie (text word) = None).
  { destruct Hfound as [[_ [Hc|Hs]]|(Hs & _ & ->)].
    - apply dict_get_Some_elem, Hcache in Hc as [Hs|[_ ->]]; [|by right].
      left. by apply (Hkeyed (tok_text a)).
    - left. by apply (Hkeyed (tok_text a)).
    - by right. }
  assert (Hloc : neighbors word < length h1 ∧ length h ≤ length h1 ∧
                 (∀ l, l < length h → heap_get h1 l = heap_get h l) ∧
                 total_count h1 = total_count h ∧
                 Forall (Forall (λ kv : string * NeighborRow, neighbor_shape kv.2)) h1).
  { destruct Hfound as [[-> [Hc|Hs]]|(Hs & -> & ->)].
    - repeat split; [|done..]. apply dict_get_Some_elem in Hc. by eapply Hcachein.
    - repeat split; [|done..]. by eapply Htrie, select_trie_words.
    - rewrite length_app. simpl. repeat split; [lia|lia| | |].
      + intros l Hl. unfold heap_get. by rewrite lookup_app_l.
      + unfold total_count. rewrite map_app, sum_list_app. simpl.
        unfold dict_count. simpl. lia.
      + apply Forall_app. split; [done|]. repeat constructor. }
  destruct Hloc as (Hloc & Hlen & Hsame & Htotal & Hheap1).
  assert (Hselect : tok_text a ≠ "" → select (write_word trie word) (tok_text a) = Some word).
  { intros Hne.
    assert (Hlen' : String.length (tok_text a) ≠ 0) by by destruct (tok_text a).
    destruct Hfound as [[_ [Hc|Hs]]|(Hs & _ & ->)].
    - apply dict_get_Some_elem, Hcache in Hc as [Hs|[? _]]; [|done].
      by apply write_word_grows.
    - by apply write_word_grows.
    - rewrite select_write_word. simpl. by rewrite decide_False, decide_True by done. }
  assert (Hold : ∀ row, dict_get (tok_text b) (heap_get h1 (neighbors word)) = Some row →
                        (0 ≤ COUNT (VALUE_MATRIX row))%Z).
  { intros row Hrow. apply dict_get_Some_elem in Hrow.
    pose proof (heap_all_get _ h1 (neighbors word) Hheap1) as Hd.
    rewrite Forall_forall in Hd. by destruct (Hd _ Hrow) as (_ & _ & Hcount). }
  split; [by apply write_word_keyed|]. split; [|split; [|split; [|split; [|split]]]].
  - (* the cache *)
    intros k w Hin. apply dict_set_elem in Hin as [[-> ->]|Hin].
    + destruct (decide (tok_text a = "")) as [Hempty|Hne]; [|left; by apply Hselect].
      destruct Hfound as [[_ [Hc|Hs]]|(Hs & _ & ->)].
      * apply dict_get_Some_elem, Hcache in Hc as [Hs|[_ ?]]; [|by right].
        left. by apply write_word_grows.
      * left. by apply write_word_grows.
      * by right.
    + destruct (Hcache _ _ Hin) as [Hs|?]; [left|by right]. by apply write_word_grows.
  - (* the heap *)
    split; [unfold heap_set; rewrite length_insert; lia|].
    intros l key row Hrow.
    assert (Hl : l < length h).
    { destruct (decide (l < length h)); [done|]. unfold heap_get in Hrow.
      rewrite lookup_ge_None_2 in Hrow by lia. done. }
    rewrite <- Hsame in Hrow by done. rewrite heap_get_set.
    case_decide as Hhere; [|exists row; repeat split; [done|lia]].
    destruct Hhere as [<- _].
    destruct (decide (key = tok_text b)) as [->|Hne].
    + rewrite dict_get_set_eq. rewrite Hrow in Hrow'.
      destruct Hrow' as (Hp & Hc & Hr). exists row'. repeat split; [done|lia|done].
    + rewrite dict_get_set_ne by done. exists row. repeat split; [done|lia].
  - by apply write_word_grows.
  - unfold heap_set. rewrite total_count_insert by done.
    rewrite dict_count_set, <- Htotal.
    destruct (dict_get (tok_text b) (heap_get h1 (neighbors word)));
      destruct Hrow' as (_ & -> & _); lia.
  - intros Hne. exists word, row'. split; [by apply Hselect|].
    rewrite heap_get_set, decide_True by done. rewrite dict_get_set_eq.
    split; [done|].
    destruct (dict_get (tok_text b) (heap_get h1 (neighbors word))) as [row|] eqn:Hrow;
      destruct Hrow' as (_ & -> & _); [|lia].
    specialize (Hold row eq_refl). lia.
  - (* the dictionaries and the words *)
    intros Hne Hperm. unfold one_word_each, heap_set in *. rewrite length_insert.
    destruct Hfound as [[-> [Hc|Hs]]|(Hs & -> & ->)].
    + apply dict_get_Some_elem, Hcache in Hc as [Hs|[? _]]; [|done].
      rewrite write_word_same; [done|]. by apply (Hkeyed (tok_text a)).
    + rewrite write_word_same; [done|]. by apply (Hkeyed (tok_text a)).
    + pose proof (write_word_new trie
                    {| text := tok_text a; pos := tok_pos a; neighbors := length h |}
                    Hs Hne) as Hnew.
      rewrite (Permutation_map neighbors Hnew).
      rewrite length_app, Nat.add_1_r, seq_S. simpl.
      rewrite Hperm. apply Permutation_cons_append.
Qed.

Lemma learn_ngrams_grows (gs : list Ngram) :
  ∀ h trie cache,
    learn_inv neighbor_shape (h, trie, cache) → keyed trie → cache_ok trie cache →
    Forall ngram_in_window gs →
    ∃ h' trie' cache',
      foldM learn_ngram (h, trie, cache) gs = Some (h', trie', cache') ∧
      learn_inv neighbor_shape (h', trie', cache') ∧ keyed trie' ∧ cache_ok trie' cache' ∧
      heap_grows h h' ∧ trie_grows trie trie' ∧
      total_count h' = (total_count h + Z.of_nat (length gs))%Z ∧
      (∀ a b d, (a, b, d) ∈ gs → tok_text a ≠ "" →
                recorded h' trie' (tok_text a) (tok_text b)) ∧
      (Forall (λ g : Ngram, tok_text g.1.1 ≠ "") gs →
       one_word_each h trie → one_word_each h' trie').
Proof.
  induction gs as [|[[a b] d] gs IH]; intros h trie cache Hinv Hkeyed Hcache Hgs.
  - exists h, trie, cache. simpl. split_and!; [done..| | | | |done].
    + apply heap_grows_refl.
    + by intros key w Hsel.
    + lia.
    + intros a b d Hin. by apply not_elem_of_nil in Hin.
  - inversion Hgs as [|? ? Hg Hgs']; subst.
    destruct (learn_ngram_grows h trie cache a b d Hinv Hkeyed Hcache Hg)
      as (h1 & trie1 & cache1 & Hl & Hinv1 & Hkeyed1 & Hcache1 & Hh1 & Ht1 & Hc1
          & Hrec1 & Hone1).
    destruct (IH h1 trie1 cache1 Hinv1 Hkeyed1 Hcache1 Hgs')
      as (h' & trie' & cache' & Hl' & Hinv' & Hkeyed' & Hcache' & Hh' & Ht' & Hc'
          & Hrec' & Hone').
    exists h', trie', cache'. cbn [foldM]. rewrite Hl. split_and!; [done..| | | | |].
    + by eapply heap_grows_trans.
    + intros key w Hsel. by apply Ht', Ht1.
    + rewrite Hc', Hc1. simpl length. lia.
    + intros a' b' d' Hin Hne. apply elem_of_cons in Hin as [Heq|Hin].
      * simplify_eq. eapply recorded_grows; [by apply Hrec1 | done | done].
      * by eapply Hrec'.
    + intros Htexts Hone. inversion Htexts as [|? ? Ha Htexts']; subst. simpl in Ha.
      by apply Hone', Hone1.
Qed.

Lemma store_ok_empty : store_ok ([], empty_trie).
Proof.
  repeat split; simpl.
  - constructor.
  - intros w Hin. by apply not_elem_of_nil in Hin.
  - intros key w Hsel. rewrite select_walk in Hsel. case_decide; [done|].
    by rewrite walk_empty_trie in Hsel.
Qed.

Lemma store_ok_shape (db : list (list (string * NeighborRow)) * TrieNode) :
  store_ok db → store_shape db.
Proof.
  intros (Hheap & Hlocs & Hkeyed). split_and!; [|done..].
  eapply Forall_impl; [exact Hheap|]. intros dict Hdict.
  eapply Forall_impl; [exact Hdict|]. intros kv. apply neighbor_ok_shape.
Qed.

(** the first token of an n-gram is a token of the sentence *)
Lemma ngramify_first (span : list Token) (g : Ngram) : g ∈ ngramify span → g.1.1 ∈ span.
Proof.
  unfold ngramify. intros Hin.
  apply list_elem_of_In, in_flat_map in Hin as ([i a] & Ha & Hin).
  apply in_flat_map in Hin as ([j b] & _ & Hin). simpl in Hin.
  case_decide; [done|]. case_decide; [|done]. destruct Hin as [<-|[]]. simpl.
  apply list_elem_of_In, enumerate_elem in Ha. by eapply list_elem_of_lookup_2.
Qed.

(** one document, all at once *)
Lemma learn_grows (db : list (list (string * NeighborRow)) * TrieNode)
    (doc : list (list Token)) :
  store_shape db →
  ∃ db', learn db doc = Some db' ∧ store_shape db' ∧
         heap_grows db.1 db'.1 ∧ trie_grows db.2 db'.2 ∧
         total_count db'.1
         = (total_count db.1 + Z.of_nat (length (flat_map ngramify doc)))%Z ∧
         (∀ a b d, (a, b, d) ∈ flat_map ngramify doc → tok_text a ≠ "" →
                   recorded db'.1 db'.2 (tok_text a) (tok_text b)) ∧
         (Forall (Forall (λ token, tok_text token ≠ "")) doc →
          one_word_each db.1 db.2 → one_word_each db'.1 db'.2).
Proof.
  destruct db as [h trie]. intros (Hheap & Hlocs & Hkeyed). simpl in *. unfold learn.
  destruct (learn_ngrams_grows (flat_map ngramify doc) h trie [])
    as (h' & trie' & cache' & Hl & Hinv' & Hkeyed' & _ & Hh & Ht & Hc & Hrec & Hone).
  - repeat split; simpl; [done..|]. intros k w Hin. by apply not_elem_of_nil in Hin.
  - done.
  - intros k w Hin. by apply not_elem_of_nil in Hin.
  - apply doc_in_window.
  - simpl. rewrite Hl. exists (h', trie'). split; [done|].
    destruct Hinv' as (Hheap' & Hlocs' & _). simpl in *. split_and!; [done..|].
    intros Htexts. apply Hone. apply Forall_forall. intros g Hin.
    apply list_elem_of_In, in_flat_map in Hin as (span & Hspan & Hin).
    apply list_elem_of_In, ngramify_first in Hin.
    rewrite Forall_forall in Htexts. apply list_elem_of_In in Hspan.
    specialize (Htexts span Hspan). rewrite Forall_forall in Htexts. by apply Htexts.
Qed.

(** a sequence of documents from the empty store *)
Lemma learn_docs_grows (docs : list (list (list Token))) :
  ∀ db, store_shape db →
    ∃ db', learn_docs db docs = Some db' ∧ store_shape db' ∧
           total_count db'.1
           = (total_count db.1
              + Z.of_nat (length (flat_map (flat_map ngramify) docs)))%Z ∧
           (Forall (Forall (Forall (λ token, tok_text token ≠ ""))) docs →
            one_word_each db.1 db.2 → one_word_each db'.1 db'.2).
Proof.
  unfold learn_docs. induction docs as [|doc docs IH]; intros db Hdb.
  - exists db. simpl. split_and!; [done..|lia|done].
  - destruct (learn_grows db doc Hdb) as (db1 & Hl & Hdb1 & _ & _ & Hc1 & _ & Hone1).
    destruct (IH db1 Hdb1) as (db' & Hl' & Hdb' & Hc' & Hone').
    exists db'. cbn [foldM flat_map]. rewrite Hl. split_and!; [done..| |].
    + rewrite Hc', Hc1, length_app. lia.
    + intros Htexts Hone. inversion Htexts; subst. by apply Hone', Hone1.
Qed.

(** X15: training on a document takes nothing away from a store: the call
    returns, the store keeps the shape that [learn] needs (so it can be
    trained again), every text that selected a word selects the same
    word, and every neighbor record of that word is still there under its
    key, with the pos it had (the pos seen first stays), the rating it had
    and a count that is not smaller. *)
Theorem learn_only_adds (db : list (list (string * NeighborRow)) * TrieNode)
    (doc : list (list Token)) :
  store_shape db →
  ∃ db', learn db doc = Some db' ∧ store_shape db' ∧
    ∀ key w, select db.2 key = Some w →
      select db'.2 key = Some w ∧
      ∀ nkey row, dict_get nkey (heap_get db.1 (neighbors w)) = Some row →
        ∃ row', dict_get nkey (heap_get db'.1 (neighbors w)) = Some row' ∧
                POS row' = POS row ∧
                (COUNT (VALUE_MATRIX row) ≤ COUNT (VALUE_MATRIX row'))%Z ∧
                RATING (VALUE_MATRIX row') = RATING (VALUE_MATRIX row).
Proof.
  intros Hdb. destruct (learn_grows db doc Hdb) as (db' & Hl & Hdb' & [Hlen Hh] & Ht & _).
  exists db'. split_and!; [done..|]. intros key w Hsel. split; [by apply Ht|].
  intros nkey row Hrow. by apply Hh.
Qed.

(** X16: from the empty store, on documents whose tokens have a text that
    is not empty, each n-gram adds one to the count of one record of one
    word: after the [learn] calls no two words of the trie share a
    dictionary, and the counts of the records of the words of the trie add
    up to the number of n-grams of the sentences of the documents. *)
Theorem learn_counts_ngrams (docs : list (list (list Token))) :
  Forall (Forall (Forall (λ token, tok_text token ≠ ""))) docs →
  ∃ h trie,
    learn_docs ([], empty_trie) docs = Some (h, trie) ∧
    NoDup (map neighbors (trie_words trie)) ∧
    store_count h trie = Z.of_nat (length (flat_map (flat_map ngramify) docs)).
Proof.
  intros Htexts.
  destruct (learn_docs_grows docs ([], empty_trie)) as ([h trie] & Hl & _ & Hc & Hone).
  { apply store_ok_shape, store_ok_empty. }
  assert (Hperm : one_word_each h trie).
  { apply Hone; [done|]. unfold one_word_each. by simpl. }
  exists h, trie. split_and!; [done| |].
  - unfold one_word_each in Hperm. rewrite Hperm. apply NoDup_seq.
  - rewrite (store_count_total _ _ Hperm). simpl in Hc. rewrite Hc.
    unfold total_count. simpl. lia.
Qed.

(** X17: what was learned is found: after [learn], for every n-gram
    [(a, b, dist)] of a sentence of the document with a text [a] that is
    not empty, [select] finds a word under the text of [a], and the
    neighbor dictionary of that word has a record under the text of [b]
    with a count of at least one. *)
Theorem learn_records_ngrams (db : list (list (string * NeighborRow)) * TrieNode)
    (doc : list (list Token)) :
  store_ok db →
  ∃ db', learn db doc = Some db' ∧
    ∀ sentence a b d,
      sentence ∈ doc → (a, b, d) ∈ ngramify sentence → tok_text a ≠ "" →
      ∃ w row, select db'.2 (tok_text a) = Some w ∧
               dict_get (tok_text b) (heap_get db'.1 (neighbors w)) = Some row ∧
               (1 ≤ COUNT (VALUE_MATRIX row))%Z.
Proof.
  intros Hdb.
  destruct (learn_grows db doc (store_ok_shape db Hdb)) as (db' & Hl & _ & _ & _ & _ & Hrec & _).
  exists db'. split; [done|]. intros sentence a b d Hs Hg Hne.
  apply (Hrec a b d); [|done].
  apply list_elem_of_In, in_flat_map. exists sentence.
  split; by apply list_elem_of_In.
Qed.

(** *** The two scans of a sentence *)

Lemma scan_forward (l : list (option MarkovWord)) :
  ∀ i bl blank pj,
    (∀ b, bl = Some b → b < i ∧ (1 ≤ MARKOV_WINDOW_SIZE → S b = i)) →
    scan (enumerate_from i l) bl = (blank, pj) →
    pj = [] ∨ ∃ b, blank = Some b ∧ pj = [S b] ∧ 1 ≤ MARKOV_WINDOW_SIZE.
Proof.
  induction l as [|[w|] l IH]; intros i bl blank pj Hbl Hscan; simpl in Hscan.
  - left. congruence.
  - destruct bl as [b|]; [|eapply IH; [|done]; done].
    destruct (Hbl b eq_refl) as [Hlt Hadj]. case_decide as Hwin.
    + right. exists b. simplify_eq. split; [done|].
      assert (1 ≤ MARKOV_WINDOW_SIZE) by lia. split; [|done]. by rewrite Hadj.
    + eapply IH; [|done]. intros b' [= <-]. lia.
  - eapply IH; [|done]. intros b' [= <-]. split; [lia | done].
Qed.

Lemma scan_backward n (l : list (option MarkovWord)) :
  ∀ i bl blank pj,
    i + length l ≤ S n →
    (∀ b, bl = Some b → n - i < b ∧ (1 ≤ MARKOV_WINDOW_SIZE → b = S (n - i))) →
    scan (map (λ e : nat * option MarkovWord, (n - e.1, e.2)) (enumerate_from i l)) bl
    = (blank, pj) →
    pj = [] ∨ ∃ j, blank = Some (S j) ∧ pj = [j] ∧ 1 ≤ MARKOV_WINDOW_SIZE.
Proof.
  induction l as [|[w|] l IH]; intros i bl blank pj Hlen Hbl Hscan;
    simpl in Hscan, Hlen.
  - left. congruence.
  - destruct bl as [b|]; [|eapply (IH (S i)); [lia| |done]; done].
    destruct (Hbl b eq_refl) as [Hlt Hadj]. case_decide as Hwin.
    + right. exists (n - i). simplify_eq.
      assert (1 ≤ MARKOV_WINDOW_SIZE) by lia. split; [|done]. by rewrite Hadj.
    + eapply (IH (S i)); [lia| |done]. intros b' [= <-]. lia.
  - destruct l as [|slot l]; [left; simpl in Hscan; congruence|].
    eapply (IH (S i)); [lia| |done]. intros b' [= <-]. simpl in Hlen. split; lia.
Qed.

(** X18: each of the two scans of a sentence in [_generate_words] finds
    either nothing to project from, or one blank slot and one word to
    project from, and then the word stands directly beside the blank: after
    it in the first scan, before it in the second.  The window test of the
    scan only matters when [MARKOV_WINDOW_SIZE] is 0, and then no scan finds
    a word. *)
Theorem scan_adjacent (sentence : list (option MarkovWord)) :
  ((scan (enumerate sentence) None).2 = [] ∨
   ∃ b w, scan (enumerate sentence) None = (Some b, [S b]) ∧
          sentence !! b = Some None ∧ sentence !! S b = Some (Some w) ∧
          1 ≤ MARKOV_WINDOW_SIZE) ∧
  ((scan (enumerate_reversed sentence) None).2 = [] ∨
   ∃ j w, scan (enumerate_reversed sentence) None = (Some (S j), [j]) ∧
          sentence !! S j = Some None ∧ sentence !! j = Some (Some w) ∧
          1 ≤ MARKOV_WINDOW_SIZE).
Proof.
  split.
  - destruct (scan (enumerate sentence) None) as [blank pj] eqn:Hscan.
    destruct (scan_forward sentence 0 None blank pj) as [->|(b & -> & -> & HK)];
      [done|done|by left|].
    right. destruct (scan_project _ _ _ _ Hscan (S b)) as [w Hw];
      [apply list_elem_of_here|].
    exists b, w. split_and!; [done| |by apply enumerate_elem|done].
    apply scan_blank in Hscan as [?|Hin]; [done|]. by apply enumerate_elem.
  - destruct (scan (enumerate_reversed sentence) None) as [blank pj] eqn:Hscan.
    destruct (scan_backward (length sentence - 1) (reverse sentence) 0 None blank pj)
      as [->|(j & -> & -> & HK)]; [|done|exact Hscan|by left|].
    { rewrite length_reverse. lia. }
    right. destruct (scan_project _ _ _ _ Hscan j) as [w Hw];
      [apply list_elem_of_here|].
    exists j, w. split_and!; [done| |by apply enumerate_reversed_elem|done].
    apply scan_blank in Hscan as [?|Hin]; [done|]. by apply enumerate_reversed_elem.
Qed.
End MarkovEngine.

(** ** The filters (claim C9) *)
Section Filters.

(** [str.isalnum] on one character: any predicate that rejects the space
    and the punctuation that the filters delete *)
Variable isalnum : N → bool.
Hypothesis isalnum_not_stripped : ∀ c, isalnum c = true → c ∉ STRIPPED.
Hypothesis isalnum_not_space : isalnum 32%N = false.

Definition alnums (s : list N) : list N := filter (λ c, isalnum c = true) s.

Lemma alnums_cons c s :
  alnums (c :: s) = if isalnum c then c :: alnums s else alnums s.
Proof.
  unfold alnums. rewrite filter_cons. destruct (isalnum c) eqn:Hc.
  - by rewrite decide_True.
  - by rewrite decide_False.
Qed.

Lemma smooth_alnums fuel : ∀ s, alnums (smooth fuel s) = alnums s.
Proof.
  induction fuel as [|fuel IH]; intros s; simpl; [done|].
  destruct s as [|c1 [|c2 rest]]; try done.
  case_decide as Hmatch.
  - destruct Hmatch as [-> _]. rewrite !alnums_cons, isalnum_not_space, IH. done.
  - rewrite (alnums_cons c1 (c2 :: rest)), alnums_cons, IH. done.
Qed.

Lemma stripped_alnums (s : list N) : alnums (filter (λ c, c ∉ STRIPPED) s) = alnums s.
Proof.
  induction s as [|c s IH]; [done|].
  rewrite filter_cons. case_decide as Hc.
  - by rewrite !alnums_cons, IH.
  - rewrite alnums_cons, IH. destruct (isalnum c) eqn:Halnum; [|done].
    by apply isalnum_not_stripped in Halnum.
Qed.

(** C9 (amended): the alphanumeric characters of
    [smooth_output(filter_input(x))] are, in order and with multiplicity,
    those of [x] once its occurrences of [&amp;] are taken out: the letters
    of the entity go with it, nothing else alphanumeric is removed. *)
Theorem filters_keep_alnums (x : list N) :
  option_map alnums (smooth_output (filter_input (Some x))) = Some (alnums (strip_amp x)).
Proof. simpl. by rewrite smooth_alnums, stripped_alnums. Qed.

End Filters.

(** ** A concrete instance: tags, window, rationals for floats *)
(** ** More on the filters *)

(** the two cases of [strip_amp] on a text that is not empty *)
Lemma strip_amp_cons (c : N) (rest : list N) :
  strip_amp (c :: rest) = c :: strip_amp rest ∨
  ∃ rest', c :: rest = [38; 97; 109; 112; 59]%N ++ rest' ∧
           strip_amp (c :: rest) = strip_amp rest'.
Proof.
  cbn [strip_amp].
  repeat (case_match; try (left; reflexivity)).
  right. eexists. split; reflexivity.
Qed.

Lemma strip_amp_sublist_len (n : nat) :
  ∀ s, length s ≤ n → sublist (strip_amp s) s.
Proof.
  induction n as [|n IH]; intros [|c rest] Hlen; simpl in Hlen; try lia; try done.
  destruct (strip_amp_cons c rest) as [->|(rest' & Heq & ->)].
  - apply sublist_skip, IH. lia.
  - rewrite Heq. apply sublist_inserts_l, IH.
    apply (f_equal length) in Heq. rewrite length_app in Heq. simpl in Heq. lia.
Qed.

Lemma strip_amp_sublist (s : list N) : sublist (strip_amp s) s.
Proof. by apply (strip_amp_sublist_len (length s)). Qed.

(** a text without a semicolon holds no entity *)
Lemma strip_amp_id (s : list N) : 59%N ∉ s → strip_amp s = s.
Proof.
  induction s as [|c rest IH]; intros Hno; [done|].
  rewrite not_elem_of_cons in Hno. destruct Hno as [Hc Hrest].
  destruct (strip_amp_cons c rest) as [->|(rest' & Heq & _)].
  - by rewrite IH.
  - exfalso. injection Heq as -> ->. apply Hrest.
    do 3 apply list_elem_of_further. apply list_elem_of_here.
Qed.

(** X19: [filter_input] only deletes characters: its result is a
    subsequence of the text that holds none of the characters of the
    character class, and filtering it again changes nothing. *)
Theorem filter_input_clean (x : list N) :
  ∃ y, filter_input (Some x) = Some y ∧
       sublist y x ∧
       Forall (λ c, c ∉ STRIPPED) y ∧
       filter_input (Some y) = Some y.
Proof.
  eexists. split; [reflexivity|]. split_and!.
  - etrans; [apply sublist_filter | apply strip_amp_sublist].
  - apply Forall_forall. intros c Hc. by apply list_elem_of_filter in Hc as [Hc _].
  - simpl. f_equal. rewrite strip_amp_id.
    + apply list_filter_filter_l. done.
    + intros Hin. apply list_elem_of_filter in Hin as [Hc _]. apply Hc.
      unfold STRIPPED. do 2 apply list_elem_of_further. apply list_elem_of_here.
Qed.

Lemma smooth_sublist (fuel : nat) : ∀ s, sublist (smooth fuel s) s.
Proof.
  induction fuel as [|fuel IH]; intros s; simpl; [done|].
  destruct s as [|c1 [|c2 rest]]; try done.
  case_decide.
  - apply sublist_cons, sublist_skip, IH.
  - apply sublist_skip, IH.
Qed.

Lemma smooth_keeps_other (fuel : nat) :
  ∀ s, filter (λ c, c ≠ 32%N) (smooth fuel s) = filter (λ c, c ≠ 32%N) s.
Proof.
  induction fuel as [|fuel IH]; intros s; simpl; [done|].
  destruct s as [|c1 [|c2 rest]]; try done.
  case_decide as Hmatch.
  - destruct Hmatch as [-> _].
    rewrite (filter_cons _ 32%N), decide_False by (intros Hne; by apply Hne).
    by rewrite !(filter_cons _ c2), IH.
  - by rewrite !(filter_cons _ c1), IH.
Qed.

Lemma smooth_fuel (fuel : nat) :
  ∀ fuel' s, length s ≤ fuel → length s ≤ fuel' → smooth fuel s = smooth fuel' s.
Proof.
  induction fuel as [|fuel IH]; intros [|fuel'] s Hf Hf'; simpl.
  - done.
  - destruct s as [|c1 s]; [done | simpl in Hf; lia].
  - destruct s as [|c1 s]; [done | simpl in Hf'; lia].
  - destruct s as [|c1 [|c2 rest]]; try done. simpl in Hf, Hf'.
    case_decide.
    + f_equal. apply IH; lia.
    + f_equal. apply IH; simpl; lia.
Qed.

(** X20: [smooth_output] deletes spaces and nothing else: its result is a
    subsequence of the text with the same characters other than spaces, in
    the same order.  The fuel of the model is enough: every amount from the
    length of the text on gives the same result. *)
Theorem smooth_output_spaces (x : list N) :
  ∃ y, smooth_output (Some x) = Some y ∧
       sublist y x ∧
       filter (λ c, c ≠ 32%N) y = filter (λ c, c ≠ 32%N) x ∧
       ∀ fuel, length x ≤ fuel → smooth fuel x = y.
Proof.
  eexists. split; [reflexivity|]. split_and!.
  - apply smooth_sublist.
  - apply smooth_keeps_other.
  - intros fuel Hfuel. by apply smooth_fuel.
Qed.

Module Demo.

(** [c.lower()] on the 8-bit characters that [string] holds, the code
    points 0 to 255: the letters A to Z and the capital letters of Latin-1
    (192 to 214 and 216 to 222) are mapped to the character 32 places
    further on, every other character is left alone. *)
Definition lower (c : ascii) : ascii :=
  let n := nat_of_ascii c in
  if (65 <=? n) && (n <=? 90) || (192 <=? n) && (n <=? 214) || (216 <=? n) && (n <=? 222)
  then ascii_of_nat (n + 32) else c.

Inductive Tag := NOUN | VERB | ADJ | ADV | DET | OTHER | EOS.

#[global] Instance Tag_eq_dec : EqDecision Tag.
Proof. solve_decision. Defined.

(** [MARKOV_WINDOW_SIZE] and [MARKOV_GENERATE_SUBJECT_POS_PRIORITY] *)
Definition K : nat := 2.
Definition PRIORITY : list Tag := [NOUN; VERB; ADJ].

(** A sampler on rationals that raises as [np.random.choice] does when the
    probabilities hold a negative entry or do not sum to 1 (as after a
    division by a zero column sum), and otherwise draws the first index of
    positive probability. *)
Definition first_positive (g : nat) (p : list Q) : option (nat * nat) :=
  if forallb (λ x, Qle_bool 0 x) p && Qeq_bool (foldr Qplus 0%Q p) 1%Q
  then match list_find (λ x, Qle_bool x 0 = false) p with
       | Some (i, _) => Some (i, S g)
       | None => None
       end
  else None.

Definition tok (s : string) (t : Tag) : @Token Tag := {| tok_text := s; tok_pos := t |}.

(** a store: the heap of dictionaries and the trie *)
Definition Db : Type := list (list (string * @NeighborRow Tag)) * @TrieNode Tag.

Definition train (db : Db) (docs : list (list (list (@Token Tag)))) : option Db :=
  learn_docs lower K db docs.

Definition run (fuel : nat) (db : Db) (structure : list Tag)
    (subjects : list (@MarkovWord Tag)) : @Outcome Tag :=
  generate lower EOS K PRIORITY 0%Q inject_Z Qplus Qmult Qdiv 1%Q 1%Q first_positive
           fuel db.1 db.2 0 structure subjects.

Definition projection (db : Db) (w : @MarkovWord Tag) (i L : nat) (p : Tag)
  : @MarkovWordProjection Tag Q :=
  project K 0%Q inject_Z Qplus Qmult 1%Q 1%Q db.1 w i L p.

Definition empty : Db := ([], empty_trie).

(** one sentence, "cat sat mat", and the store after one [learn] call *)
Definition corpus : list (list (list (@Token Tag))) :=
  [[[tok "cat" NOUN; tok "sat" VERB; tok "mat" NOUN]]].

Definition cat_db : Db := Eval vm_compute in default empty (train empty corpus).

Definition cat : @MarkovWord Tag := {| text := "cat"; pos := NOUN; neighbors := 0 |}.
Definition sat : @MarkovWord Tag := {| text := "sat"; pos := VERB; neighbors := 1 |}.

(** two documents in which "b" is a noun first and a verb later *)
Definition homograph_corpus : list (list (list (@Token Tag))) :=
  [[[tok "b" NOUN; tok "c" VERB]]; [[tok "a" NOUN; tok "b" VERB]]].

Definition homograph_db : Db :=
  Eval vm_compute in default empty (train empty homograph_corpus).

Definition word_a : @MarkovWord Tag := {| text := "a"; pos := NOUN; neighbors := 2 |}.
Definition word_b : @MarkovWord Tag := {| text := "b"; pos := NOUN; neighbors := 0 |}.







(** one sentence with the pair "a b", to be learned over and over *)
Definition pair_doc : list (list (@Token Tag)) := [[tok "a" NOUN; tok "b" VERB]].

Definition pair_trie : @TrieNode Tag :=
  Eval vm_compute in (default empty (train empty [pair_doc])).2.

(** the store after [pair_doc] was learned [c] times, when the two entries
    of the histograms that count the pair hold [e] *)
Definition pair_db (e c : Z) : Db :=
  ([[("b", {| POS := VERB; VALUE_MATRIX := {| COUNT := c; RATING := 0 |};
              DISTANCE_MATRIX := [0; 0; 0; e; 0]%Z |})];
    [("a", {| POS := NOUN; VALUE_MATRIX := {| COUNT := c; RATING := 0 |};
              DISTANCE_MATRIX := [0; e; 0; 0; 0]%Z |})]],
   pair_trie).

Lemma pair_learn_first : learn lower K empty pair_doc = Some (pair_db 1 1).
Proof. reflexivity. Qed.

Lemma pair_learn_again (e c : Z) :
  learn lower K (pair_db e c) pair_doc = Some (pair_db (wrap_int64 (e + 1)) (c + 1)).
Proof. lazy -[wrap_int64]. reflexivity. Qed.

Lemma pair_learn_many (n : nat) :
  ∀ z c, learn_docs lower K (pair_db (wrap_int64 z) c) (replicate n pair_doc)
         = Some (pair_db (wrap_int64 (z + Z.of_nat n)) (c + Z.of_nat n)).
Proof.
  unfold learn_docs. induction n as [|n IH]; intros z c.
  - cbn [replicate foldM]. by rewrite !Z.add_0_r.
  - cbn [replicate foldM]. rewrite pair_learn_again, wrap_int64_succ, IH.
    do 2 f_equal; [f_equal|]; lia.
Qed.

Lemma pair_learn_all (n : nat) :
  Z.of_nat n = 9223372036854775807%Z →
  learn_docs lower K empty (replicate (S n) pair_doc)
  = Some (pair_db (-9223372036854775808) 9223372036854775808).
Proof.
  intros Hn. unfold learn_docs. cbn [replicate foldM]. rewrite pair_learn_first.
  change (pair_db 1 1) with (pair_db (wrap_int64 1) 1).
  fold (learn_docs lower K (pair_db (wrap_int64 1) 1) (replicate n pair_doc)).
  rewrite pair_learn_many, Hn. reflexivity.
Qed.

(** C3 without a bound on the number of observations fails: after
    2^63 [learn] calls on the sentence "a b" the entry of the histogram
    that counts the pair has wrapped around to -2^63, and the count is
    2^63. *)
Lemma learn_wraps_around :
  ∃ h trie w row,
    learn_docs lower K ([], empty_trie)
               (replicate (S (Z.to_nat 9223372036854775807)) pair_doc) = Some (h, trie) ∧
    select lower trie "a" = Some w ∧
    dict_get "b" (heap_get h (neighbors w)) = Some row ∧
    DISTANCE_MATRIX row = [0; 0; 0; -9223372036854775808; 0]%Z ∧
    COUNT (VALUE_MATRIX row) = 9223372036854775808%Z.
Proof.
  eexists _, _, _, _. split.
  { apply pair_learn_all. apply Z2Nat.id. lia. }
  split; [reflexivity|]. split; [reflexivity|]. split; reflexivity.
Qed.


(** C3 on the cat corpus, whose six n-grams are far below the bound *)
Lemma learn_keeps_neighbor_invariants_witness :
  ∃ h trie,
    train empty corpus = Some (h, trie) ∧
    ∀ w, w ∈ trie_words trie →
      neighbors w < length h ∧
      ∀ key row, (key, row) ∈ heap_get h (neighbors w) →
        length (DISTANCE_MATRIX row) = 2 * K + 1 ∧
        DISTANCE_MATRIX row !! K = Some 0%Z ∧
        Forall (λ v, (0 ≤ v)%Z) (DISTANCE_MATRIX row) ∧
        COUNT (VALUE_MATRIX row) = sum_list (DISTANCE_MATRIX row).
Proof.
  destruct (learn_keeps_neighbor_invariants lower K corpus) as (h & trie & Hlearn & Hinv).
  exists h, trie. split; [exact Hlearn|]. apply Hinv. vm_compute. reflexivity.
Defined.

(** S1 of the specification, with [K = 2]: one bigram *)
Example learn_single_bigram :
  train empty [[[tok "A" NOUN; tok "B" VERB]]]
  = Some ([[("B", {| POS := VERB; VALUE_MATRIX := {| COUNT := 1; RATING := 0 |};
                     DISTANCE_MATRIX := [0; 0; 0; 1; 0]%Z |})];
           [("A", {| POS := NOUN; VALUE_MATRIX := {| COUNT := 1; RATING := 0 |};
                     DISTANCE_MATRIX := [0; 1; 0; 0; 0]%Z |})]],
          Node None
            [("a"%char, Node (Some {| text := "A"; pos := NOUN; neighbors := 0 |}) []);
             ("b"%char, Node (Some {| text := "B"; pos := VERB; neighbors := 1 |}) [])]).
Proof. reflexivity. Qed.

Example cat_db_trained :
  train empty corpus = Some cat_db ∧
  select lower cat_db.2 "cat" = Some cat ∧ select lower cat_db.2 "sat" = Some sat.
Proof. repeat split. Qed.

(** C1 (the code differs): [_assign_subjects] reports success although a
    sentence received no subject.  For [[ADJ, EOS]] and a NOUN subject the
    call still returns [None], but from the first pass of the fill loop;
    with a second sentence the fill loop works on it first, and for
    [[ADJ, EOS, VERB, NOUN, EOS]] the call ends in the exception of the
    sampler; for [[EOS, NOUN, VERB, EOS]] the first sentence receives no
    subject and the call returns a board. *)
Theorem generate_without_anchor :
  _assign_subjects [cat] [[ADJ]] [[None]] = ([[None]], true) ∧
  run 5 cat_db [ADJ; EOS] [cat] = Returned None 1 ∧
  _assign_subjects [cat] [[ADJ]; [VERB; NOUN]] [[None]; [None; None]]
  = ([[None]; [None; Some cat]], true) ∧
  run 5 cat_db [ADJ; EOS; VERB; NOUN; EOS] [cat] = Raised ∧
  run 5 cat_db [ADJ; EOS; NOUN; VERB; EOS] [cat] = Returned None 2 ∧
  run 5 cat_db [EOS; NOUN; VERB; EOS] [cat]
  = Returned (Some [[]; [Some cat; Some sat]]) 1.
Proof. repeat split. Qed.



(** C5 (counterexample): after the two documents the record of "b" under
    "a" says VERB while the word "b" of the trie is a NOUN, and [generate]
    puts that word into the VERB slot. *)
Lemma generate_pos_mismatch :
  train empty homograph_corpus = Some homograph_db ∧
  select lower homograph_db.2 "a" = Some word_a ∧
  run 5 homograph_db [NOUN; VERB; EOS] [word_a]
  = Returned (Some [[Some word_a; Some word_b]]) 1 ∧
  (_split_sentences EOS [NOUN; VERB; EOS]).1 = [[NOUN; VERB]] ∧
  pos word_b = NOUN.
Proof. repeat split. Qed.

(** C5, on the store of the one sentence *)
Lemma generate_pos_of_slots_witness :
  forallb (word_consistentb lower cat_db.1 cat_db.2) (trie_words cat_db.2 ++ [cat]) = true ∧
  run 5 cat_db [NOUN; VERB; EOS] [cat] = Returned (Some [[Some cat; Some sat]]) 1 ∧
  Forall2 (Forall2 (λ p slot, ∃ w : @MarkovWord Tag, slot = Some w ∧ pos w = p))
          (_split_sentences EOS [NOUN; VERB; EOS]).1 [[Some cat; Some sat]].
Proof.
  split; [reflexivity|]. split; [reflexivity|].
  exact (generate_pos_of_slots lower EOS K PRIORITY 0%Q inject_Z Qplus Qmult Qdiv 1%Q 1%Q
           first_positive 5 cat_db.1 cat_db.2 0 [NOUN; VERB; EOS] [cat]
           [[Some cat; Some sat]] 1 eq_refl eq_refl).
Defined.

(** C6 (counterexample): one NOUN subject and three NOUN slots in two
    sentences: the subject stands in all three. *)
Lemma subject_placed_three_times :
  (_assign_subjects (_sort_subjects PRIORITY [cat])
                    (_split_sentences EOS [NOUN; NOUN; EOS; NOUN; EOS]).1
                    (_split_sentences EOS [NOUN; NOUN; EOS; NOUN; EOS]).2).1
  = [[Some cat; Some cat]; [Some cat]] ∧
  placements cat [[Some cat; Some cat]; [Some cat]] = 3 ∧
  sentences_holding cat [[Some cat; Some cat]; [Some cat]] = 2.
Proof. repeat split. Qed.





Lemma ascii_alnum_not_stripped c : ascii_alnum c = true → c ∉ STRIPPED.
Proof.
  intros Hc Hin. unfold STRIPPED in Hin.
  repeat (apply elem_of_cons in Hin as [->|Hin]; [discriminate Hc|]).
  by apply not_elem_of_nil in Hin.
Qed.

(** C9, for the ASCII letters and digits *)
Lemma filters_keep_alnums_witness :
  (∀ c, ascii_alnum c = true → c ∉ STRIPPED) ∧ ascii_alnum 32%N = false ∧
  option_map (alnums ascii_alnum)
             (smooth_output (filter_input (Some (codepoints "Tom &amp; Jerry (1940) , ok ."))))
  = Some (alnums ascii_alnum (strip_amp (codepoints "Tom &amp; Jerry (1940) , ok ."))).
Proof.
  split; [exact ascii_alnum_not_stripped|]. split; [reflexivity|].
  exact (filters_keep_alnums ascii_alnum ascii_alnum_not_stripped eq_refl
           (codepoints "Tom &amp; Jerry (1940) , ok .")).
Defined.

(** C9 (counterexample): the letters of the entity are alphanumeric
    characters of the input and are gone from the output. *)
Lemma filters_drop_entity_letters :
  smooth_output (filter_input (Some (codepoints "a&amp;b"))) = Some (codepoints "ab") ∧
  alnums ascii_alnum (codepoints "a&amp;b") = codepoints "aampb" ∧
  alnums ascii_alnum (codepoints "ab") = codepoints "ab".
Proof. repeat split. Qed.

(** C10, for a skeleton of two tags *)
Lemma generate_without_EOS_witness :
  (EOS ∉ [NOUN; VERB]) ∧
  _split_sentences EOS [NOUN; VERB] = ([], []) ∧
  run 1 cat_db [NOUN; VERB] [cat] = Returned None 1.
Proof.
  assert (Hno : EOS ∉ [NOUN; VERB]).
  { rewrite !not_elem_of_cons. repeat split; [discriminate..|apply not_elem_of_nil]. }
  split; [exact Hno|].
  exact (generate_without_EOS lower EOS K PRIORITY 0%Q inject_Z Qplus Qmult Qdiv 1%Q 1%Q
           first_positive 0 cat_db.1 cat_db.2 0 [NOUN; VERB] [cat] Hno).
Defined.

End Demo.

(** ** The further properties on the stores of [Demo] *)

Module More.

Import Demo.

(** a sampler that always draws the first index *)
Definition pick_first (g : nat) (p : list Q) : option (nat * nat) :=
  match p with
  | [] => None
  | _ :: _ => Some (0, g)
  end.

(** the document of [corpus] *)
Definition doc : list (list (@Token Tag)) :=
  [[tok "cat" NOUN; tok "sat" VERB; tok "mat" NOUN]].

(** a second document, with the pair "cat sat" again *)
Definition doc2 : list (list (@Token Tag)) :=
  [[tok "Cat" NOUN; tok "sat" VERB]].

(** a neighbor to write by hand *)
Definition dog : @MarkovNeighbor Tag :=
  {| nb_text := "dog"; nb_pos := NOUN;
     nb_values := {| COUNT := 1; RATING := 0 |}; nb_dist := [0; 0; 0; 1; 0]%Z |}.

Lemma store_ok_cat_db : store_ok lower K cat_db.
Proof.
  assert (Hcat : learn_docs lower K Demo.empty [doc] = Some cat_db) by reflexivity.
  destruct (learn_docs_counted lower K [doc] 0 Demo.empty)
    as (db1 & Hl1 & Hheap & Hlocs & _);
    [lia | by vm_compute | apply learn_inv_empty |].
  destruct (learn_docs_grows lower K [doc] Demo.empty)
    as (db2 & Hl2 & (_ & _ & Hkeyed) & _).
  { apply store_ok_shape, store_ok_empty. }
  rewrite Hcat in Hl1, Hl2. injection Hl1 as <-. injection Hl2 as <-.
  split_and!; [|done..].
  eapply Forall_impl; [exact Hheap|]. intros dict Hdict.
  eapply Forall_impl; [exact Hdict|]. by intros kv [Hok _].
Qed.

Lemma select_after_insert_witness :
  text cat ≠ "" ∧
  (insert lower empty_trie cat).2 = Some cat ∧ select lower (insert lower empty_trie cat).1 (text cat) = Some cat.
Proof.
  assert (Hne : text cat ≠ "") by discriminate.
  split; [exact Hne|]. exact (select_after_insert lower empty_trie cat Hne).
Defined.

(** a store that has learned the word of code points 201, 116, 233 (a
    capital E with an acute accent, t, e with an acute accent), and the
    same spelling with the first letter in lower case *)
Definition ete : string := String "201" (String "t" (String "233" EmptyString)).
Definition ete_lowered : string := String "233" (String "t" (String "233" EmptyString)).
Definition ete_db : Db :=
  Eval vm_compute in default empty (train empty [[[tok ete NOUN; tok "b" VERB]]]).

Lemma select_folds_accents :
  select lower ete_db.2 ete_lowered = Some {| text := ete; pos := NOUN; neighbors := 0 |}.
Proof. reflexivity. Qed.

Lemma select_folds_case_witness :
  map lower (chars ete) = map lower (chars ete_lowered) ∧
  select lower ete_db.2 ete = select lower ete_db.2 ete_lowered.
Proof.
  assert (Heq : map lower (chars ete) = map lower (chars ete_lowered)) by reflexivity.
  split; [exact Heq|]. exact (select_folds_case lower ete_db.2 ete ete_lowered Heq).
Defined.

Lemma select_other_text_witness :
  map lower (chars (text cat)) ≠ map lower (chars "sat") ∧
  select lower (insert lower cat_db.2 cat).1 "sat" = select lower cat_db.2 "sat" ∧
  select lower (update lower cat_db.2 cat).1 "sat" = select lower cat_db.2 "sat".
Proof.
  assert (Hne : map lower (chars (text cat)) ≠ map lower (chars "sat")) by discriminate.
  split; [exact Hne|]. exact (select_other_text lower cat_db.2 cat "sat" Hne).
Defined.

Lemma get_after_set_neighbor_witness :
  neighbors cat < length cat_db.1 ∧
  (∀ w', neighbors w' = neighbors cat →
         get_neighbor (set_neighbor cat_db.1 cat dog) w' (nb_text dog) = Some dog) ∧
  (∀ w' key, neighbors w' ≠ neighbors cat ∨ key ≠ nb_text dog →
             get_neighbor (set_neighbor cat_db.1 cat dog) w' key
             = get_neighbor cat_db.1 w' key).
Proof.
  assert (Hloc : neighbors cat < length cat_db.1) by (vm_compute; lia).
  split; [exact Hloc|]. exact (get_after_set_neighbor cat_db.1 cat dog Hloc).
Defined.

Lemma generate_result_words_witness :
  run 5 cat_db [NOUN; VERB; EOS] [cat] = Returned (Some [[Some cat; Some sat]]) 1 ∧
  Forall2 (Forall2 (λ p slot,
             match first_subject (_sort_subjects PRIORITY [cat]) p with
             | Some subject => slot = Some subject
             | None => ∃ w, slot = Some w ∧ w ∈ trie_words cat_db.2
             end))
          (_split_sentences EOS [NOUN; VERB; EOS]).1 [[Some cat; Some sat]].
Proof.
  split; [reflexivity|].
  exact (generate_result_words lower EOS K PRIORITY 0%Q inject_Z Qplus Qmult Qdiv 1%Q 1%Q
           first_positive 5 cat_db.1 cat_db.2 0 [NOUN; VERB; EOS] [cat]
           [[Some cat; Some sat]] 1 eq_refl).
Defined.

Lemma generate_without_match_witness :
  (∀ w : @MarkovWord Tag, w ∈ [cat] → pos w ∈ PRIORITY → pos w ∉ [ADJ; ADV; EOS]) ∧
  run 1 cat_db [ADJ; ADV; EOS] [cat] = Returned None 1.
Proof.
  assert (Hno : ∀ w : @MarkovWord Tag,
            w ∈ [cat] → pos w ∈ PRIORITY → pos w ∉ [ADJ; ADV; EOS]).
  { intros w Hw _. apply list_elem_of_singleton in Hw as ->.
    rewrite !not_elem_of_cons. repeat split; [discriminate..|apply not_elem_of_nil]. }
  split; [exact Hno|].
  exact (generate_without_match lower EOS K PRIORITY 0%Q inject_Z Qplus Qmult Qdiv 1%Q 1%Q
           first_positive 0 cat_db.1 cat_db.2 0 [ADJ; ADV; EOS] [cat] Hno).
Defined.

Lemma generate_returns_witness :
  sampler_in_range pick_first ∧
  max 1 (initial_work EOS PRIORITY [DET; NOUN; VERB; EOS] [cat]) ≤ 5 ∧
  ∃ result n,
    generate lower EOS K PRIORITY 0%Q inject_Z Qplus Qmult Qdiv 1%Q 1%Q pick_first
             5 cat_db.1 cat_db.2 0 [DET; NOUN; VERB; EOS] [cat] = Returned result n.
Proof.
  assert (Hsampler : sampler_in_range pick_first).
  { intros g [|x p] Hp; [done|]. exists 0, g. split; [reflexivity | simpl; lia]. }
  assert (Hfuel : max 1 (initial_work EOS PRIORITY [DET; NOUN; VERB; EOS] [cat]) ≤ 5)
    by (vm_compute; lia).
  split; [exact Hsampler|]. split; [exact Hfuel|].
  exact (generate_returns lower EOS K PRIORITY 0%Q inject_Z Qplus Qmult Qdiv 1%Q 1%Q pick_first
           5 cat_db.1 cat_db.2 0 [DET; NOUN; VERB; EOS] [cat] Hsampler Hfuel).
Defined.

Lemma learn_only_adds_witness :
  store_shape lower K cat_db ∧
  ∃ db', learn lower K cat_db doc2 = Some db' ∧ store_shape lower K db' ∧
    ∀ key w, select lower cat_db.2 key = Some w →
      select lower db'.2 key = Some w ∧
      ∀ nkey row, dict_get nkey (heap_get cat_db.1 (neighbors w)) = Some row →
        ∃ row', dict_get nkey (heap_get db'.1 (neighbors w)) = Some row' ∧
                POS row' = POS row ∧
                (COUNT (VALUE_MATRIX row) ≤ COUNT (VALUE_MATRIX row'))%Z ∧
                RATING (VALUE_MATRIX row') = RATING (VALUE_MATRIX row).
Proof.
  assert (Hshape : store_shape lower K cat_db)
    by exact (store_ok_shape lower K cat_db store_ok_cat_db).
  split; [exact Hshape|].
  exact (learn_only_adds lower K cat_db doc2 Hshape).
Defined.

Lemma learn_counts_ngrams_witness :
  Forall (Forall (Forall (λ token : @Token Tag, tok_text token ≠ ""))) [doc; doc2] ∧
  ∃ h trie,
    learn_docs lower K ([], empty_trie) [doc; doc2] = Some (h, trie) ∧
    NoDup (map neighbors (trie_words trie)) ∧
    store_count h trie
    = Z.of_nat (length (flat_map (flat_map (ngramify K)) [doc; doc2])).
Proof.
  assert (Htexts : Forall (Forall (Forall (λ token : @Token Tag, tok_text token ≠ "")))
                          [doc; doc2]).
  { repeat (apply Forall_cons; split); try apply Forall_nil; done. }
  split; [exact Htexts|].
  exact (learn_counts_ngrams lower K [doc; doc2] Htexts).
Defined.

Lemma learn_records_ngrams_witness :
  store_ok lower K cat_db ∧
  ∃ db', learn lower K cat_db doc2 = Some db' ∧
    ∀ sentence a b d,
      sentence ∈ doc2 → (a, b, d) ∈ ngramify K sentence → tok_text a ≠ "" →
      ∃ w row, select lower db'.2 (tok_text a) = Some w ∧
               dict_get (tok_text b) (heap_get db'.1 (neighbors w)) = Some row ∧
               (1 ≤ COUNT (VALUE_MATRIX row))%Z.
Proof.
  split; [exact store_ok_cat_db|].
  exact (learn_records_ngrams lower K cat_db doc2 store_ok_cat_db).
Defined.


(** *** The probabilities in exact arithmetic

    With the rationals for the floats, the column of [probability_matrix]
    that [handle_projections] hands to the sampler is a distribution
    whenever the column of [distances * magnitudes] does not add up to
    zero. *)

Definition Qsum (l : list Q) : Q := foldr Qplus 0%Q l.

(** [distances * magnitudes] in [probability_matrix] *)
Definition weighted {PosEnum} (c : @MarkovWordProjection PosEnum Q) : list (list Q) :=
  zip_with (λ drow mrow, map (λ d, Qmult d (hd 0%Q mrow)) drow) (distances c) (magnitudes c).

(** [np.sum(.., axis=0)] *)
Definition column_sums (M : list (list Q)) : list Q :=
  match M with
  | [] => []
  | r :: rs => foldl (zip_with Qplus) r rs
  end.

Lemma probability_matrix_weighted {PosEnum} (c : @MarkovWordProjection PosEnum Q) :
  probability_matrix 0%Q Qplus Qmult Qdiv c
  = map (λ row, zip_with Qdiv row (column_sums (weighted c))) (weighted c).
Proof. reflexivity. Qed.

Lemma foldl_sums_lookup (j : nat) (rs : list (list Q)) :
  ∀ r x col,
    r !! j = Some x → mapM (.!! j) rs = Some col →
    ∃ s, foldl (zip_with Qplus) r rs !! j = Some s ∧ (s == x + Qsum col)%Q.
Proof.
  induction rs as [|r' rs IH]; intros r x col Hx Hcol.
  - apply mapM_Some_1 in Hcol. inversion Hcol; subst.
    exists x. split; [done|]. simpl. ring.
  - apply mapM_Some_1 in Hcol. inversion Hcol as [|? y ? col' Hy Hcol']; subst.
    apply mapM_Some_2 in Hcol'.
    destruct (IH (zip_with Qplus r r') (x + y)%Q col') as (s & Hs & Heq); [|done|].
    { by rewrite lookup_zip_with, Hx, Hy. }
    exists s. split; [done|]. rewrite Heq. simpl. ring.
Qed.

Lemma column_divided (j : nat) (S : list Q) (s : Q) (M : list (list Q)) :
  S !! j = Some s →
  ∀ col, mapM (.!! j) M = Some col →
         mapM (.!! j) (map (λ row, zip_with Qdiv row S) M)
         = Some (map (λ x, x / s)%Q col).
Proof.
  intros Hs col Hcol. apply mapM_Some_1 in Hcol. apply mapM_Some_2.
  induction Hcol as [|row x M col Hx Hcol IH]; simpl; constructor; [|done].
  by rewrite lookup_zip_with, Hx, Hs.
Qed.

Lemma Qsum_divided (s : Q) (col : list Q) :
  ¬ (s == 0)%Q → (Qsum (map (λ x, x / s) col) == Qsum col / s)%Q.
Proof.
  intros Hs. induction col as [|x col IH]; simpl.
  - field. exact Hs.
  - rewrite IH. field. exact Hs.
Qed.

(** X21: over the rationals, when the column of the weighted distances of a
    slot does not add up to zero, the probabilities that
    [probability_matrix] gives for the slot add up to one. *)
Theorem p_values_sum_to_one {PosEnum} (c : @MarkovWordProjection PosEnum Q)
    (j : nat) (col : list Q) :
  mapM (.!! j) (weighted c) = Some col → ¬ (Qsum col == 0)%Q →
  ∃ p, mapM (.!! j) (probability_matrix 0%Q Qplus Qmult Qdiv c) = Some p ∧
       (Qsum p == 1)%Q.
Proof.
  intros Hcol Hne. rewrite probability_matrix_weighted.
  destruct (weighted c) as [|r rs] eqn:HM.
  { apply mapM_Some_1 in Hcol. inversion Hcol; subst. exfalso. apply Hne. reflexivity. }
  pose proof Hcol as Hcol0.
  apply mapM_Some_1 in Hcol. inversion Hcol as [|? x ? col' Hx Hcol']; subst.
  apply mapM_Some_2 in Hcol'.
  destruct (foldl_sums_lookup j rs r x col' Hx Hcol') as (s & Hs & Heq).
  exists (map (λ y, y / s)%Q (x :: col')). split.
  - by apply column_divided.
  - assert (Hs0 : ¬ (s == 0)%Q).
    { intros Hz. apply Hne. simpl. by rewrite <- Heq. }
    rewrite Qsum_divided by done. simpl. rewrite <- Heq. field. exact Hs0.
Qed.

Lemma p_values_sum_to_one_witness :
  mapM (.!! 1) (weighted (MarkovWordProjectionCollection [projection cat_db cat 0 2 VERB]))
  = Some [1 * (1 * 1 + 0 * 1)]%Q ∧
  ¬ (Qsum [1 * (1 * 1 + 0 * 1)] == 0)%Q ∧
  ∃ p, mapM (.!! 1)
            (probability_matrix 0%Q Qplus Qmult Qdiv
               (MarkovWordProjectionCollection [projection cat_db cat 0 2 VERB]))
       = Some p ∧ (Qsum p == 1)%Q.
Proof.
  assert (Hcol : mapM (.!! 1) (weighted (MarkovWordProjectionCollection
                                           [projection cat_db cat 0 2 VERB]))
                 = Some [1 * (1 * 1 + 0 * 1)]%Q) by reflexivity.
  assert (Hne : ¬ (Qsum [1 * (1 * 1 + 0 * 1)] == 0)%Q) by (vm_compute; discriminate).
  split; [exact Hcol|]. split; [exact Hne|].
  exact (p_values_sum_to_one _ 1 _ Hcol Hne).
Defined.
End More.
